(** * MusicStream: playback engine, persistence store and library index

    A shallow embedding of the three services of the application,

      - [AudioPlayerService]  (audio-player.service.ts)  as module [Player],
      - [StorageService]      (storage.service.ts)       as module [Storage],
      - [TrackService]        (track.service.ts)         as module [Library],

    over the data model of track.model.ts (module [Model]), followed by the
    properties of the specification that concern them.

    Conventions of the embedding.

    - Signals are fields of a state record; every method is a function from
      state to state (with a result where the method returns one).
    - A JavaScript [number] used as an index or a counter is a [Z]; a number
      used as a time in seconds is a [Q]; [NaN] is [None] where it can occur.
      Adding one to a counter rounds as the number type does ([Js.plus]).
    - [undefined] and [null] are [None].
    - The outcome of a request to the audio device or to IndexedDB is an input
      of the function that issues it ([PlayOutcome], [Backend]); the function
      returns the state reached once the awaited promise has settled. *)

From Stdlib Require Import ZArith QArith Qminmax Lia.
From Stdlib Require Import String Ascii List Permutation.
From Stdlib Require OrderedTypeEx.
From stdpp Require Import base option list gmap strings.

Local Open Scope string_scope.
Local Open Scope list_scope.
Local Open Scope Z_scope.

(** ** Data model (track.model.ts) *)

Module Model.

(** [addedDate] and [createdDate] are declared [Date].  At run time they hold
    a [Date] object (as built by [new Date()]) or, for a record read back
    from a JSON document, the ISO-8601 string of the instant.  Both are
    represented by the instant they denote, in milliseconds. *)
Inductive DateValue : Type :=
| DateObject (ms : Z)
| IsoString (ms : Z).

(** [new Date(d).getTime()] *)
Definition getTime (d : DateValue) : Z :=
  match d with
  | DateObject ms => ms
  | IsoString ms => ms
  end.

(** [Date.prototype.toJSON], as applied by [JSON.stringify]. *)
Definition toJSON (d : DateValue) : DateValue := IsoString (getTime d).

Inductive PlayerStatus : Type :=
| playing | paused | buffering | stopped | loading.

Inductive SortBy : Type :=
| TITLE | ARTIST | DATE | DURATION | PLAYS | LIKES.

Inductive SortOrder : Type := ASC | DESC.

End Model.

Module Track.

Record t : Type := mk {
  id : string;
  title : string;
  artist : string;
  description : option string;
  duration : Q;
  category : string;
  addedDate : Model.DateValue;
  fileUrl : string;
  fileSize : Z;
  fileType : string;
  coverImage : option string;
  coverColor : option string;
  plays : Z;
  likes : Z
}.

Definition set_likes (n : Z) (tr : t) : t :=
  mk (id tr) (title tr) (artist tr) (description tr) (duration tr)
     (category tr) (addedDate tr) (fileUrl tr) (fileSize tr) (fileType tr)
     (coverImage tr) (coverColor tr) (plays tr) n.

Definition set_plays (n : Z) (tr : t) : t :=
  mk (id tr) (title tr) (artist tr) (description tr) (duration tr)
     (category tr) (addedDate tr) (fileUrl tr) (fileSize tr) (fileType tr)
     (coverImage tr) (coverColor tr) n (likes tr).

Definition set_addedDate (d : Model.DateValue) (tr : t) : t :=
  mk (id tr) (title tr) (artist tr) (description tr) (duration tr)
     (category tr) d (fileUrl tr) (fileSize tr) (fileType tr)
     (coverImage tr) (coverColor tr) (plays tr) (likes tr).

(** The record as it reads after [JSON.parse (JSON.stringify tr)]: the date
    becomes its ISO string, every other field is a string or a finite number
    and is reproduced; absent optional fields stay absent. *)
Definition toJSON (tr : t) : t :=
  set_addedDate (Model.toJSON (addedDate tr)) tr.

End Track.

Module Playlist.

Record t : Type := mk {
  id : string;
  name : string;
  description : option string;
  tracks : list Track.t;
  coverImage : option string;
  createdDate : Model.DateValue;
  isPublic : bool
}.

Definition toJSON (p : t) : t :=
  mk (id p) (name p) (description p) (map Track.toJSON (tracks p))
     (coverImage p) (Model.toJSON (createdDate p)) (isPublic p).

End Playlist.

(** ** JavaScript array primitives used by the services *)

Module Js.

Section Arrays.
Context {A : Type}.

(** [arr[i]] for a number [i]: [undefined] outside of the array. *)
Definition at_index (arr : list A) (i : Z) : option A :=
  if i <? 0 then None else arr !! Z.to_nat i.

(** [arr.findIndex(p)]: the first position that satisfies [p], or -1. *)
Fixpoint findIndex (p : A -> bool) (arr : list A) : Z :=
  match arr with
  | [] => -1
  | x :: rest =>
      if p x then 0
      else let k := findIndex p rest in
           if k =? -1 then -1 else k + 1
  end.

(** Relative index of [Array.prototype.slice]: a negative bound counts
    from the end, and both bounds are clamped to the array. *)
Definition relative (len k : Z) : Z :=
  if k <? 0 then Z.max (len + k) 0 else Z.min k len.

(** [arr.slice(from, to)] *)
Definition slice (arr : list A) (from to : Z) : list A :=
  let len := Z.of_nat (length arr) in
  let k := relative len from in
  let final := relative len to in
  take (Z.to_nat (final - k)) (drop (Z.to_nat k) arr).

(** [arr.slice(from)] *)
Definition slice_from (arr : list A) (from : Z) : list A :=
  slice arr from (Z.of_nat (length arr)).

(** [arr.filter((_, i) => i !== index)] *)
Fixpoint filter_index_ne (index : Z) (i : Z) (arr : list A) : list A :=
  match arr with
  | [] => []
  | x :: rest =>
      if i =? index then filter_index_ne index (i + 1) rest
      else x :: filter_index_ne index (i + 1) rest
  end.

(** [[arr[i], arr[j]] = [arr[j], arr[i]]]: both reads happen first, then
    [arr[i]] and [arr[j]] are written in that order.  The shuffle only
    swaps positions inside the array; outside of it the model leaves the
    array alone. *)
Definition swap (i j : nat) (arr : list A) : list A :=
  match arr !! i, arr !! j with
  | Some x, Some y => <[j := x]> (<[i := y]> arr)
  | _, _ => arr
  end.

End Arrays.

(** [x || 0] on a number *)
Definition or_zero (x : Z) : Z := if x =? 0 then 0 else x.

(** The number nearest to an integer.  A number holds every integer up to
    2^53 in magnitude; beyond, it keeps 53 significant bits, so it holds the
    multiples of the power of two [2 ^ e] that leaves 53 bits, and an integer
    in between goes to the nearest multiple, to the even one when it lies
    half way. *)
Definition nearest (z : Z) : Z :=
  let a := Z.abs z in
  if a <=? 2 ^ 53 then z
  else
    let e := Z.log2 a - 52 in
    let q := a / 2 ^ e in
    let r := a mod 2 ^ e in
    let half := 2 ^ (e - 1) in
    let rounded :=
      if r <? half then q
      else if half <? r then q + 1
      else if Z.even q then q else q + 1 in
    Z.sgn z * (rounded * 2 ^ e).

(** [x + y] on two numbers that hold integers *)
Definition plus (x y : Z) : Z := nearest (x + y).

(** [a > b] on finite numbers *)
Definition Qgtb (a b : Q) : bool := negb (Qle_bool a b).

End Js.


(** ** Playback engine (AudioPlayerService) *)

Module Audio.

(** The part of the [HTMLAudioElement] that the service reads or writes:
    [src], [duration] ([None] is [NaN], its value while no metadata is
    loaded) and [currentTime]. *)
Record t : Type := mk {
  src : string;
  duration : option Q;
  currentTime : Q
}.

Definition initial : t := mk "" None 0%Q.

(** [audio.src = url; audio.load()]: the element is reset and waits for the
    metadata of the new resource. *)
Definition load (url : string) (a : t) : t := mk url None 0%Q.

Definition set_currentTime (time : Q) (a : t) : t :=
  mk (src a) (duration a) time.

(** Truthiness of [audio.duration]: neither [NaN] nor 0. *)
Definition hasDuration (a : t) : bool :=
  match duration a with
  | Some d => negb (Qeq_bool d 0)
  | None => false
  end.

End Audio.

Module Player.

Import Model.

(** Settlement of the promise returned by [audioElement.play()]. *)
Inductive PlayOutcome : Type := PlayResolved | PlayRejected.

(** The signals of the service, under the names they have in the source,
    and the audio element.  [durationCache] is the memoised value of the
    computed signal [duration]: it reads no signal, so it is evaluated on its
    first read and keeps that value.  [volumeSignal] and [isMutedSignal] are
    left out: no operation below reads or writes them. *)
Record State : Type := mkState {
  audioElement : Audio.t;
  currentTrackSignal : option Track.t;
  statusSignal : PlayerStatus;
  currentTimeSignal : Q;
  queueSignal : list Track.t;
  currentIndexSignal : Z;
  isShuffledSignal : bool;
  isRepeatingSignal : bool;
  originalQueueSignal : list Track.t;
  errorSignal : string;
  isLoadingSignal : bool;
  durationCache : option Q
}.

Definition initial : State :=
  mkState Audio.initial None stopped 0%Q [] (-1) false false [] "" false None.

Definition set_audioElement (a : Audio.t) (s : State) : State :=
  mkState a (currentTrackSignal s) (statusSignal s) (currentTimeSignal s)
    (queueSignal s) (currentIndexSignal s) (isShuffledSignal s)
    (isRepeatingSignal s) (originalQueueSignal s) (errorSignal s)
    (isLoadingSignal s) (durationCache s).

Definition set_currentTrack (t : option Track.t) (s : State) : State :=
  mkState (audioElement s) t (statusSignal s) (currentTimeSignal s)
    (queueSignal s) (currentIndexSignal s) (isShuffledSignal s)
    (isRepeatingSignal s) (originalQueueSignal s) (errorSignal s)
    (isLoadingSignal s) (durationCache s).

Definition set_status (v : PlayerStatus) (s : State) : State :=
  mkState (audioElement s) (currentTrackSignal s) v (currentTimeSignal s)
    (queueSignal s) (currentIndexSignal s) (isShuffledSignal s)
    (isRepeatingSignal s) (originalQueueSignal s) (errorSignal s)
    (isLoadingSignal s) (durationCache s).

Definition set_currentTime (v : Q) (s : State) : State :=
  mkState (audioElement s) (currentTrackSignal s) (statusSignal s) v
    (queueSignal s) (currentIndexSignal s) (isShuffledSignal s)
    (isRepeatingSignal s) (originalQueueSignal s) (errorSignal s)
    (isLoadingSignal s) (durationCache s).

Definition set_queue (q : list Track.t) (s : State) : State :=
  mkState (audioElement s) (currentTrackSignal s) (statusSignal s)
    (currentTimeSignal s) q (currentIndexSignal s) (isShuffledSignal s)
    (isRepeatingSignal s) (originalQueueSignal s) (errorSignal s)
    (isLoadingSignal s) (durationCache s).

Definition set_currentIndex (i : Z) (s : State) : State :=
  mkState (audioElement s) (currentTrackSignal s) (statusSignal s)
    (currentTimeSignal s) (queueSignal s) i (isShuffledSignal s)
    (isRepeatingSignal s) (originalQueueSignal s) (errorSignal s)
    (isLoadingSignal s) (durationCache s).

Definition set_isShuffled (b : bool) (s : State) : State :=
  mkState (audioElement s) (currentTrackSignal s) (statusSignal s)
    (currentTimeSignal s) (queueSignal s) (currentIndexSignal s) b
    (isRepeatingSignal s) (originalQueueSignal s) (errorSignal s)
    (isLoadingSignal s) (durationCache s).

Definition set_isRepeating (b : bool) (s : State) : State :=
  mkState (audioElement s) (currentTrackSignal s) (statusSignal s)
    (currentTimeSignal s) (queueSignal s) (currentIndexSignal s)
    (isShuffledSignal s) b (originalQueueSignal s) (errorSignal s)
    (isLoadingSignal s) (durationCache s).

Definition set_originalQueue (q : list Track.t) (s : State) : State :=
  mkState (audioElement s) (currentTrackSignal s) (statusSignal s)
    (currentTimeSignal s) (queueSignal s) (currentIndexSignal s)
    (isShuffledSignal s) (isRepeatingSignal s) q (errorSignal s)
    (isLoadingSignal s) (durationCache s).

Definition set_error (e : string) (s : State) : State :=
  mkState (audioElement s) (currentTrackSignal s) (statusSignal s)
    (currentTimeSignal s) (queueSignal s) (currentIndexSignal s)
    (isShuffledSignal s) (isRepeatingSignal s) (originalQueueSignal s) e
    (isLoadingSignal s) (durationCache s).

Definition set_isLoading (b : bool) (s : State) : State :=
  mkState (audioElement s) (currentTrackSignal s) (statusSignal s)
    (currentTimeSignal s) (queueSignal s) (currentIndexSignal s)
    (isShuffledSignal s) (isRepeatingSignal s) (originalQueueSignal s)
    (errorSignal s) b (durationCache s).

Definition set_durationCache (d : option Q) (s : State) : State :=
  mkState (audioElement s) (currentTrackSignal s) (statusSignal s)
    (currentTimeSignal s) (queueSignal s) (currentIndexSignal s)
    (isShuffledSignal s) (isRepeatingSignal s) (originalQueueSignal s)
    (errorSignal s) (isLoadingSignal s) d.

(** [t => t.id === track.id] *)
Definition sameId (track : Track.t) (t : Track.t) : bool :=
  String.eqb (Track.id t) (Track.id track).

(** [duration = computed(() => this.audioElement?.duration || 0)]: the value
    read, and the state with the cache filled. *)
Definition duration (s : State) : Q * State :=
  match durationCache s with
  | Some d => (d, s)
  | None =>
      let d := match Audio.duration (audioElement s) with
               | Some x => if Qeq_bool x 0 then 0%Q else x
               | None => 0%Q
               end in
      (d, set_durationCache (Some d) s)
  end.

(** [hasNext] *)
Definition hasNext (s : State) : bool :=
  if isRepeatingSignal s then true
  else currentIndexSignal s <? Z.of_nat (length (queueSignal s)) - 1.

(** [hasPrevious] *)
Definition hasPrevious (s : State) : bool :=
  (0 <? currentIndexSignal s) || Js.Qgtb (currentTimeSignal s) 3.

(** [play()], called without a track.  With a current track the device is
    asked to play; [o] tells how that request settles. *)
Definition play (o : PlayOutcome) (s : State) : State :=
  match currentTrackSignal s with
  | Some _ =>
      match o with
      | PlayResolved => set_status playing s
      | PlayRejected =>
          set_status stopped (set_error "Impossible de lire la piste" s)
      end
  | None => s
  end.

(** [stop()].  [audioElement.pause()] changes nothing that the service
    reads. *)
Definition stop (s : State) : State :=
  let s := set_audioElement (Audio.set_currentTime 0 (audioElement s)) s in
  let s := set_status stopped s in
  set_currentTime 0 s.

(** [seek(time)] *)
Definition seek (time : Q) (s : State) : State :=
  if Audio.hasDuration (audioElement s) then
    let (d, s) := duration s in
    let safeTime := Qmax 0 (Qmin time d) in
    let s := set_audioElement (Audio.set_currentTime safeTime (audioElement s)) s in
    set_currentTime safeTime s
  else s.

(** [loadTrack(track)], up to its first [await].  The argument is [None] when
    the caller passes an array slot that does not exist: reading
    [track.fileUrl] then throws inside the [try], and the [catch] and
    [finally] blocks run before the method returns.  What follows the
    [await] ([isLoading] back to false and, on a device error, the error
    message and the status [stopped]) comes with a later event of the
    device; no caller below waits for it. *)
Definition loadTrack (track : option Track.t) (s : State) : State :=
  let s := set_status loading s in
  let s := set_error "" s in
  let s := set_isLoading true s in
  match track with
  | Some tr =>
      let s := set_currentTrack (Some tr) s in
      let s := set_audioElement (Audio.load (Track.fileUrl tr) (audioElement s)) s in
      let index := Js.findIndex (sameId tr) (queueSignal s) in
      if index =? -1 then s else set_currentIndex index s
  | None =>
      let s := set_currentTrack None s in
      let s := set_error "Impossible de charger la piste" s in
      let s := set_status stopped s in
      set_isLoading false s
  end.

(** [next()] *)
Definition next (o : PlayOutcome) (s : State) : State :=
  let currentIndex := currentIndexSignal s in
  let queue := queueSignal s in
  if currentIndex <? Z.of_nat (length queue) - 1 then
    let nextTrack := Js.at_index queue (currentIndex + 1) in
    let s := loadTrack nextTrack s in
    let s := set_currentIndex (currentIndex + 1) s in
    play o s
  else if isRepeatingSignal s then
    let s := loadTrack (Js.at_index queue 0) s in
    let s := set_currentIndex 0 s in
    play o s
  else s.

(** [previous()] *)
Definition previous (o : PlayOutcome) (s : State) : State :=
  let currentIndex := currentIndexSignal s in
  let queue := queueSignal s in
  let currentTime := currentTimeSignal s in
  if Js.Qgtb currentTime 3 then seek 0 s
  else if 0 <? currentIndex then
    let prevTrack := Js.at_index queue (currentIndex - 1) in
    let s := loadTrack prevTrack s in
    let s := set_currentIndex (currentIndex - 1) s in
    play o s
  else s.

(** [handleTrackEnd()], the listener of the device's [ended] event. *)
Definition handleTrackEnd (o : PlayOutcome) (s : State) : State :=
  if isRepeatingSignal s then play o (seek 0 s)
  else if hasNext s then next o s
  else stop s.

(** The Fisher-Yates loop of [shuffleQueue]:
    [for (let i = shuffled.length - 1; i > 0; i--)].  [random i] stands for
    the draw made at loop index [i]; [Math.floor(Math.random() * (i + 1))] is
    an integer between 0 and [i], obtained here as [random i mod (i + 1)]. *)
Fixpoint shuffleLoop (random : nat -> nat) (i : nat) (shuffled : list Track.t)
  : list Track.t :=
  match i with
  | O => shuffled
  | S i' =>
      let j := (random i mod (i + 1))%nat in
      shuffleLoop random i' (Js.swap i j shuffled)
  end.

(** [shuffleQueue(tracks)] *)
Definition shuffleQueue (random : nat -> nat) (tracks : list Track.t) (s : State)
  : State :=
  let shuffled := shuffleLoop random (length tracks - 1)%nat tracks in
  let s := set_queue shuffled s in
  match currentTrackSignal s with
  | Some currentTrack =>
      let index := Js.findIndex (sameId currentTrack) shuffled in
      if index =? -1 then s else set_currentIndex index s
  | None => s
  end.

(** [setQueue(tracks, startIndex)] *)
Definition setQueue (random : nat -> nat) (tracks : list Track.t)
  (startIndex : Z) (s : State) : State :=
  let s := set_originalQueue tracks s in
  let s := if isShuffledSignal s then shuffleQueue random tracks s
           else set_queue tracks s in
  if (0 <? Z.of_nat (length tracks)) && (startIndex <? Z.of_nat (length tracks))
  then
    let track := Js.at_index tracks startIndex in
    let s := loadTrack track s in
    set_currentIndex startIndex s
  else s.

(** [addToQueue(track, playNext)] *)
Definition addToQueue (track : Track.t) (playNext : bool) (s : State) : State :=
  let currentQueue := queueSignal s in
  let currentIndex := currentIndexSignal s in
  let s :=
    if playNext then
      let newQueue :=
        Js.slice currentQueue 0 (currentIndex + 1)
          ++ track :: Js.slice_from currentQueue (currentIndex + 1) in
      set_queue newQueue s
    else set_queue (queueSignal s ++ [track]) s in
  set_originalQueue (originalQueueSignal s ++ [track]) s.

(** [removeFromQueue(index)] *)
Definition removeFromQueue (index : Z) (s : State) : State :=
  if (0 <=? index) && (index <? Z.of_nat (length (queueSignal s))) then
    let newQueue := Js.filter_index_ne index 0 (queueSignal s) in
    let s := set_queue newQueue s in
    if index <=? currentIndexSignal s
    then set_currentIndex (Z.max 0 (currentIndexSignal s - 1)) s
    else s
  else s.

(** [clearQueue()] *)
Definition clearQueue (s : State) : State :=
  let s := set_queue [] s in
  let s := set_originalQueue [] s in
  let s := stop s in
  let s := set_currentTrack None s in
  set_currentIndex (-1) s.

(** [toggleShuffle()] *)
Definition toggleShuffle (random : nat -> nat) (s : State) : State :=
  let willShuffle := negb (isShuffledSignal s) in
  let s := set_isShuffled willShuffle s in
  if willShuffle then shuffleQueue random (queueSignal s) s
  else
    let s := set_queue (originalQueueSignal s) s in
    match currentTrackSignal s with
    | Some currentTrack =>
        let index := Js.findIndex (sameId currentTrack) (originalQueueSignal s) in
        if index =? -1 then s else set_currentIndex index s
    | None => s
    end.

(** [toggleRepeat()] *)
Definition toggleRepeat (s : State) : State :=
  set_isRepeating (negb (isRepeatingSignal s)) s.

(** Calls of the queue-editing methods, and their effect in sequence. *)
Inductive QueueCall : Type :=
| SetQueue (random : nat -> nat) (tracks : list Track.t) (startIndex : Z)
| AddToQueue (track : Track.t) (playNext : bool)
| RemoveFromQueue (index : Z).

Definition call (c : QueueCall) (s : State) : State :=
  match c with
  | SetQueue random tracks startIndex => setQueue random tracks startIndex s
  | AddToQueue track playNext => addToQueue track playNext s
  | RemoveFromQueue index => removeFromQueue index s
  end.

Definition run (calls : list QueueCall) (s : State) : State :=
  fold_left (fun s c => call c s) calls s.

(** The queue invariant of the specification: the index is -1 exactly when
    the queue is empty, and a position of the queue otherwise. *)
Definition queueInvariant (s : State) : Prop :=
  (currentIndexSignal s = -1 <-> length (queueSignal s) = 0%nat) /\
  (currentIndexSignal s <> -1 ->
   0 <= currentIndexSignal s < Z.of_nat (length (queueSignal s))).

(** The index is a position of the queue. *)
Definition indexInQueue (s : State) : Prop :=
  0 <= currentIndexSignal s < Z.of_nat (length (queueSignal s)).

(** Calls under which the index stays a position of the queue: a queue is
    set with a start index inside it, a track is added once there is a
    queue, and a removal leaves at least one track. *)
Definition keepsIndex (c : QueueCall) (s : State) : Prop :=
  match c with
  | SetQueue _ tracks startIndex =>
      0 <= startIndex < Z.of_nat (length tracks)
  | AddToQueue _ _ => queueSignal s <> []
  | RemoveFromQueue index =>
      0 <= index < Z.of_nat (length (queueSignal s)) ->
      (2 <= length (queueSignal s))%nat
  end.

Fixpoint keepIndex (calls : list QueueCall) (s : State) : Prop :=
  match calls with
  | [] => True
  | c :: rest => keepsIndex c s /\ keepIndex rest (call c s)
  end.

(** The states that the guarded calls move between: the initial shape (no
    queue, index -1) or an index that is a position of the queue. *)
Definition steady (s : State) : Prop :=
  (queueSignal s = [] /\ currentIndexSignal s = -1) \/ indexInQueue s.

(** [pause()] *)
Definition pause (s : State) : State := set_status paused s.

(** [togglePlay()] *)
Definition togglePlay (o : PlayOutcome) (s : State) : State :=
  match statusSignal s with
  | playing => pause s
  | _ => play o s
  end.

(** [seekPercentage(percentage)].  The quotient and the product are taken
    exactly; the source rounds each of them to a number, which keeps the
    order of the results and leaves 0, 1 and the duration as they are. *)
Definition seekPercentage (percentage : Q) (s : State) : State :=
  let (d, s) := duration s in
  seek ((percentage / 100) * d)%Q s.

(** The volume signals, which the methods above leave alone. *)
Record Volume : Type := mkVolume {
  volumeSignal : Q;
  isMutedSignal : bool
}.

(** [setVolume(volume)] *)
Definition setVolume (volume : Q) (v : Volume) : Volume :=
  let clampedVolume := Qmax 0 (Qmin 1 volume) in
  mkVolume clampedVolume (isMutedSignal v).

(** [toggleMute()] *)
Definition toggleMute (v : Volume) : Volume :=
  mkVolume (volumeSignal v) (negb (isMutedSignal v)).

(** [increaseVolume(amount)] *)
Definition increaseVolume (amount : Q) (v : Volume) : Volume :=
  let newVolume := Qmin 1 (volumeSignal v + amount) in
  mkVolume newVolume (isMutedSignal v).

(** [decreaseVolume(amount)] *)
Definition decreaseVolume (amount : Q) (v : Volume) : Volume :=
  let newVolume := Qmax 0 (volumeSignal v - amount) in
  mkVolume newVolume (isMutedSignal v).

Definition volumeInRange (v : Volume) : Prop :=
  (0 <= volumeSignal v <= 1)%Q.

(** The current index is a position of the queue and the track there is the
    current track. *)
Definition onCurrent (s : State) : Prop :=
  exists t, currentTrackSignal s = Some t
            /\ Js.at_index (queueSignal s) (currentIndexSignal s) = Some t.

(** Calls that edit the queue without taking a track out of it. *)
Inductive GrowCall : Type :=
| GrowSetQueue (random : nat -> nat) (tracks : list Track.t) (startIndex : Z)
| GrowAddToQueue (track : Track.t) (playNext : bool)
| GrowToggleShuffle (random : nat -> nat).

Definition grow (c : GrowCall) (s : State) : State :=
  match c with
  | GrowSetQueue random tracks startIndex => setQueue random tracks startIndex s
  | GrowAddToQueue track playNext => addToQueue track playNext s
  | GrowToggleShuffle random => toggleShuffle random s
  end.

Definition growAll (calls : list GrowCall) (s : State) : State :=
  fold_left (fun s c => grow c s) calls s.

(** How the wait of [loadTrack] ends: with the [canplay] event of the device
    (or the timeout of ten seconds), or with its [error] event. *)
Inductive LoadOutcome : Type := LoadResolved | LoadRejected.

(** [play(track)].  With a track, [loadTrack] is awaited first: when it
    rejects, its own [catch] and [finally] blocks run and then the [catch]
    block of [play]; when it resolves, its [finally] block runs and the
    device is asked to play. *)
Definition play_track (l : LoadOutcome) (o : PlayOutcome)
  (track : option Track.t) (s : State) : State :=
  match track with
  | Some tr =>
      let s := loadTrack (Some tr) s in
      match l with
      | LoadRejected =>
          let s := set_error "Impossible de charger la piste" s in
          let s := set_status stopped s in
          let s := set_isLoading false s in
          let s := set_error "Impossible de lire la piste" s in
          set_status stopped s
      | LoadResolved =>
          let s := set_isLoading false s in
          play o s
      end
  | None => play o s
  end.

(** The document that [saveState] writes under the key
    ['music-stream-player-state'], as [JSON.parse] reads it back.  A member
    is [None] when the document does not have it; [currentTrack] is [None]
    also when the member is [null]. *)
Module Saved.
Record t : Type := mk {
  currentTrack : option Track.t;
  status : option PlayerStatus;
  currentTime : option Q;
  volume : option Q;
  isMuted : option bool;
  isShuffled : option bool;
  isRepeating : option bool;
  queue : option (list Track.t);
  currentIndex : option Z
}.
End Saved.

(** What [localStorage.getItem] and [JSON.parse] give to [restoreState]: no
    item (or an empty one), a text that [JSON.parse] refuses, or a
    document. *)
Inductive Item : Type :=
| NoItem
| Unreadable
| Document (state : Saved.t).

(** [saveState()]: the item written to [localStorage]. *)
Definition saveState (v : Volume) (s : State) : Item :=
  Document
    (Saved.mk (option_map Track.toJSON (currentTrackSignal s))
       (Some (statusSignal s))
       (Some (currentTimeSignal s))
       (Some (volumeSignal v))
       (Some (isMutedSignal v))
       (Some (isShuffledSignal s))
       (Some (isRepeatingSignal s))
       (Some (map Track.toJSON (queueSignal s)))
       (Some (currentIndexSignal s))).

(** [restoreState()].  [loadTrack] and [play] are called without [await]. *)
Definition restoreState (o : PlayOutcome) (saved : Item) (vs : Volume * State)
  : Volume * State :=
  match saved with
  | Document state =>
      let (v, s) := vs in
      let v := match Saved.volume state with
               | Some volume => mkVolume volume (isMutedSignal v)
               | None => v
               end in
      let v := match Saved.isMuted state with
               | Some isMuted => mkVolume (volumeSignal v) isMuted
               | None => v
               end in
      let s := match Saved.isShuffled state with
               | Some isShuffled => set_isShuffled isShuffled s
               | None => s
               end in
      let s := match Saved.isRepeating state with
               | Some isRepeating => set_isRepeating isRepeating s
               | None => s
               end in
      let s := match Saved.queue state with
               | Some queue => set_queue queue s
               | None => s
               end in
      let s := match Saved.currentIndex state with
               | Some currentIndex => set_currentIndex currentIndex s
               | None => s
               end in
      match Saved.currentTrack state, Saved.queue state,
            Saved.currentIndex state with
      | Some currentTrack, Some _, Some _ =>
          let s := loadTrack (Some currentTrack) s in
          let s := match Saved.status state with
                   | Some playing => play o s
                   | _ => s
                   end in
          let s := match Saved.currentTime state with
                   | Some currentTime =>
                       if Qeq_bool currentTime 0 then s else seek currentTime s
                   | None => s
                   end in
          (v, s)
      | _, _, _ => (v, s)
      end
  | _ => vs
  end.

End Player.


(** ** Persistence store (StorageService) *)

Module Storage.

(** Requests sent to the IndexedDB object stores. *)
Inductive Request : Type :=
| PutTrack (track : Track.t)
| GetTrack (id : string)
| GetAllTracks
| DeleteTrack (id : string)
| PutPlaylist (playlist : Playlist.t)
| GetAllPlaylists.

(** The database as seen from the service: for every request, [None] when
    its [onsuccess] handler fires, or the error with which its [onerror]
    handler fires (device unavailable, write rejected, quota exceeded). *)
Definition Backend : Type := Request -> option string.

(** The two object stores, keyed by the [id] of the record ([keyPath: 'id']),
    and the [storageError] signal.  The database is taken as open, so
    [waitForDB] has nothing to do; the [storageUsage] metric, recomputed
    after a write, is left out. *)
Record State : Type := mkState {
  tracksStore : gmap string Track.t;
  playlistsStore : gmap string Playlist.t;
  storageError : option string
}.

Definition empty : State := mkState ∅ ∅ None.

Definition set_tracksStore (m : gmap string Track.t) (s : State) : State :=
  mkState m (playlistsStore s) (storageError s).

Definition set_playlistsStore (m : gmap string Playlist.t) (s : State) : State :=
  mkState (tracksStore s) m (storageError s).

Definition set_storageError (e : string) (s : State) : State :=
  mkState (tracksStore s) (playlistsStore s) (Some e).

(** A settled promise. *)
Inductive Settled (A : Type) : Type :=
| Fulfilled (value : A)
| Rejected (reason : string).
Arguments Fulfilled {A} value.
Arguments Rejected {A} reason.

(** An [async] method of the service: it runs on the state of the store and
    settles.  [bind] is [await]: a rejection leaves the rest of the method
    out and becomes the rejection of the caller. *)
Definition Async (A : Type) : Type := State -> State * Settled A.

Definition ret {A : Type} (a : A) : Async A := fun s => (s, Fulfilled a).

Definition bind {A B : Type} (m : Async A) (k : A -> Async B) : Async B :=
  fun s =>
    match m s with
    | (s', Fulfilled a) => k a s'
    | (s', Rejected e) => (s', Rejected e)
    end.

Notation "'await' x <- m ; k" := (bind m (fun x => k))
  (at level 10, x name, m at level 100, k at level 200).
Notation "'await_' m ; k" := (bind m (fun _ => k))
  (at level 10, m at level 100, k at level 200).

(** One request: on success [onsuccess s] gives the new store and the value,
    on error the [storageError] signal is set and the promise rejects. *)
Definition request {A : Type} (db : Backend) (r : Request) (message : string)
  (onsuccess : State -> State * A) : Async A :=
  fun s =>
    match db r with
    | None => let (s', a) := onsuccess s in (s', Fulfilled a)
    | Some e => (set_storageError message s, Rejected e)
    end.

(** [for (const x of xs) { await body(x); }] *)
Fixpoint forEach {A : Type} (body : A -> Async string) (xs : list A) : Async unit :=
  match xs with
  | [] => ret tt
  | x :: rest => await_ body x; forEach body rest
  end.

(** [saveTrack(track)] *)
Definition saveTrack (db : Backend) (track : Track.t) : Async string :=
  request db (PutTrack track) "Erreur lors de la sauvegarde de la piste"
    (fun s => (set_tracksStore (<[Track.id track := track]> (tracksStore s)) s,
               Track.id track)).

(** [getTrack(id)] *)
Definition getTrack (db : Backend) (id : string) : Async (option Track.t) :=
  request db (GetTrack id) "Erreur lors de la récupération de la piste"
    (fun s => (s, tracksStore s !! id)).

(** [getAllTracks()].  The object store answers with its records in the
    order of their keys; here they come in the order in which the map
    enumerates them, and what is stated of the answer does not depend on its
    order. *)
Definition getAllTracks (db : Backend) : Async (list Track.t) :=
  request db GetAllTracks "Erreur lors de la récupération des pistes"
    (fun s => (s, (map_to_list (tracksStore s)).*2)).

(** [deleteTrack(id)].  Deleting a key that the object store does not hold
    succeeds like any other delete. *)
Definition deleteTrack (db : Backend) (id : string) : Async unit :=
  request db (DeleteTrack id) "Erreur lors de la suppression de la piste"
    (fun s => (set_tracksStore (delete id (tracksStore s)) s, tt)).

(** [incrementTrackPlays(id)] *)
Definition incrementTrackPlays (db : Backend) (id : string) : Async unit :=
  await track <- getTrack db id;
  match track with
  | Some track =>
      let track :=
        Track.set_plays (Js.plus (Js.or_zero (Track.plays track)) 1) track in
      await_ saveTrack db track; ret tt
  | None => ret tt
  end.

(** [toggleTrackLike(id)] *)
Definition toggleTrackLike (db : Backend) (id : string) : Async Z :=
  await track <- getTrack db id;
  match track with
  | Some track =>
      let track :=
        Track.set_likes (Js.plus (Js.or_zero (Track.likes track)) 1) track in
      await_ saveTrack db track; ret (Track.likes track)
  | None => ret 0
  end.

(** [savePlaylist(playlist)] *)
Definition savePlaylist (db : Backend) (playlist : Playlist.t) : Async string :=
  request db (PutPlaylist playlist) "Erreur lors de la sauvegarde de la playlist"
    (fun s => (set_playlistsStore
                 (<[Playlist.id playlist := playlist]> (playlistsStore s)) s,
               Playlist.id playlist)).

(** [getAllPlaylists()] *)
Definition getAllPlaylists (db : Backend) : Async (list Playlist.t) :=
  request db GetAllPlaylists "Erreur lors de la récupération des playlists"
    (fun s => (s, (map_to_list (playlistsStore s)).*2)).

(** The JSON document of an export, as [JSON.parse] returns it.  [tracks] and
    [playlists] are [None] when the document has no such member. *)
Record Snapshot : Type := mkSnapshot {
  tracks : option (list Track.t);
  playlists : option (list Playlist.t);
  exportDate : Model.DateValue;
  version : string
}.

(** [exportData()], with [now] the value of [new Date()].  The blob holds
    [JSON.stringify(data, null, 2)]; it is represented by the document that
    the text denotes. *)
Definition exportData (db : Backend) (now : Z) : Async Snapshot :=
  await tracks <- getAllTracks db;
  await playlists <- getAllPlaylists db;
  ret (mkSnapshot (Some (map Track.toJSON tracks))
                  (Some (map Playlist.toJSON playlists))
                  (Model.toJSON (Model.DateObject now))
                  "1.0").

(** [importData(file)], with [data] the document read from the file. *)
Definition importData (db : Backend) (data : Snapshot) : Async unit :=
  await_
    match tracks data with
    | Some ts => forEach (saveTrack db) ts
    | None => ret tt
    end;
  match playlists data with
  | Some ps => forEach (savePlaylist db) ps
  | None => ret tt
  end.

(** A database that serves every request. *)
Definition healthy : Backend := fun _ => None.

(** Every record of the store sits under its own [id], as [put] files it. *)
Definition keyedById (s : State) : Prop :=
  (forall k t, tracksStore s !! k = Some t -> Track.id t = k) /\
  (forall k p, playlistsStore s !! k = Some p -> Playlist.id p = k).

(** The object stores after the [put] of each record of a list, in order. *)
Definition withTracks (ts : list Track.t) (m : gmap string Track.t)
  : gmap string Track.t :=
  fold_left (fun m t => <[Track.id t := t]> m) ts m.

Definition withPlaylists (ps : list Playlist.t) (m : gmap string Playlist.t)
  : gmap string Playlist.t :=
  fold_left (fun m p => <[Playlist.id p := p]> m) ps m.

End Storage.


(** ** [Array.prototype.sort] *)

Module Engine.

(** [sort] belongs to the JavaScript engine, not to the application.
    ECMAScript fixes its result only for a consistent comparator (one with
    [comparefn(a, a) = 0], among other laws); for any other comparator the
    order is left to the engine.  The library index therefore takes the
    engine's sort as a parameter of this type. *)
Definition Sort : Type :=
  (Track.t -> Track.t -> Z) -> list Track.t -> list Track.t.

Section BinaryInsertion.
Context {A : Type}.
Variable comparefn : A -> A -> Z.

(** Binary search of the place of [pivot] in the sorted prefix [arr]:
    [order = comparefn(pivot, arr[mid])]; [order < 0] continues to the left of
    [mid], any other order to its right. *)
Fixpoint insertionPoint (pivot : A) (arr : list A) (left right fuel : nat) : nat :=
  match fuel with
  | O => left
  | S fuel' =>
      if (left <? right)%nat then
        let mid := (left + (right - left) / 2)%nat in
        match arr !! mid with
        | Some x =>
            if comparefn pivot x <? 0
            then insertionPoint pivot arr left mid fuel'
            else insertionPoint pivot arr (mid + 1)%nat right fuel'
        | None => left
        end
      else left
  end.

Definition insertPivot (sorted : list A) (pivot : A) : list A :=
  let k := insertionPoint pivot sorted 0 (length sorted) (S (length sorted)) in
  take k sorted ++ pivot :: drop k sorted.

(** Binary insertion sort, with which V8 sorts short arrays: the elements
    are taken from left to right and each is placed into the sorted prefix
    before it.  The comparator is called with the later element first. *)
Definition binaryInsertionSort (arr : list A) : list A :=
  fold_left insertPivot arr [].

End BinaryInsertion.

(** A list is ordered by [le] when every entry is [le] every later entry. *)
Definition ordered {A : Type} (le : A -> A -> Prop) (l : list A) : Prop :=
  forall (i j : nat) (x y : A),
    (i < j)%nat -> l !! i = Some x -> l !! j = Some y -> le x y.

End Engine.

(** ** Library index (TrackService) *)

Module Library.

Import Model.

Inductive LoadingState : Type := idle | loading | success | error.

Record State : Type := mkState {
  storageService : Storage.State;
  tracksSignal : list Track.t;
  loadingState : LoadingState;
  errorMessage : string;
  currentFilter : string;
  sortBySignal : SortBy;
  sortOrderSignal : SortOrder
}.

Definition set_storageService (st : Storage.State) (s : State) : State :=
  mkState st (tracksSignal s) (loadingState s) (errorMessage s)
    (currentFilter s) (sortBySignal s) (sortOrderSignal s).

Definition set_tracks (ts : list Track.t) (s : State) : State :=
  mkState (storageService s) ts (loadingState s) (errorMessage s)
    (currentFilter s) (sortBySignal s) (sortOrderSignal s).

Definition set_loadingState (l : LoadingState) (s : State) : State :=
  mkState (storageService s) (tracksSignal s) l (errorMessage s)
    (currentFilter s) (sortBySignal s) (sortOrderSignal s).

Definition set_errorMessage (e : string) (s : State) : State :=
  mkState (storageService s) (tracksSignal s) (loadingState s) e
    (currentFilter s) (sortBySignal s) (sortOrderSignal s).

(** [setFilter(category)] *)
Definition setFilter (category : string) (s : State) : State :=
  mkState (storageService s) (tracksSignal s) (loadingState s) (errorMessage s)
    category (sortBySignal s) (sortOrderSignal s).

(** [setSort(sortBy, sortOrder)] *)
Definition setSort (sortBy : SortBy) (sortOrder : SortOrder) (s : State) : State :=
  mkState (storageService s) (tracksSignal s) (loadingState s) (errorMessage s)
    (currentFilter s) sortBy sortOrder.

(** [String.prototype.toLowerCase], on the ASCII letters. *)
Definition lowerAscii (c : ascii) : ascii :=
  let n := nat_of_ascii c in
  if ((65 <=? n) && (n <=? 90))%nat then ascii_of_nat (n + 32) else c.

Fixpoint toLowerCase (s : string) : string :=
  match s with
  | EmptyString => EmptyString
  | String c rest => String (lowerAscii c) (toLowerCase rest)
  end.

(** The value that the comparator of [tracks] reads for a sort key:
    a string for [TITLE] and [ARTIST], a number for the others. *)
Inductive SortValue : Type :=
| Text (s : string)
| Number (q : Q).

Definition sortValue (sortBy : SortBy) (t : Track.t) : SortValue :=
  match sortBy with
  | TITLE => Text (toLowerCase (Track.title t))
  | ARTIST => Text (toLowerCase (Track.artist t))
  | DATE => Number (inject_Z (getTime (Track.addedDate t)))
  | DURATION => Number (Track.duration t)
  | PLAYS => Number (inject_Z (Js.or_zero (Track.plays t)))
  | LIKES => Number (inject_Z (Js.or_zero (Track.likes t)))
  end.

(** [aValue > bValue]; both values come from the same key, so they are two
    strings or two numbers. *)
Definition greater (a b : SortValue) : bool :=
  match a, b with
  | Text x, Text y => String.ltb y x
  | Number x, Number y => Js.Qgtb x y
  | _, _ => false
  end.

(** [aValue < bValue] *)
Definition less (a b : SortValue) : bool := greater b a.

(** The comparator passed to [filtered.sort]. *)
Definition compareFn (sortBy : SortBy) (sortOrder : SortOrder)
  (a b : Track.t) : Z :=
  let aValue := sortValue sortBy a in
  let bValue := sortValue sortBy b in
  match sortOrder with
  | ASC => if greater aValue bValue then 1 else -1
  | DESC => if less aValue bValue then 1 else -1
  end.

(** The computed signal [tracks]: the projection filtered by category and
    sorted by the current key and order. *)
Definition tracks (sort : Engine.Sort) (s : State) : list Track.t :=
  let filtered := tracksSignal s in
  let filter := currentFilter s in
  let filtered :=
    if String.eqb filter "all" then filtered
    else List.filter (fun track => String.eqb (Track.category track) filter)
           filtered in
  sort (compareFn (sortBySignal s) (sortOrderSignal s)) filtered.

(** [deleteTrack(id)]: the store is asked first; the projection follows when
    the store has confirmed, and a rejection is recorded (with the message
    of its error) and thrown again. *)
Definition deleteTrack (db : Storage.Backend) (id : string) (s : State)
  : State * Storage.Settled unit :=
  let s := set_loadingState loading s in
  match Storage.deleteTrack db id (storageService s) with
  | (st, Storage.Fulfilled _) =>
      let s := set_storageService st s in
      let s := set_tracks
                 (List.filter (fun t => negb (String.eqb (Track.id t) id))
                    (tracksSignal s)) s in
      (set_loadingState success s, Storage.Fulfilled tt)
  | (st, Storage.Rejected message) =>
      let s := set_storageService st s in
      let s := set_errorMessage message s in
      (set_loadingState error s, Storage.Rejected message)
  end.

End Library.

(** ** String primitives used by the search and the validation *)

Module Text.

(** ASCII text: every character is below 128.  On such text the length of a
    string is its number of characters, strings compare character by
    character, [toLowerCase] changes the letters A to Z only and [trim]
    removes the six ASCII white-space characters only; the properties of
    text below are stated for it. *)
Fixpoint isAscii (s : string) : bool :=
  match s with
  | EmptyString => true
  | String c rest => (nat_of_ascii c <? 128)%nat && isAscii rest
  end.

(** White space as [String.prototype.trim] removes it, on the ASCII range:
    tab, line feed, vertical tab, form feed, carriage return and space. *)
Definition isSpace (c : ascii) : bool :=
  let n := nat_of_ascii c in
  ((9 <=? n) && (n <=? 13))%nat || (n =? 32)%nat.

Fixpoint trimStart (s : string) : string :=
  match s with
  | EmptyString => EmptyString
  | String c rest => if isSpace c then trimStart rest else s
  end.

Fixpoint trimEnd (s : string) : string :=
  match s with
  | EmptyString => EmptyString
  | String c rest =>
      match trimEnd rest with
      | EmptyString => if isSpace c then EmptyString else String c EmptyString
      | kept => String c kept
      end
  end.

(** [s.trim()] *)
Definition trim (s : string) : string := trimEnd (trimStart s).

(** [s.includes(sub)] *)
Fixpoint includes (s sub : string) : bool :=
  if String.prefix sub s then true
  else match s with
       | EmptyString => false
       | String _ rest => includes rest sub
       end.

(** [sub] occurs in [s]. *)
Definition occurs (sub s : string) : Prop :=
  exists before after, s = (before ++ sub ++ after)%string.

(** Truthiness of a string: not empty. *)
Definition nonEmpty (s : string) : bool :=
  match s with
  | EmptyString => false
  | String _ _ => true
  end.

End Text.

(** ** StorageService: search, rankings, files, reset *)

Module StorageQueries.

Import Storage.

(** The text of a track that the search reads is ASCII text. *)
Definition isAscii (track : Track.t) : bool :=
  Text.isAscii (Track.title track)
  && Text.isAscii (Track.artist track)
  && match Track.description track with
     | Some d => Text.isAscii d
     | None => true
     end
  && Text.isAscii (Track.category track).

(** [searchTracks(query)] *)
Definition searchTracks (db : Backend) (query : string) : Async (list Track.t) :=
  await tracks <- getAllTracks db;
  let searchTerm := Text.trim (Library.toLowerCase query) in
  if negb (Text.nonEmpty searchTerm) then ret tracks
  else
    ret (List.filter
           (fun track =>
              Text.includes (Library.toLowerCase (Track.title track)) searchTerm
              || Text.includes (Library.toLowerCase (Track.artist track)) searchTerm
              || match Track.description track with
                 | Some d => Text.includes (Library.toLowerCase d) searchTerm
                 | None => false
                 end
              || Text.includes (Library.toLowerCase (Track.category track))
                   searchTerm)
           tracks).

(** [getTracksByCategory(category)] *)
Definition getTracksByCategory (db : Backend) (category : string)
  : Async (list Track.t) :=
  await tracks <- getAllTracks db;
  ret (List.filter (fun track => String.eqb (Track.category track) category)
         tracks).

(** The comparators of the three rankings: [(b.plays || 0) - (a.plays || 0)],
    the same on [likes], and the difference of the two [getTime()]. *)
Definition byPlays (a b : Track.t) : Z :=
  Js.or_zero (Track.plays b) - Js.or_zero (Track.plays a).

Definition byLikes (a b : Track.t) : Z :=
  Js.or_zero (Track.likes b) - Js.or_zero (Track.likes a).

Definition byDate (a b : Track.t) : Z :=
  Model.getTime (Track.addedDate b) - Model.getTime (Track.addedDate a).

(** [getMostPlayedTracks(limit)] *)
Definition getMostPlayedTracks (sort : Engine.Sort) (db : Backend) (limit : Z)
  : Async (list Track.t) :=
  await tracks <- getAllTracks db;
  ret (Js.slice (sort byPlays tracks) 0 limit).

(** [getMostLikedTracks(limit)] *)
Definition getMostLikedTracks (sort : Engine.Sort) (db : Backend) (limit : Z)
  : Async (list Track.t) :=
  await tracks <- getAllTracks db;
  ret (Js.slice (sort byLikes tracks) 0 limit).

(** [getRecentTracks(limit)] *)
Definition getRecentTracks (sort : Engine.Sort) (db : Backend) (limit : Z)
  : Async (list Track.t) :=
  await tracks <- getAllTracks db;
  ret (Js.slice (sort byDate tracks) 0 limit).

(** A file handed to the service: its size in bytes, its MIME type, and what
    [FileReader.readAsDataURL] gives for it ([None] when the read fails). *)
Record File : Type := mkFile {
  size : Z;
  type : string;
  dataURL : option string
}.

(** [fileToDataURL(file)] *)
Definition fileToDataURL (file : File) : Settled string :=
  match dataURL file with
  | Some url => Fulfilled url
  | None => Rejected "Erreur lors de la lecture du fichier"
  end.

Definition audioTypes : list string :=
  ["audio/mpeg"; "audio/wav"; "audio/ogg"; "audio/x-m4a"].

Definition imageTypes : list string :=
  ["image/jpeg"; "image/png"; "image/webp"].

(** [allowedTypes.includes(type)] *)
Definition allowed (types : list string) (type : string) : bool :=
  existsb (String.eqb type) types.

(** [saveAudioFile(file)] *)
Definition saveAudioFile (file : File) : Settled string :=
  if 10 * 1024 * 1024 <? size file
  then Rejected "Le fichier audio ne doit pas dépasser 10MB"
  else if negb (allowed audioTypes (type file))
  then Rejected "Format audio non supporté. Utilisez MP3, WAV, OGG ou M4A"
  else fileToDataURL file.

(** [saveImageFile(file)] *)
Definition saveImageFile (file : File) : Settled string :=
  if 2 * 1024 * 1024 <? size file
  then Rejected "L'image ne doit pas dépasser 2MB"
  else if negb (allowed imageTypes (type file))
  then Rejected "Format d'image non supporté. Utilisez JPEG, PNG ou WebP"
  else fileToDataURL file.

(** [clearAllData()]: one transaction clears both object stores;
    [outcome] is [None] when the transaction completes, or its error. *)
Definition clearAllData (outcome : option string) : Async unit :=
  fun s =>
    match outcome with
    | None => (mkState ∅ ∅ (storageError s), Fulfilled tt)
    | Some e =>
        (set_storageError "Erreur lors du nettoyage des données" s, Rejected e)
    end.

End StorageQueries.

(** ** [Partial<Track>] *)

Module Partial.

(** A field is [None] when the object does not have it.  For the fields that
    [Track] declares optional, a present field may hold [undefined]. *)
Record t : Type := mk {
  id : option string;
  title : option string;
  artist : option string;
  description : option (option string);
  duration : option Q;
  category : option string;
  addedDate : option Model.DateValue;
  fileUrl : option string;
  fileSize : option Z;
  fileType : option string;
  coverImage : option (option string);
  coverColor : option (option string);
  plays : option Z;
  likes : option Z
}.

Definition over {A : Type} (update : option A) (current : A) : A :=
  match update with
  | Some v => v
  | None => current
  end.

(** [{ ...track, ...updates }] *)
Definition spread (track : Track.t) (updates : t) : Track.t :=
  Track.mk
    (over (id updates) (Track.id track))
    (over (title updates) (Track.title track))
    (over (artist updates) (Track.artist track))
    (over (description updates) (Track.description track))
    (over (duration updates) (Track.duration track))
    (over (category updates) (Track.category track))
    (over (addedDate updates) (Track.addedDate track))
    (over (fileUrl updates) (Track.fileUrl track))
    (over (fileSize updates) (Track.fileSize track))
    (over (fileType updates) (Track.fileType track))
    (over (coverImage updates) (Track.coverImage track))
    (over (coverColor updates) (Track.coverColor track))
    (over (plays updates) (Track.plays track))
    (over (likes updates) (Track.likes track)).

(** The text fields of the object (title, artist and description) are ASCII
    text. *)
Definition isAscii (p : t) : bool :=
  match title p with Some s => Text.isAscii s | None => true end
  && match artist p with Some s => Text.isAscii s | None => true end
  && match description p with Some (Some s) => Text.isAscii s | _ => true end.

(** The form data of a new track: the four fields the form fills in. *)
Definition form (title artist : string) (description : option string)
  (category : string) : t :=
  mk None (Some title) (Some artist) (Some description) None (Some category)
     None None None None None None None None.

End Partial.

(** ** TrackService: loading, creating, updating, counting *)

Module LibraryCrud.

Import Library.

(** The values of the enum [MusicCategory]. *)
Definition musicCategories : list string :=
  ["pop"; "rock"; "rap"; "jazz"; "classical"; "electronic"; "hiphop"; "rnb";
   "country"; "reggae"; "metal"; "blues"; "folk"].

(** [s.length] as a number, for ASCII text. *)
Definition len (s : string) : Z := Z.of_nat (String.length s).

(** [validateTrackData(trackData)]: the message of the error it throws, or
    [None] when it returns. *)
Definition validateTrackData (trackData : Partial.t) : option string :=
  match Partial.title trackData with
  | None => Some "Le titre est requis"
  | Some title =>
      if negb (Text.nonEmpty title) || (len (Text.trim title) =? 0)
      then Some "Le titre est requis"
      else if 50 <? len title
      then Some "Le titre ne doit pas dépasser 50 caractères"
      else
        match Partial.artist trackData with
        | None => Some "L'artiste est requis"
        | Some artist =>
            if negb (Text.nonEmpty artist) || (len (Text.trim artist) =? 0)
            then Some "L'artiste est requis"
            else
              let longDescription :=
                match Partial.description trackData with
                | Some (Some d) => Text.nonEmpty d && (200 <? len d)
                | _ => false
                end in
              if longDescription
              then Some "La description ne doit pas dépasser 200 caractères"
              else
                match Partial.category trackData with
                | None => Some "La catégorie est requise"
                | Some category =>
                    if negb (Text.nonEmpty category)
                    then Some "La catégorie est requise"
                    else if negb (existsb (String.eqb category) musicCategories)
                    then Some "Catégorie invalide"
                    else None
                end
        end
  end.

(** What the environment supplies to [createTrack]: the identifier that
    [uuidv4()] returns, the time of [new Date()], the draw of
    [generateRandomColor()] and the duration that the decoder reads from the
    audio file ([None] when it fails to read one). *)
Record Fresh : Type := mkFresh {
  uuid : string;
  now : Z;
  colorDraw : nat;
  audioDuration : option Q
}.

Definition colors : list string :=
  ["#E50914"; "#B81D24"; "#FF4D4D"; "#FF6B6B"; "#FF5252";
   "#121212"; "#1E1E1E"; "#2D2D2D"; "#3A3A3A"; "#4A4A4A"].

(** [generateRandomColor()]: [colors[Math.floor(Math.random() * colors.length)]] *)
Definition generateRandomColor (draw : nat) : string :=
  nth (draw mod length colors) colors "".

(** [getAudioDuration(file)] *)
Definition getAudioDuration (fresh : Fresh) : Storage.Settled Q :=
  match audioDuration fresh with
  | Some d => Storage.Fulfilled d
  | None => Storage.Rejected "Impossible de lire la durée du fichier audio"
  end.

(** The [catch] block shared by the methods: the message is recorded, the
    state is [error] and the error is thrown again. *)
Definition fail {A : Type} (message : string) (s : State)
  : State * Storage.Settled A :=
  let s := set_errorMessage message s in
  (set_loadingState error s, Storage.Rejected message).

(** [loadTracks()] *)
Definition loadTracks (db : Storage.Backend) (s : State) : State :=
  let s := set_loadingState loading s in
  let s := set_errorMessage "" s in
  match Storage.getAllTracks db (storageService s) with
  | (st, Storage.Fulfilled tracks) =>
      let s := set_storageService st s in
      let s := set_tracks tracks s in
      set_loadingState success s
  | (st, Storage.Rejected _) =>
      let s := set_storageService st s in
      let s := set_errorMessage "Erreur lors du chargement des pistes" s in
      set_loadingState error s
  end.

(** [createTrack(trackData, audioFile, imageFile)] *)
Definition createTrack (db : Storage.Backend) (fresh : Fresh)
  (trackData : Partial.t) (audioFile : StorageQueries.File)
  (imageFile : option StorageQueries.File) (s : State)
  : State * Storage.Settled Track.t :=
  let s := set_loadingState loading s in
  let s := set_errorMessage "" s in
  match validateTrackData trackData with
  | Some message => fail message s
  | None =>
      match StorageQueries.saveAudioFile audioFile with
      | Storage.Rejected message => fail message s
      | Storage.Fulfilled fileUrl =>
          match match imageFile with
                | Some file =>
                    match StorageQueries.saveImageFile file with
                    | Storage.Fulfilled url => Storage.Fulfilled (Some url)
                    | Storage.Rejected message => Storage.Rejected message
                    end
                | None => Storage.Fulfilled None
                end with
          | Storage.Rejected message => fail message s
          | Storage.Fulfilled coverImage =>
              let coverColor := generateRandomColor (colorDraw fresh) in
              match getAudioDuration fresh with
              | Storage.Rejected message => fail message s
              | Storage.Fulfilled duration =>
                  let track :=
                    Track.mk (uuid fresh)
                      (Text.trim (default "" (Partial.title trackData)))
                      (Text.trim (default "" (Partial.artist trackData)))
                      (match Partial.description trackData with
                       | Some (Some d) => Some (Text.trim d)
                       | _ => None
                       end)
                      duration
                      (default "" (Partial.category trackData))
                      (Model.DateObject (now fresh))
                      fileUrl
                      (StorageQueries.size audioFile)
                      (StorageQueries.type audioFile)
                      coverImage
                      (Some coverColor)
                      0 0 in
                  match Storage.saveTrack db track (storageService s) with
                  | (st, Storage.Rejected message) =>
                      fail message (set_storageService st s)
                  | (st, Storage.Fulfilled _) =>
                      let s := set_storageService st s in
                      let s := set_tracks (tracksSignal s ++ [track]) s in
                      (set_loadingState success s, Storage.Fulfilled track)
                  end
              end
          end
      end
  end.

(** [updateTrack(id, updates)] *)
Definition updateTrack (db : Storage.Backend) (id : string)
  (updates : Partial.t) (s : State) : State * Storage.Settled unit :=
  let s := set_loadingState loading s in
  let longTitle :=
    match Partial.title updates with
    | Some title => Text.nonEmpty title && (50 <? len title)
    | None => false
    end in
  let longDescription :=
    match Partial.description updates with
    | Some (Some d) => Text.nonEmpty d && (200 <? len d)
    | _ => false
    end in
  if longTitle then fail "Le titre ne doit pas dépasser 50 caractères" s
  else if longDescription
  then fail "La description ne doit pas dépasser 200 caractères" s
  else
    match Storage.getTrack db id (storageService s) with
    | (st, Storage.Rejected message) => fail message (set_storageService st s)
    | (st, Storage.Fulfilled None) =>
        fail "Piste non trouvée" (set_storageService st s)
    | (st, Storage.Fulfilled (Some existingTrack)) =>
        let updatedTrack := Partial.spread existingTrack updates in
        match Storage.saveTrack db updatedTrack st with
        | (st', Storage.Rejected message) =>
            fail message (set_storageService st' s)
        | (st', Storage.Fulfilled _) =>
            let s := set_storageService st' s in
            let s := set_tracks
                       (map (fun t => if String.eqb (Track.id t) id
                                      then updatedTrack else t)
                          (tracksSignal s)) s in
            (set_loadingState success s, Storage.Fulfilled tt)
        end
    end.

(** [playTrack(id)]: a failure of the store is logged and dropped. *)
Definition playTrack (db : Storage.Backend) (id : string) (s : State) : State :=
  match Storage.incrementTrackPlays db id (storageService s) with
  | (st, Storage.Fulfilled _) =>
      let s := set_storageService st s in
      set_tracks
        (map (fun track =>
                if String.eqb (Track.id track) id
                then Track.set_plays
                       (Js.plus (Js.or_zero (Track.plays track)) 1) track
                else track)
           (tracksSignal s)) s
  | (st, Storage.Rejected _) => set_storageService st s
  end.

(** [likeTrack(id)]: a failure of the store is logged and answered by 0. *)
Definition likeTrack (db : Storage.Backend) (id : string) (s : State)
  : State * Z :=
  match Storage.toggleTrackLike db id (storageService s) with
  | (st, Storage.Fulfilled likes) =>
      let s := set_storageService st s in
      (set_tracks
         (map (fun track =>
                 if String.eqb (Track.id track) id
                 then Track.set_likes likes track
                 else track)
            (tracksSignal s)) s,
       likes)
  | (st, Storage.Rejected _) => (set_storageService st s, 0)
  end.

(** [importData(file)], with [data] the document read from the file. *)
Definition importData (db : Storage.Backend) (data : Storage.Snapshot)
  (s : State) : State * Storage.Settled unit :=
  let s := set_loadingState loading s in
  match Storage.importData db data (storageService s) with
  | (st, Storage.Fulfilled _) =>
      let s := loadTracks db (set_storageService st s) in
      (set_loadingState success s, Storage.Fulfilled tt)
  | (st, Storage.Rejected message) => fail message (set_storageService st s)
  end.

(** [clearAllData()] *)
Definition clearAllData (outcome : option string) (s : State)
  : State * Storage.Settled unit :=
  let s := set_loadingState loading s in
  match StorageQueries.clearAllData outcome (storageService s) with
  | (st, Storage.Fulfilled _) =>
      let s := set_storageService st s in
      let s := set_tracks [] s in
      (set_loadingState success s, Storage.Fulfilled tt)
  | (st, Storage.Rejected message) => fail message (set_storageService st s)
  end.

(** [getTrackById(id)] *)
Definition getTrackById (id : string) (s : State) : option Track.t :=
  List.find (fun track => String.eqb (Track.id track) id) (tracksSignal s).

(** The projection mirrors the store: its tracks have distinct ids, and a
    record sits in the store under a key exactly when it is a track of the
    projection with that id. *)
Definition mirror (m : gmap string Track.t) (l : list Track.t) : Prop :=
  List.NoDup (map Track.id l)
  /\ forall k t, m !! k = Some t <-> In t l /\ Track.id t = k.

Definition mirrors (s : State) : Prop :=
  mirror (Storage.tracksStore (storageService s)) (tracksSignal s).

(** Calls of the methods that change the library. *)
Inductive Call : Type :=
| CreateTrack (db : Storage.Backend) (fresh : Fresh) (trackData : Partial.t)
    (audioFile : StorageQueries.File) (imageFile : option StorageQueries.File)
| UpdateTrack (db : Storage.Backend) (id : string) (updates : Partial.t)
| DeleteTrack (db : Storage.Backend) (id : string)
| PlayTrack (db : Storage.Backend) (id : string)
| LikeTrack (db : Storage.Backend) (id : string)
| LoadTracks (db : Storage.Backend)
| ClearAllData (outcome : option string).

Definition call (c : Call) (s : State) : State :=
  match c with
  | CreateTrack db fresh trackData audioFile imageFile =>
      fst (createTrack db fresh trackData audioFile imageFile s)
  | UpdateTrack db id updates => fst (updateTrack db id updates s)
  | DeleteTrack db id => fst (deleteTrack db id s)
  | PlayTrack db id => playTrack db id s
  | LikeTrack db id => fst (likeTrack db id s)
  | LoadTracks db => loadTracks db s
  | ClearAllData outcome => fst (clearAllData outcome s)
  end.

Definition run (calls : list Call) (s : State) : State :=
  fold_left (fun s c => call c s) calls s.

(** What the calls rely on: [uuidv4()] returns an identifier that the store
    does not hold yet, and an update does not carry an [id]. *)
Definition wellFormed (c : Call) (s : State) : Prop :=
  match c with
  | CreateTrack _ fresh _ _ _ =>
      Storage.tracksStore (storageService s) !! uuid fresh = None
  | UpdateTrack _ _ updates => Partial.id updates = None
  | _ => True
  end.

Fixpoint allWellFormed (calls : list Call) (s : State) : Prop :=
  match calls with
  | [] => True
  | c :: rest => wellFormed c s /\ allWellFormed rest (call c s)
  end.

End LibraryCrud.

(** ** Statistics of the library *)

Module LibraryStats.

Import Library.

(** [Array.from(new Set(values))]: a [Set] keeps the first occurrence of each
    value, in insertion order. *)
Fixpoint unique (seen : list string) (values : list string) : list string :=
  match values with
  | [] => []
  | x :: rest =>
      if existsb (String.eqb x) seen then unique seen rest
      else x :: unique (x :: seen) rest
  end.

(** The computed signal [categories] *)
Definition categories (s : State) : list string :=
  "all" :: unique [] (map Track.category (tracksSignal s)).

(** The members that the object literal [{}] inherits from
    [Object.prototype]. *)
Definition inherited : list string :=
  ["constructor"; "hasOwnProperty"; "isPrototypeOf"; "propertyIsEnumerable";
   "toLocaleString"; "toString"; "valueOf"; "__defineGetter__";
   "__defineSetter__"; "__lookupGetter__"; "__lookupSetter__"; "__proto__"].

(** A value of the object [stats]: a number, or the text that [+ 1] makes of
    an inherited member. *)
Inductive Entry : Type :=
| Count (n : Z)
| Concatenated.

(** [stats[category] = (stats[category] || 0) + 1].  An own number is
    raised by one, an own text stays a text.  A key that [stats] does not
    own reads as [undefined] and becomes 1, unless [Object.prototype] has a
    member of that name: the member is truthy, [+ 1] appends to its text,
    and the text is stored, or dropped by the setter of [__proto__]. *)
Definition record (stats : gmap string Entry) (category : string)
  : gmap string Entry :=
  match stats !! category with
  | Some (Count n) => <[category := Count (Js.or_zero n + 1)]> stats
  | Some Concatenated => stats
  | None =>
      if String.eqb category "__proto__" then stats
      else if existsb (String.eqb category) inherited
      then <[category := Concatenated]> stats
      else <[category := Count (0 + 1)]> stats
  end.

(** [getCategoryStats(tracks)] *)
Definition getCategoryStats (tracks : list Track.t) : gmap string Entry :=
  fold_left (fun stats track => record stats (Track.category track)) tracks ∅.

(** The computed signal [stats] *)
Record Stats : Type := mkStats {
  totalTracks : Z;
  totalDuration : Q;
  totalPlays : Z;
  totalLikes : Z;
  byCategory : gmap string Entry
}.

Definition stats (s : State) : Stats :=
  let tracks := tracksSignal s in
  mkStats (Z.of_nat (length tracks))
    (fold_left (fun sum track => (sum + Track.duration track)%Q) tracks 0%Q)
    (fold_left (fun sum track => sum + Js.or_zero (Track.plays track)) tracks 0)
    (fold_left (fun sum track => sum + Js.or_zero (Track.likes track)) tracks 0)
    (getCategoryStats tracks).

(** The number of tracks of a category. *)
Definition tracksOf (category : string) (tracks : list Track.t) : Z :=
  Z.of_nat (length (List.filter
                      (fun track => String.eqb (Track.category track) category)
                      tracks)).

(** The sum of the numbers that [stats] holds. *)
Definition counted (stats : gmap string Entry) : Z :=
  map_fold (fun _ entry sum =>
              match entry with Count n => sum + n | Concatenated => sum end)
    0 stats.

End LibraryStats.

(** ** The library page *)

Module LibraryComponent.

(** A number that a division returns. *)
Inductive Number : Type :=
| Finite (z : Z)
| PlusInfinity
| NotANumber.

(** [x <= n] and [x < n] for an integer [x] *)
Definition leb (x : Z) (n : Number) : bool :=
  match n with
  | Finite z => x <=? z
  | PlusInfinity => true
  | NotANumber => false
  end.

Definition ltb (x : Z) (n : Number) : bool :=
  match n with
  | Finite z => x <? z
  | PlusInfinity => true
  | NotANumber => false
  end.

Section Pages.
Context {A : Type}.

(** The computed signal [paginatedTracks] *)
Definition paginatedTracks (filteredTracks : list A)
  (currentPage itemsPerPage : Z) : list A :=
  let startIndex := (currentPage - 1) * itemsPerPage in
  let endIndex := startIndex + itemsPerPage in
  Js.slice filteredTracks startIndex endIndex.

(** The computed signal [totalPages]:
    [Math.ceil(filteredTracks.length / itemsPerPage)] *)
Definition totalPages (filteredTracks : list A) (itemsPerPage : Z) : Number :=
  let count := Z.of_nat (length filteredTracks) in
  if itemsPerPage =? 0
  then (if count =? 0 then NotANumber else PlusInfinity)
  else Finite (- ((- count) / itemsPerPage)).

(** [goToPage(page)], [nextPage()] and [prevPage()], on the signal
    [currentPage]. *)
Definition goToPage (filteredTracks : list A) (itemsPerPage : Z) (page : Z)
  (currentPage : Z) : Z :=
  if (1 <=? page) && leb page (totalPages filteredTracks itemsPerPage)
  then page else currentPage.

Definition nextPage (filteredTracks : list A) (itemsPerPage : Z)
  (currentPage : Z) : Z :=
  if ltb currentPage (totalPages filteredTracks itemsPerPage)
  then currentPage + 1 else currentPage.

Definition prevPage (currentPage : Z) : Z :=
  if 1 <? currentPage then currentPage - 1 else currentPage.

(** [getPagesArray()]: [None] when the loop has no end. *)
Definition getPagesArray (filteredTracks : list A) (itemsPerPage : Z)
  : option (list Z) :=
  match totalPages filteredTracks itemsPerPage with
  | Finite z => Some (map Z.of_nat (seq 1 (Z.to_nat z)))
  | PlusInfinity => None
  | NotANumber => Some []
  end.

(** Moves between pages. *)
Inductive Move : Type :=
| GoToPage (page : Z)
| NextPage
| PrevPage.

Definition move (filteredTracks : list A) (itemsPerPage : Z) (m : Move)
  (currentPage : Z) : Z :=
  match m with
  | GoToPage page => goToPage filteredTracks itemsPerPage page currentPage
  | NextPage => nextPage filteredTracks itemsPerPage currentPage
  | PrevPage => prevPage currentPage
  end.

Definition moves (filteredTracks : list A) (itemsPerPage : Z)
  (ms : list Move) (currentPage : Z) : Z :=
  fold_left (fun page m => move filteredTracks itemsPerPage m page) ms
    currentPage.

End Pages.

(** [onPlayTrack(track)] *)
Definition onPlayTrack (random : nat -> nat) (o : Player.PlayOutcome)
  (track : Track.t) (s : Player.State) : Player.State :=
  let sameTrack :=
    match Player.currentTrackSignal s with
    | Some currentTrack => String.eqb (Track.id currentTrack) (Track.id track)
    | None => false
    end in
  let isPlaying :=
    match Player.statusSignal s with
    | Model.playing => true
    | _ => false
    end in
  if sameTrack && isPlaying then Player.pause s
  else if sameTrack && negb isPlaying then Player.play o s
  else Player.play o (Player.setQueue random [track] 0 s).

(** [deleteSelectedTracks()], with the answer given to the confirmation
    dialog: the selection and the library afterwards.  A deletion that fails
    is logged and the loop goes on. *)
Definition deleteSelectedTracks (db : Storage.Backend) (confirmed : bool)
  (selectedTracks : list string) (s : Library.State)
  : list string * Library.State :=
  if Z.of_nat (length selectedTracks) =? 0 then (selectedTracks, s)
  else if confirmed then
    ([], fold_left (fun s trackId => fst (Library.deleteTrack db trackId s))
           selectedTracks s)
  else (selectedTracks, s).

(** [addSelectedToQueue()], with [tracks] the value of the signal [tracks]
    of the library. *)
Definition addSelectedToQueue (tracks : list Track.t)
  (selectedTracks : list string) (s : Player.State) : Player.State :=
  let selectedIds := selectedTracks in
  let selectedTracks :=
    List.filter (fun track =>
                   existsb (fun selected => String.eqb selected (Track.id track))
                     selectedIds)
      tracks in
  fold_left (fun s track => Player.addToQueue track false s) selectedTracks s.

End LibraryComponent.

(** ** The player bar *)

Module AudioPlayerComponent.

(** [playFromQueue(index)] *)
Definition playFromQueue (random : nat -> nat) (l : Player.LoadOutcome)
  (o : Player.PlayOutcome) (index : Z) (s : Player.State) : Player.State :=
  let queue := Player.queueSignal s in
  if (0 <=? index) && (index <? Z.of_nat (length queue)) then
    let track := Js.at_index queue index in
    let s := Player.setQueue random queue index s in
    Player.play_track l o track s
  else s.

End AudioPlayerComponent.


(** ** Concrete tracks, player states and stores *)

Module Examples.

Import Model.

Definition track (id title : string) (added : DateValue) : Track.t :=
  Track.mk id title "Artist" None 180%Q "pop" added
    ("blob:" ++ id) 1024 "audio/mpeg" None (Some "#E50914") 0 0.

Definition trackA : Track.t := track "a" "Song" (DateObject 1000).
Definition trackB : Track.t := track "b" "Song" (DateObject 2000).
Definition trackC : Track.t := track "c" "Tune" (DateObject 3000).

(** Draws of the random source: always 0. *)
Definition zeros : nat -> nat := fun _ => O.


(** [trackB], second of two tracks, five seconds into the track. *)
Definition secondTrackAtFiveSeconds : Player.State :=
  Player.mkState (Audio.mk "blob:b" (Some 180%Q) 5%Q) (Some trackB) playing 5%Q
    [trackA; trackB] 1 false false [trackA; trackB] "" false None.


(** The end of [trackA], first of two tracks. *)
Definition endOfFirstTrack : Player.State :=
  Player.mkState (Audio.mk "blob:a" (Some 180%Q) 180%Q) (Some trackA) paused 180%Q
    [trackA; trackB] 0 false false [trackA; trackB] "" false None.

(** The end of [trackB], last of two tracks. *)
Definition endOfLastTrack : Player.State :=
  Player.mkState (Audio.mk "blob:b" (Some 180%Q) 180%Q) (Some trackB) paused 180%Q
    [trackA; trackB] 1 false false [trackA; trackB] "" false None.

(** The end of [trackA], alone in the queue, with repeat on. *)
Definition endOfRepeatedTrack : Player.State :=
  Player.mkState (Audio.mk "blob:a" (Some 180%Q) 180%Q) (Some trackA) paused 180%Q
    [trackA] 0 false true [trackA] "" false None.

(** A queue of three tracks playing its second one. *)
Definition threeTracks : Player.State :=
  Player.mkState (Audio.mk "blob:b" (Some 180%Q) 0%Q) (Some trackB) playing 0%Q
    [trackA; trackB; trackC] 1 false false [trackA; trackB; trackC] "" false None.

(** A store that holds [trackA]. *)
Definition storeWithA : Storage.State :=
  Storage.mkState {[ "a" := trackA ]} ∅ None.

(** [trackA] with 2^53 likes, and a store that holds it. *)
Definition trackAtLimit : Track.t := Track.set_likes (2 ^ 53) trackA.

Definition storeAtLimit : Storage.State :=
  Storage.mkState {[ "a" := trackAtLimit ]} ∅ None.

(** A database that rejects the write of [trackA] and serves the rest. *)
Definition rejectsA : Storage.Backend :=
  fun r =>
    match r with
    | Storage.PutTrack t =>
        if String.eqb (Track.id t) "a" then Some "QuotaExceededError" else None
    | _ => None
    end.

(** A library over [storeWithA]. *)
Definition libraryWithA : Library.State :=
  Library.mkState storeWithA [trackA] Library.success "" "all" DATE DESC.

(** A library of two tracks with the same title, sorted by title. *)
Definition sameTitles : Library.State :=
  Library.mkState Storage.empty [trackA; trackB] Library.success "" "all"
    TITLE ASC.

(** Draws of the random source: the loop index itself. *)
Definition identityDraws : nat -> nat := fun i => i.

(** Volume at 0.7, not muted: the initial signals. *)
Definition initialVolume : Player.Volume := Player.mkVolume (7 # 10) false.

(** A library with nothing loaded over an empty store. *)
Definition emptyLibrary : Library.State :=
  Library.mkState Storage.empty [] Library.idle "" "all" DATE DESC.

(** What the environment gives to the creation of a first track. *)
Definition freshOne : LibraryCrud.Fresh :=
  LibraryCrud.mkFresh "id-1" 4000 3 (Some 200%Q).

(** The form of a new track, its audio file and a file that is too large. *)
Definition formOne : Partial.t :=
  Partial.form "  First song " "Someone" (Some "demo") "jazz".

Definition audioOne : StorageQueries.File :=
  StorageQueries.mkFile 2048 "audio/mpeg" (Some "data:audio/mpeg;base64,AAAA").

Definition audioTooLarge : StorageQueries.File :=
  StorageQueries.mkFile (11 * 1024 * 1024) "audio/mpeg"
    (Some "data:audio/mpeg;base64,AAAA").

(** An update of the title alone. *)
Definition retitle : Partial.t :=
  Partial.mk None (Some "Renamed") None None None None None None None None
    None None None None.

(** A library of two tracks with different titles, the later title first,
    sorted by title. *)
Definition twoTitles : Library.State :=
  Library.mkState Storage.empty [trackC; trackA] Library.success "" "all"
    TITLE ASC.

End Examples.


(** * Properties *)

(** ** Array primitives *)

Section ArrayFacts.
Context {A : Type}.
Implicit Types (arr : list A) (p : A -> bool).

Lemma at_index_Some arr (i : Z) (x : A) :
  Js.at_index arr i = Some x -> 0 <= i < Z.of_nat (length arr).
Proof.
  unfold Js.at_index. destruct (Z.ltb_spec i 0) as [Hneg|Hpos]; [discriminate|].
  intros Hl. apply lookup_lt_Some in Hl. lia.
Qed.

Lemma at_index_inside arr (i : Z) :
  0 <= i < Z.of_nat (length arr) -> exists x, Js.at_index arr i = Some x.
Proof.
  intros Hi. unfold Js.at_index.
  destruct (Z.ltb_spec i 0) as [Hneg|Hpos]; [lia|].
  destruct (lookup_lt_is_Some_2 arr (Z.to_nat i)) as [x Hx]; [lia|].
  exists x. exact Hx.
Qed.

Lemma findIndex_range p arr :
  -1 <= Js.findIndex p arr < Z.of_nat (length arr).
Proof.
  induction arr as [|x rest IH]; simpl; [lia|].
  destruct (p x); [lia|].
  destruct (Z.eqb_spec (Js.findIndex p rest) (-1)); lia.
Qed.

Lemma findIndex_found p arr :
  Js.findIndex p arr <> -1 ->
  exists x, Js.at_index arr (Js.findIndex p arr) = Some x /\ p x = true.
Proof.
  induction arr as [|x rest IH]; simpl; [congruence|].
  destruct (p x) eqn:Hp.
  - intros _. exists x. split; [reflexivity|exact Hp].
  - destruct (Z.eqb_spec (Js.findIndex p rest) (-1)) as [Heq|Hne]; [congruence|].
    intros _. destruct (IH Hne) as (y & Hy & Hpy). exists y. split; [|exact Hpy].
    pose proof (findIndex_range p rest) as Hr.
    unfold Js.at_index in *.
    destruct (Z.ltb_spec (Js.findIndex p rest) 0); [lia|].
    destruct (Z.ltb_spec (Js.findIndex p rest + 1) 0); [lia|].
    replace (Z.to_nat (Js.findIndex p rest + 1))
      with (S (Z.to_nat (Js.findIndex p rest))) by lia.
    exact Hy.
Qed.

Lemma findIndex_exists p arr (x : A) :
  In x arr -> p x = true -> Js.findIndex p arr <> -1.
Proof.
  induction arr as [|y rest IH]; simpl; [tauto|].
  intros [->|Hin] Hp.
  - rewrite Hp. lia.
  - destruct (p y); [lia|].
    specialize (IH Hin Hp). pose proof (findIndex_range p rest).
    destruct (Z.eqb_spec (Js.findIndex p rest) (-1)); lia.
Qed.

Lemma filter_index_ne_before (index i : Z) arr :
  index < i -> Js.filter_index_ne index i arr = arr.
Proof.
  revert i. induction arr as [|x rest IH]; intros i Hi; simpl; [reflexivity|].
  destruct (Z.eqb_spec i index); [lia|]. rewrite IH by lia. reflexivity.
Qed.

Lemma length_filter_index_ne (index i : Z) arr :
  i <= index < i + Z.of_nat (length arr) ->
  S (length (Js.filter_index_ne index i arr)) = length arr.
Proof.
  revert i. induction arr as [|x rest IH]; intros i Hi; simpl in *; [lia|].
  destruct (Z.eqb_spec i index) as [->|Hne].
  - rewrite filter_index_ne_before by lia. reflexivity.
  - simpl. rewrite IH by lia. reflexivity.
Qed.

Lemma length_swap (i j : nat) arr : length (Js.swap i j arr) = length arr.
Proof.
  unfold Js.swap. destruct (arr !! i), (arr !! j); try reflexivity.
  rewrite !length_insert. reflexivity.
Qed.

Lemma delete_insert_same (i : nat) (y : A) arr :
  delete i (<[i:=y]> arr) = delete i arr.
Proof.
  revert i. induction arr as [|x rest IH]; intros [|i]; simpl; try reflexivity.
  f_equal. apply IH.
Qed.

Lemma swap_Permutation (i j : nat) arr : Permutation (Js.swap i j arr) arr.
Proof.
  unfold Js.swap.
  destruct (arr !! i) as [x|] eqn:Hi; [|reflexivity].
  destruct (arr !! j) as [y|] eqn:Hj; [|reflexivity].
  destruct (decide (i = j)) as [->|Hne].
  - rewrite list_insert_insert_eq. replace x with y by congruence.
    rewrite list_insert_id by exact Hj. reflexivity.
  - assert (Hi' : <[i:=y]> arr !! i = Some y).
    { apply list_lookup_insert_eq. eapply lookup_lt_Some; eauto. }
    assert (Hj' : <[i:=y]> arr !! j = Some y).
    { rewrite list_lookup_insert_ne by exact Hne. exact Hj. }
    assert (Hjx : <[j:=x]> (<[i:=y]> arr) !! j = Some x).
    { apply list_lookup_insert_eq. eapply lookup_lt_Some; eauto. }
    pose proof (delete_Permutation _ _ _ Hi) as P1.
    pose proof (delete_Permutation _ _ _ Hi') as P2.
    pose proof (delete_Permutation _ _ _ Hj') as P3.
    pose proof (delete_Permutation _ _ _ Hjx) as P4.
    rewrite delete_insert_same in P2, P4.
    etransitivity; [exact P4|].
    etransitivity; [|symmetry; exact P1].
    apply perm_skip. apply (Permutation_cons_inv (a := y)).
    etransitivity; [symmetry; exact P3|exact P2].
Qed.

Lemma slice_prefix arr (k : Z) :
  0 <= k <= Z.of_nat (length arr) -> Js.slice arr 0 k = take (Z.to_nat k) arr.
Proof.
  intros Hk. unfold Js.slice, Js.relative. simpl.
  destruct (Z.ltb_spec k 0); [lia|].
  rewrite Z.min_l by lia. replace (Z.to_nat (Z.min 0 _)) with O by lia.
  rewrite drop_0. f_equal. lia.
Qed.

Lemma slice_from_suffix arr (k : Z) :
  0 <= k <= Z.of_nat (length arr) -> Js.slice_from arr k = drop (Z.to_nat k) arr.
Proof.
  intros Hk. unfold Js.slice_from, Js.slice, Js.relative.
  destruct (Z.ltb_spec k 0); [lia|].
  destruct (Z.ltb_spec (Z.of_nat (length arr)) 0); [lia|].
  rewrite !Z.min_l by lia.
  apply take_ge. rewrite length_drop. lia.
Qed.

End ArrayFacts.

(** ** Playback engine: queue editing *)

Lemma queue_loadTrack (track : option Track.t) (s : Player.State) :
  Player.queueSignal (Player.loadTrack track s) = Player.queueSignal s.
Proof.
  unfold Player.loadTrack. destruct track as [tr|]; simpl; [|reflexivity].
  destruct (Js.findIndex _ _ =? -1); reflexivity.
Qed.

Lemma length_shuffleLoop (random : nat -> nat) (i : nat) (arr : list Track.t) :
  length (Player.shuffleLoop random i arr) = length arr.
Proof.
  revert arr. induction i as [|i IH]; intros arr; simpl; [reflexivity|].
  rewrite IH. apply length_swap.
Qed.

Lemma shuffleLoop_Permutation (random : nat -> nat) (i : nat) (arr : list Track.t) :
  Permutation (Player.shuffleLoop random i arr) arr.
Proof.
  revert arr. induction i as [|i IH]; intros arr; simpl; [reflexivity|].
  etransitivity; [apply IH|apply swap_Permutation].
Qed.

Lemma queue_shuffleQueue (random : nat -> nat) (tracks : list Track.t)
  (s : Player.State) :
  Player.queueSignal (Player.shuffleQueue random tracks s)
  = Player.shuffleLoop random (length tracks - 1) tracks.
Proof.
  unfold Player.shuffleQueue. simpl.
  destruct (Player.currentTrackSignal s); [|reflexivity].
  destruct (Js.findIndex _ _ =? -1); reflexivity.
Qed.

Lemma length_queue_setQueue (random : nat -> nat) (tracks : list Track.t)
  (startIndex : Z) (s : Player.State) :
  length (Player.queueSignal (Player.setQueue random tracks startIndex s))
  = length tracks.
Proof.
  unfold Player.setQueue.
  assert (Hq : length (Player.queueSignal
            (if Player.isShuffledSignal (Player.set_originalQueue tracks s)
             then Player.shuffleQueue random tracks (Player.set_originalQueue tracks s)
             else Player.set_queue tracks (Player.set_originalQueue tracks s)))
          = length tracks).
  { destruct (Player.isShuffledSignal _).
    - rewrite queue_shuffleQueue. apply length_shuffleLoop.
    - reflexivity. }
  destruct (_ && _); [|exact Hq].
  simpl. rewrite queue_loadTrack. exact Hq.
Qed.

Lemma index_setQueue (random : nat -> nat) (tracks : list Track.t)
  (startIndex : Z) (s : Player.State) :
  startIndex < Z.of_nat (length tracks) -> tracks <> [] ->
  Player.currentIndexSignal (Player.setQueue random tracks startIndex s)
  = startIndex.
Proof.
  intros Hlt Hne. unfold Player.setQueue.
  assert (Hlen : 0 < Z.of_nat (length tracks)) by (destruct tracks; simpl; [congruence|lia]).
  destruct (Z.ltb_spec 0 (Z.of_nat (length tracks))); [|lia].
  destruct (Z.ltb_spec startIndex (Z.of_nat (length tracks))); [|lia].
  reflexivity.
Qed.

Lemma length_queue_addToQueue (track : Track.t) (playNext : bool)
  (s : Player.State) :
  -1 <= Player.currentIndexSignal s < Z.of_nat (length (Player.queueSignal s)) ->
  length (Player.queueSignal (Player.addToQueue track playNext s))
  = S (length (Player.queueSignal s)).
Proof.
  intros Hi. unfold Player.addToQueue. destruct playNext; simpl.
  - rewrite slice_prefix, slice_from_suffix by lia.
    rewrite length_app. simpl. rewrite length_take, length_drop. lia.
  - rewrite length_app. simpl. lia.
Qed.

Lemma index_addToQueue (track : Track.t) (playNext : bool) (s : Player.State) :
  Player.currentIndexSignal (Player.addToQueue track playNext s)
  = Player.currentIndexSignal s.
Proof. unfold Player.addToQueue. destruct playNext; reflexivity. Qed.


Lemma steady_queueInvariant (s : Player.State) :
  Player.steady s -> Player.queueInvariant s.
Proof.
  unfold Player.steady, Player.indexInQueue, Player.queueInvariant.
  intros [[Hq Hi]|Hin].
  - rewrite Hq, Hi. simpl. split; [tauto|congruence].
  - split; [|intros _; exact Hin].
    split; intros H; [lia|]. rewrite H in Hin. simpl in Hin. lia.
Qed.

Lemma steady_call (c : Player.QueueCall) (s : Player.State) :
  Player.steady s -> Player.keepsIndex c s -> Player.steady (Player.call c s).
Proof.
  intros Hs Hk. destruct c as [random tracks startIndex|track playNext|index];
    simpl in *.
  - right. unfold Player.indexInQueue.
    rewrite length_queue_setQueue, index_setQueue; [lia|lia|].
    destruct tracks; simpl in Hk; [lia|congruence].
  - right. unfold Player.indexInQueue.
    destruct Hs as [[Hq _]|Hin]; [congruence|].
    unfold Player.indexInQueue in Hin.
    rewrite index_addToQueue, length_queue_addToQueue by lia. lia.
  - unfold Player.removeFromQueue.
    destruct (Z.leb_spec 0 index) as [H0|H0]; simpl; [|exact Hs].
    destruct (Z.ltb_spec index (Z.of_nat (length (Player.queueSignal s))))
      as [H1|H1]; [|exact Hs].
    specialize (Hk (conj H0 H1)).
    destruct Hs as [[Hq _]|Hin]; [rewrite Hq in H1; simpl in H1; lia|].
    unfold Player.indexInQueue in Hin. right. unfold Player.indexInQueue.
    pose proof (length_filter_index_ne index 0 (Player.queueSignal s)) as Hlen.
    specialize (Hlen ltac:(lia)).
    destruct (Z.leb_spec index (Player.currentIndexSignal s)); simpl; lia.
Qed.

Lemma steady_run (calls : list Player.QueueCall) (s : Player.State) :
  Player.steady s -> Player.keepIndex calls s -> Player.steady (Player.run calls s).
Proof.
  revert s. induction calls as [|c rest IH]; intros s Hs Hk; simpl in *.
  - exact Hs.
  - destruct Hk as [Hc Hrest]. apply IH; [|exact Hrest].
    apply steady_call; assumption.
Qed.

(** C9. [removeFromQueue(index)] with an index outside of the queue
    ([index < 0] or [index >= queue.length]) returns the state it was given:
    queue, current index, current track, status and every other signal are
    unchanged, and nothing is thrown. *)
Theorem removeFromQueue_outside_is_noop (index : Z) (s : Player.State) :
  index < 0 \/ Z.of_nat (length (Player.queueSignal s)) <= index ->
  Player.removeFromQueue index s = s.
Proof.
  intros Hout. unfold Player.removeFromQueue.
  destruct (Z.leb_spec 0 index); simpl; [|reflexivity].
  destruct (Z.ltb_spec index (Z.of_nat (length (Player.queueSignal s))));
    [lia|reflexivity].
Qed.

Lemma removeFromQueue_outside_is_noop_witness :
  Player.removeFromQueue 3 Examples.threeTracks = Examples.threeTracks
  /\ Player.removeFromQueue (-1) Examples.threeTracks = Examples.threeTracks.
Proof.
  split.
  - apply (removeFromQueue_outside_is_noop 3 Examples.threeTracks).
    right. simpl. lia.
  - apply (removeFromQueue_outside_is_noop (-1) Examples.threeTracks).
    left. lia.
Defined.

(** C1, as stated, fails: a track added to the initial, empty queue leaves
    the index at -1 next to a queue of one track. *)
Lemma queue_invariant_fails_after_first_add :
  ~ Player.queueInvariant
      (Player.run [Player.AddToQueue Examples.trackA false] Player.initial).
Proof.
  unfold Player.queueInvariant. simpl. intros [[H _] _].
  specialize (H eq_refl). discriminate H.
Qed.

(** The two other ways out of the invariant: removing the only track leaves
    index 0 beside an empty queue, and a [setQueue] whose start index is
    outside of the new list keeps the index of the old queue. *)
Lemma index_kept_after_last_removal :
  let s := Player.run
             [Player.SetQueue Examples.zeros [Examples.trackA] 0;
              Player.RemoveFromQueue 0]
             Player.initial in
  Player.queueSignal s = [] /\ Player.currentIndexSignal s = 0.
Proof. split; reflexivity. Qed.

Lemma index_kept_by_setQueue_outside :
  let s := Player.run
             [Player.SetQueue Examples.zeros
                [Examples.trackA; Examples.trackB; Examples.trackC] 2;
              Player.SetQueue Examples.zeros [Examples.trackA] 5]
             Player.initial in
  length (Player.queueSignal s) = 1%nat /\ Player.currentIndexSignal s = 2.
Proof. split; reflexivity. Qed.

(** C1, amended.  For every sequence of [setQueue], [addToQueue] and
    [removeFromQueue] calls from the initial state in which every [setQueue]
    gets a start index inside its track list, every [addToQueue] finds a
    non-empty queue and no [removeFromQueue] removes the only track left, the
    resulting state has [currentIndex = -1] exactly when the queue is empty,
    and [0 <= currentIndex < queue.length] otherwise. *)
Theorem queue_invariant_of_guarded_calls (calls : list Player.QueueCall) :
  Player.keepIndex calls Player.initial ->
  Player.queueInvariant (Player.run calls Player.initial).
Proof.
  intros Hk. apply steady_queueInvariant. apply steady_run; [|exact Hk].
  left. split; reflexivity.
Qed.

Lemma queue_invariant_of_guarded_calls_witness :
  Player.queueInvariant
    (Player.run [Player.SetQueue Examples.zeros [Examples.trackA; Examples.trackB] 1;
                 Player.AddToQueue Examples.trackC true;
                 Player.RemoveFromQueue 0]
       Player.initial).
Proof.
  apply (queue_invariant_of_guarded_calls
           [Player.SetQueue Examples.zeros [Examples.trackA; Examples.trackB] 1;
            Player.AddToQueue Examples.trackC true;
            Player.RemoveFromQueue 0]).
  simpl. split; [lia|]. split; [discriminate|]. split; [|exact I].
  intros _. vm_compute. lia.
Defined.

(** ** Playback engine: transport *)

Lemma Qgtb_true (a b : Q) : Js.Qgtb a b = true <-> (b < a)%Q.
Proof.
  unfold Js.Qgtb. rewrite negb_true_iff. split.
  - intros H. apply Qnot_le_lt. intros Hle.
    apply Qle_bool_iff in Hle. congruence.
  - intros H. destruct (Qle_bool a b) eqn:E; [|reflexivity].
    apply Qle_bool_iff in E. exfalso. exact (Qlt_not_le _ _ H E).
Qed.

Lemma Qgtb_false (a b : Q) : Js.Qgtb a b = false <-> (a <= b)%Q.
Proof.
  unfold Js.Qgtb. rewrite negb_false_iff. apply Qle_bool_iff.
Qed.

(** [Math.max(0, Math.min(0, d))] is 0 whatever the duration [d]. *)
Lemma clamp_zero (d : Q) : Qmax 0 (Qmin 0 d) = 0%Q.
Proof.
  unfold Qmax, Qmin, GenericMinMax.gmax, GenericMinMax.gmin.
  destruct (0 ?= d)%Q eqn:E; try reflexivity.
  rewrite E. reflexivity.
Qed.

Lemma seek_zero_fields (s : Player.State) :
  Player.currentIndexSignal (Player.seek 0 s) = Player.currentIndexSignal s
  /\ Player.currentTrackSignal (Player.seek 0 s) = Player.currentTrackSignal s
  /\ Player.queueSignal (Player.seek 0 s) = Player.queueSignal s
  /\ Player.statusSignal (Player.seek 0 s) = Player.statusSignal s
  /\ (Audio.hasDuration (Player.audioElement s) = true ->
      Player.currentTimeSignal (Player.seek 0 s) = 0%Q).
Proof.
  unfold Player.seek, Player.duration.
  destruct (Audio.hasDuration (Player.audioElement s)).
  - destruct (Player.durationCache s); simpl; rewrite clamp_zero; tauto.
  - repeat split; try reflexivity. discriminate.
Qed.

Lemma play_fields (o : Player.PlayOutcome) (s : Player.State) :
  Player.currentIndexSignal (Player.play o s) = Player.currentIndexSignal s
  /\ Player.currentTrackSignal (Player.play o s) = Player.currentTrackSignal s
  /\ Player.queueSignal (Player.play o s) = Player.queueSignal s
  /\ Player.currentTimeSignal (Player.play o s) = Player.currentTimeSignal s.
Proof.
  unfold Player.play. destruct (Player.currentTrackSignal s) eqn:E, o; simpl;
    rewrite ?E; tauto.
Qed.

Lemma play_resolved_status (s : Player.State) :
  Player.currentTrackSignal s <> None
  \/ Player.statusSignal s = Model.playing ->
  Player.statusSignal (Player.play Player.PlayResolved s) = Model.playing.
Proof.
  unfold Player.play. destruct (Player.currentTrackSignal s); simpl.
  - reflexivity.
  - intros [H|H]; [congruence|exact H].
Qed.

Lemma loadTrack_Some_track (tr : Track.t) (s : Player.State) :
  Player.currentTrackSignal (Player.loadTrack (Some tr) s) = Some tr.
Proof.
  unfold Player.loadTrack. simpl. destruct (Js.findIndex _ _ =? -1); reflexivity.
Qed.

(** The state once a track has been loaded at position [i] and the device
    has been asked to play it. *)
Lemma load_and_play (o : Player.PlayOutcome) (tr : Track.t) (i : Z)
  (s : Player.State) :
  let s' := Player.play o
              (Player.set_currentIndex i (Player.loadTrack (Some tr) s)) in
  Player.currentTrackSignal s' = Some tr
  /\ Player.currentIndexSignal s' = i
  /\ (o = Player.PlayResolved -> Player.statusSignal s' = Model.playing).
Proof.
  intros s'. subst s'.
  destruct (play_fields o
    (Player.set_currentIndex i (Player.loadTrack (Some tr) s)))
    as (Hi & Ht & _ & _).
  assert (Hc : Player.currentTrackSignal
                 (Player.set_currentIndex i (Player.loadTrack (Some tr) s))
               = Some tr) by exact (loadTrack_Some_track tr s).
  rewrite Hi, Ht, Hc. repeat split.
  intros ->. apply play_resolved_status. left. rewrite Hc. discriminate.
Qed.




Lemma loadTrack_None_status (s : Player.State) :
  Player.statusSignal (Player.loadTrack None s) = Model.stopped
  /\ Player.currentTrackSignal (Player.loadTrack None s) = None.
Proof. split; reflexivity. Qed.

(** C7.  When the device signals the end of the track:
    with repeat on, the queue index and the current track stay, the position
    returns to 0 (the audio element having a duration) and the status is
    [playing] once the device has taken the play request (with no current
    track nothing is played and a [playing] status stays);
    with repeat off and a next track in the queue, that track becomes the
    current one and the index advances by one;
    with repeat off and no next track, the status is [stopped]; this is the
    case at the last position of the queue, where the position is reset too. *)
Theorem handleTrackEnd_repeats_advances_or_stops (o : Player.PlayOutcome)
  (s : Player.State) :
  let s' := Player.handleTrackEnd o s in
  (Player.isRepeatingSignal s = true ->
     Player.currentIndexSignal s' = Player.currentIndexSignal s
     /\ Player.currentTrackSignal s' = Player.currentTrackSignal s
     /\ Player.queueSignal s' = Player.queueSignal s
     /\ (Audio.hasDuration (Player.audioElement s) = true ->
         Player.currentTimeSignal s' = 0%Q)
     /\ (o = Player.PlayResolved ->
         Player.currentTrackSignal s <> None
         \/ Player.statusSignal s = Model.playing ->
         Player.statusSignal s' = Model.playing))
  /\ (Player.isRepeatingSignal s = false ->
      forall nextTrack : Track.t,
        Js.at_index (Player.queueSignal s) (Player.currentIndexSignal s + 1)
          = Some nextTrack ->
        Player.currentTrackSignal s' = Some nextTrack
        /\ Player.currentIndexSignal s' = Player.currentIndexSignal s + 1
        /\ (o = Player.PlayResolved -> Player.statusSignal s' = Model.playing))
  /\ (Player.isRepeatingSignal s = false ->
      Js.at_index (Player.queueSignal s) (Player.currentIndexSignal s + 1)
        = None ->
      Player.statusSignal s' = Model.stopped)
  /\ (Player.isRepeatingSignal s = false ->
      Player.currentIndexSignal s
        = Z.of_nat (length (Player.queueSignal s)) - 1 ->
      Player.statusSignal s' = Model.stopped
      /\ Player.currentTimeSignal s' = 0%Q
      /\ Player.currentIndexSignal s' = Player.currentIndexSignal s).
Proof.
  intros s'. subst s'. unfold Player.handleTrackEnd.
  split; [|split; [|split]].
  - intros Hrep. rewrite Hrep.
    destruct (seek_zero_fields s) as (Hi & Ht & Hq & Hst & Hz).
    destruct (play_fields o (Player.seek 0 s)) as (Pi & Pt & Pq & Ptime).
    rewrite Pi, Pt, Pq, Ptime, Hi, Ht, Hq.
    repeat split; [exact Hz|].
    intros -> Hcur. apply play_resolved_status. rewrite Ht, Hst. exact Hcur.
  - intros Hrep nextTrack Hnext. rewrite Hrep.
    apply at_index_Some in Hnext as Hrange.
    unfold Player.hasNext, Player.next. rewrite Hrep.
    destruct (Z.ltb_spec (Player.currentIndexSignal s)
                (Z.of_nat (length (Player.queueSignal s)) - 1)); [|lia].
    rewrite Hnext. apply load_and_play.
  - intros Hrep Hnone. rewrite Hrep.
    unfold Player.hasNext, Player.next. rewrite Hrep.
    destruct (Z.ltb_spec (Player.currentIndexSignal s)
                (Z.of_nat (length (Player.queueSignal s)) - 1)); [|reflexivity].
    rewrite Hnone. unfold Player.play. reflexivity.
  - intros Hrep Hlast. rewrite Hrep.
    unfold Player.hasNext. rewrite Hrep.
    destruct (Z.ltb_spec (Player.currentIndexSignal s)
                (Z.of_nat (length (Player.queueSignal s)) - 1)); [lia|].
    repeat split.
Qed.

Lemma handleTrackEnd_repeats_advances_or_stops_witness :
  Player.currentTimeSignal
    (Player.handleTrackEnd Player.PlayResolved Examples.endOfRepeatedTrack) = 0%Q
  /\ Player.statusSignal
       (Player.handleTrackEnd Player.PlayResolved Examples.endOfRepeatedTrack)
     = Model.playing
  /\ Player.currentIndexSignal
       (Player.handleTrackEnd Player.PlayResolved Examples.endOfFirstTrack) = 1
  /\ Player.statusSignal
       (Player.handleTrackEnd Player.PlayResolved Examples.endOfLastTrack)
     = Model.stopped.
Proof.
  split; [|split; [|split]].
  - destruct (handleTrackEnd_repeats_advances_or_stops Player.PlayResolved
                Examples.endOfRepeatedTrack) as (H & _).
    destruct (H eq_refl) as (_ & _ & _ & Hz & _). apply Hz. reflexivity.
  - destruct (handleTrackEnd_repeats_advances_or_stops Player.PlayResolved
                Examples.endOfRepeatedTrack) as (H & _).
    destruct (H eq_refl) as (_ & _ & _ & _ & Hp). apply Hp; [reflexivity|].
    left. discriminate.
  - destruct (handleTrackEnd_repeats_advances_or_stops Player.PlayResolved
                Examples.endOfFirstTrack) as (_ & H & _).
    destruct (H eq_refl Examples.trackB eq_refl) as (_ & Hi & _). exact Hi.
  - destruct (handleTrackEnd_repeats_advances_or_stops Player.PlayResolved
                Examples.endOfLastTrack) as (_ & _ & H & _).
    apply H; reflexivity.
Defined.

(** ** Playback engine: shuffle *)

Lemma shuffleQueue_fields (random : nat -> nat) (tracks : list Track.t)
  (s : Player.State) :
  Player.originalQueueSignal (Player.shuffleQueue random tracks s)
    = Player.originalQueueSignal s
  /\ Player.currentTrackSignal (Player.shuffleQueue random tracks s)
     = Player.currentTrackSignal s
  /\ Player.isShuffledSignal (Player.shuffleQueue random tracks s)
     = Player.isShuffledSignal s.
Proof.
  unfold Player.shuffleQueue. simpl.
  destruct (Player.currentTrackSignal s) eqn:E; simpl; [|tauto].
  destruct (Js.findIndex _ _ =? -1); simpl; tauto.
Qed.

(** [findIndex(t => t.id === current.id)] over an array that holds the id
    finds a position of the array with that id. *)
Lemma findIndex_sameId (current : Track.t) (arr : list Track.t) :
  In (Track.id current) (map Track.id arr) ->
  Js.findIndex (Player.sameId current) arr <> -1
  /\ exists t, Js.at_index arr (Js.findIndex (Player.sameId current) arr) = Some t
               /\ Track.id t = Track.id current.
Proof.
  intros Hin. apply in_map_iff in Hin as (x & Hid & Hx).
  assert (Hne : Js.findIndex (Player.sameId current) arr <> -1).
  { apply (findIndex_exists _ _ x Hx). unfold Player.sameId.
    apply String.eqb_eq. exact Hid. }
  split; [exact Hne|].
  destruct (findIndex_found _ _ Hne) as (t & Ht & Hp).
  exists t. split; [exact Ht|]. apply String.eqb_eq. exact Hp.
Qed.

(** The index after [shuffleQueue] points at the id of the current track. *)
Lemma shuffleQueue_points_at_current (random : nat -> nat)
  (tracks : list Track.t) (s : Player.State) (current : Track.t) :
  Player.currentTrackSignal s = Some current ->
  In (Track.id current) (map Track.id tracks) ->
  let s' := Player.shuffleQueue random tracks s in
  exists t, Js.at_index (Player.queueSignal s') (Player.currentIndexSignal s')
              = Some t
            /\ Track.id t = Track.id current.
Proof.
  intros Hcur Hin s'. subst s'. unfold Player.shuffleQueue. simpl. rewrite Hcur.
  set (shuffled := Player.shuffleLoop random (length tracks - 1) tracks).
  assert (Hin' : In (Track.id current) (map Track.id shuffled)).
  { eapply Permutation_in; [|exact Hin].
    apply Permutation_map, Permutation_sym, shuffleLoop_Permutation. }
  destruct (findIndex_sameId current shuffled Hin') as (Hne & t & Ht & Hid).
  destruct (Z.eqb_spec (Js.findIndex (Player.sameId current) shuffled) (-1));
    [contradiction|].
  exists t. split; [exact Ht|exact Hid].
Qed.

(** C3.  After [setQueue([A, B], 0)] and [removeFromQueue(1)] the queue is
    [A]; enabling shuffle and disabling it again yields [A, B].  The round
    trip brings the removed track back: the queue it yields does not hold
    the same track ids as the queue it started from.  [removeFromQueue]
    leaves [originalQueue] as it was, where [setQueue], [addToQueue] and
    [clearQueue] keep it in step with the queue, and disabling shuffle copies
    [originalQueue]. *)
Lemma shuffle_roundtrip_gains_removed_track :
  let s := Player.run
             [Player.SetQueue Examples.zeros [Examples.trackA; Examples.trackB] 0;
              Player.RemoveFromQueue 1]
             Player.initial in
  let s2 := Player.toggleShuffle Examples.zeros
              (Player.toggleShuffle Examples.zeros s) in
  map Track.id (Player.queueSignal s) = ["a"]
  /\ map Track.id (Player.queueSignal s2) = ["a"; "b"]
  /\ ~ (forall id, In id (map Track.id (Player.queueSignal s2))
                   <-> In id (map Track.id (Player.queueSignal s))).
Proof.
  split; [reflexivity|]. split; [reflexivity|].
  intros H. specialize (H "b"). simpl in H.
  destruct H as [H _]. destruct H as [H|[]]; [tauto|discriminate H].
Qed.

(** Away from removals.  For every state with shuffle off whose original
    queue holds the same tracks as the live queue Q and whose current track
    has its id in Q: enabling shuffle permutes Q; disabling it again puts the
    original queue back, which has exactly the track ids of Q and is Q itself
    when the original queue is Q; and after each of the two toggles the
    current index is a position of the live queue whose track has the id of
    the current track. *)
Theorem toggleShuffle_twice_restores_queue (random1 random2 : nat -> nat)
  (s : Player.State) (current : Track.t) :
  Player.isShuffledSignal s = false ->
  Permutation (Player.originalQueueSignal s) (Player.queueSignal s) ->
  Player.currentTrackSignal s = Some current ->
  In (Track.id current) (map Track.id (Player.queueSignal s)) ->
  let s1 := Player.toggleShuffle random1 s in
  let s2 := Player.toggleShuffle random2 s1 in
  Permutation (Player.queueSignal s1) (Player.queueSignal s)
  /\ Player.queueSignal s2 = Player.originalQueueSignal s
  /\ Permutation (map Track.id (Player.queueSignal s2))
       (map Track.id (Player.queueSignal s))
  /\ (Player.originalQueueSignal s = Player.queueSignal s ->
      Player.queueSignal s2 = Player.queueSignal s)
  /\ (exists t1, Js.at_index (Player.queueSignal s1) (Player.currentIndexSignal s1)
                   = Some t1
                 /\ Track.id t1 = Track.id current)
  /\ (exists t2, Js.at_index (Player.queueSignal s2) (Player.currentIndexSignal s2)
                   = Some t2
                 /\ Track.id t2 = Track.id current).
Proof.
  intros Hoff Hperm Hcur Hin s1 s2.
  assert (E1 : s1 = Player.shuffleQueue random1 (Player.queueSignal s)
                      (Player.set_isShuffled true s)).
  { subst s1. unfold Player.toggleShuffle. rewrite Hoff. reflexivity. }
  destruct (shuffleQueue_fields random1 (Player.queueSignal s)
              (Player.set_isShuffled true s)) as (Ho1 & Ht1 & Hs1).
  rewrite <- E1 in Ho1, Ht1, Hs1. simpl in Ho1, Ht1, Hs1.
  assert (Hq1 : Permutation (Player.queueSignal s1) (Player.queueSignal s)).
  { rewrite E1, queue_shuffleQueue. apply shuffleLoop_Permutation. }
  assert (Hin0 : In (Track.id current)
                   (map Track.id (Player.originalQueueSignal s))).
  { eapply Permutation_in; [|exact Hin].
    apply Permutation_map, Permutation_sym, Hperm. }
  assert (E2 : s2 =
    let s' := Player.set_queue (Player.originalQueueSignal s1)
                (Player.set_isShuffled false s1) in
    let index := Js.findIndex (Player.sameId current)
                   (Player.originalQueueSignal s1) in
    if index =? -1 then s' else Player.set_currentIndex index s').
  { subst s2. unfold Player.toggleShuffle. rewrite Hs1. simpl.
    rewrite Ht1, Hcur. reflexivity. }
  rewrite Ho1 in E2. simpl in E2.
  destruct (findIndex_sameId current (Player.originalQueueSignal s) Hin0)
    as (Hne & t2 & Hat2 & Hid2).
  destruct (Z.eqb_spec (Js.findIndex (Player.sameId current)
                          (Player.originalQueueSignal s)) (-1));
    [contradiction|].
  assert (Hq2 : Player.queueSignal s2 = Player.originalQueueSignal s)
    by (rewrite E2; reflexivity).
  split; [exact Hq1|]. split; [exact Hq2|].
  split; [rewrite Hq2; apply Permutation_map, Hperm|].
  split; [intros Heq; rewrite Hq2; exact Heq|].
  split.
  - rewrite E1. apply shuffleQueue_points_at_current; [rewrite <- Hcur|exact Hin].
    reflexivity.
  - exists t2. rewrite E2. simpl. split; [exact Hat2|exact Hid2].
Qed.

Lemma toggleShuffle_twice_restores_queue_witness :
  Player.queueSignal
    (Player.toggleShuffle Examples.zeros
       (Player.toggleShuffle Examples.zeros Examples.threeTracks))
  = Player.queueSignal Examples.threeTracks.
Proof.
  destruct (toggleShuffle_twice_restores_queue Examples.zeros Examples.zeros
              Examples.threeTracks Examples.trackB)
    as (_ & _ & _ & H & _).
  - reflexivity.
  - apply Permutation_refl.
  - reflexivity.
  - simpl. right. left. reflexivity.
  - apply H. reflexivity.
Defined.

(** ** Persistence store *)

Lemma or_zero_succ (x : Z) : Js.or_zero x + 1 = x + 1.
Proof. unfold Js.or_zero. destruct (Z.eqb_spec x 0); lia. Qed.

Lemma set_tracksStore_same (s : Storage.State) :
  Storage.set_tracksStore (Storage.tracksStore s) s = s.
Proof. destruct s; reflexivity. Qed.

Lemma set_playlistsStore_same (s : Storage.State) :
  Storage.set_playlistsStore (Storage.playlistsStore s) s = s.
Proof. destruct s; reflexivity. Qed.

(** A loop of [saveTrack] over records that the database accepts. *)
Lemma forEach_saveTrack_accepted (db : Storage.Backend) (ts : list Track.t)
  (s : Storage.State) :
  (forall t, In t ts -> db (Storage.PutTrack t) = None) ->
  Storage.forEach (Storage.saveTrack db) ts s
  = (Storage.set_tracksStore (Storage.withTracks ts (Storage.tracksStore s)) s,
     Storage.Fulfilled tt).
Proof.
  revert s. induction ts as [|t rest IH]; intros s Hok; simpl.
  - rewrite set_tracksStore_same. reflexivity.
  - unfold Storage.bind, Storage.saveTrack at 1, Storage.request.
    rewrite (Hok t) by (left; reflexivity).
    rewrite IH by (intros t' Ht'; apply Hok; right; exact Ht').
    reflexivity.
Qed.

(** A loop of [saveTrack] that meets a record the database rejects: the
    records before it are written, the loop ends there with the rejection. *)
Lemma forEach_saveTrack_rejected (db : Storage.Backend)
  (written : list Track.t) (bad : Track.t) (rest : list Track.t)
  (reason : string) (s : Storage.State) :
  (forall t, In t written -> db (Storage.PutTrack t) = None) ->
  db (Storage.PutTrack bad) = Some reason ->
  Storage.forEach (Storage.saveTrack db) (written ++ bad :: rest) s
  = (Storage.set_storageError "Erreur lors de la sauvegarde de la piste"
       (Storage.set_tracksStore
          (Storage.withTracks written (Storage.tracksStore s)) s),
     Storage.Rejected reason).
Proof.
  revert s. induction written as [|t more IH]; intros s Hok Hbad; simpl.
  - unfold Storage.bind, Storage.saveTrack, Storage.request. rewrite Hbad.
    rewrite set_tracksStore_same. reflexivity.
  - unfold Storage.bind, Storage.saveTrack at 1, Storage.request.
    rewrite (Hok t) by (left; reflexivity).
    rewrite IH; [reflexivity| |exact Hbad].
    intros t' Ht'. apply Hok. right. exact Ht'.
Qed.

Lemma forEach_savePlaylist_accepted (db : Storage.Backend)
  (ps : list Playlist.t) (s : Storage.State) :
  (forall p, In p ps -> db (Storage.PutPlaylist p) = None) ->
  Storage.forEach (Storage.savePlaylist db) ps s
  = (Storage.set_playlistsStore
       (Storage.withPlaylists ps (Storage.playlistsStore s)) s,
     Storage.Fulfilled tt).
Proof.
  revert s. induction ps as [|p rest IH]; intros s Hok; simpl.
  - rewrite set_playlistsStore_same. reflexivity.
  - unfold Storage.bind, Storage.savePlaylist at 1, Storage.request.
    rewrite (Hok p) by (left; reflexivity).
    rewrite IH by (intros p' Hp'; apply Hok; right; exact Hp').
    reflexivity.
Qed.

(** A loop of [savePlaylist] that meets a playlist the database rejects. *)
Lemma forEach_savePlaylist_rejected (db : Storage.Backend)
  (written : list Playlist.t) (bad : Playlist.t) (rest : list Playlist.t)
  (reason : string) (s : Storage.State) :
  (forall p, In p written -> db (Storage.PutPlaylist p) = None) ->
  db (Storage.PutPlaylist bad) = Some reason ->
  Storage.forEach (Storage.savePlaylist db) (written ++ bad :: rest) s
  = (Storage.set_storageError "Erreur lors de la sauvegarde de la playlist"
       (Storage.set_playlistsStore
          (Storage.withPlaylists written (Storage.playlistsStore s)) s),
     Storage.Rejected reason).
Proof.
  revert s. induction written as [|p more IH]; intros s Hok Hbad; simpl.
  - unfold Storage.bind, Storage.savePlaylist, Storage.request. rewrite Hbad.
    rewrite set_playlistsStore_same. reflexivity.
  - unfold Storage.bind, Storage.savePlaylist at 1, Storage.request.
    rewrite (Hok p) by (left; reflexivity).
    rewrite IH; [reflexivity| |exact Hbad].
    intros p' Hp'. apply Hok. right. exact Hp'.
Qed.

(** The loops of [importData] over a member of the document that may be
    missing: a missing member is skipped, like an empty one. *)
Lemma importData_members (db : Storage.Backend) (data : Storage.Snapshot)
  (s : Storage.State) :
  Storage.importData db data s
  = Storage.bind
      (Storage.forEach (Storage.saveTrack db) (default [] (Storage.tracks data)))
      (fun _ => Storage.forEach (Storage.savePlaylist db)
                  (default [] (Storage.playlists data))) s.
Proof.
  unfold Storage.importData, Storage.bind.
  destruct (Storage.tracks data) as [ts|]; simpl.
  - destruct (Storage.forEach (Storage.saveTrack db) ts s) as [s' [v|e]];
      [|reflexivity].
    destruct (Storage.playlists data); reflexivity.
  - destruct (Storage.playlists data); reflexivity.
Qed.

(** An import in which the database accepts every record. *)
Lemma importData_accepted (db : Storage.Backend) (data : Storage.Snapshot)
  (s : Storage.State) (ts : list Track.t) (ps : list Playlist.t) :
  Storage.tracks data = Some ts ->
  Storage.playlists data = Some ps ->
  (forall t, In t ts -> db (Storage.PutTrack t) = None) ->
  (forall p, In p ps -> db (Storage.PutPlaylist p) = None) ->
  Storage.importData db data s
  = (Storage.mkState (Storage.withTracks ts (Storage.tracksStore s))
       (Storage.withPlaylists ps (Storage.playlistsStore s))
       (Storage.storageError s),
     Storage.Fulfilled tt).
Proof.
  intros Hts Hps Hokt Hokp.
  unfold Storage.importData, Storage.bind. rewrite Hts, Hps.
  rewrite (forEach_saveTrack_accepted db ts s Hokt).
  rewrite (forEach_savePlaylist_accepted db ps _ Hokp).
  reflexivity.
Qed.

(** Below 2^53 in magnitude, adding one is exact. *)
Lemma plus_one_exact (x : Z) : Z.abs x < 2 ^ 53 -> Js.plus x 1 = x + 1.
Proof.
  intros Hx. unfold Js.plus, Js.nearest.
  destruct (Z.leb_spec (Z.abs (x + 1)) (2 ^ 53)) as [_|Hbig]; [reflexivity|lia].
Qed.

(** C10, as stated, fails: a track with 2^53 likes is filed again with 2^53
    likes, and 2^53 is the count returned; the count is not raised. *)
Lemma toggleTrackLike_stalls_at_limit :
  let result := Storage.toggleTrackLike Storage.healthy "a" Examples.storeAtLimit in
  Track.likes Examples.trackAtLimit = 2 ^ 53
  /\ Storage.tracksStore Examples.storeAtLimit !! "a" = Some Examples.trackAtLimit
  /\ snd result = Storage.Fulfilled (2 ^ 53)
  /\ Storage.tracksStore (fst result) !! "a" = Some Examples.trackAtLimit
  /\ snd result <> Storage.Fulfilled (Track.likes Examples.trackAtLimit + 1).
Proof.
  split; [reflexivity|]. split; [reflexivity|]. split; [reflexivity|].
  split; [reflexivity|]. intros H. discriminate H.
Qed.

(** C10, amended.  With the database serving the read and the write:
    for an id that the store holds with a like count below 2^53 in
    magnitude, [toggleTrackLike] files the track again with its like count
    raised by exactly one, leaves every other record as it is and returns
    the new count, which is greater than the old one (the count is never
    lowered); for an id that the store does not hold it returns 0 and leaves
    the store as it is. *)
Theorem toggleTrackLike_adds_one_like (db : Storage.Backend) (id : string)
  (s : Storage.State) :
  Storage.keyedById s ->
  db (Storage.GetTrack id) = None ->
  (forall t, db (Storage.PutTrack t) = None) ->
  (forall track : Track.t,
     Storage.tracksStore s !! id = Some track ->
     Z.abs (Track.likes track) < 2 ^ 53 ->
     let liked := Track.set_likes (Track.likes track + 1) track in
     Storage.toggleTrackLike db id s
     = (Storage.set_tracksStore (<[id := liked]> (Storage.tracksStore s)) s,
        Storage.Fulfilled (Track.likes track + 1))
     /\ Track.likes liked = Track.likes track + 1
     /\ Track.likes track < Track.likes liked
     /\ Storage.keyedById (fst (Storage.toggleTrackLike db id s))
     /\ Storage.tracksStore (fst (Storage.toggleTrackLike db id s)) !! id
        = Some liked
     /\ (forall other, other <> id ->
           Storage.tracksStore (fst (Storage.toggleTrackLike db id s)) !! other
           = Storage.tracksStore s !! other))
  /\ (Storage.tracksStore s !! id = None ->
      Storage.toggleTrackLike db id s = (s, Storage.Fulfilled 0)).
Proof.
  intros [Hkey Hkeyp] Hget Hput. split.
  - intros track Hin Hsafe liked. subst liked.
    assert (Hcall : Storage.toggleTrackLike db id s
      = (Storage.set_tracksStore
           (<[id := Track.set_likes (Track.likes track + 1) track]>
              (Storage.tracksStore s)) s,
         Storage.Fulfilled (Track.likes track + 1))).
    { unfold Storage.toggleTrackLike, Storage.bind, Storage.getTrack,
        Storage.saveTrack, Storage.request, Storage.ret.
      rewrite Hget, Hin, Hput. simpl.
      assert (E : Js.plus (Js.or_zero (Track.likes track)) 1
                  = Track.likes track + 1).
      { unfold Js.or_zero. destruct (Z.eqb_spec (Track.likes track) 0) as [->|_];
          [reflexivity|apply plus_one_exact; exact Hsafe]. }
      rewrite E, (Hkey id track Hin). reflexivity. }
    rewrite Hcall. simpl.
    split; [reflexivity|]. split; [reflexivity|]. split; [lia|]. split; [|split].
    + split; simpl; [|exact Hkeyp].
      intros k t Hk. destruct (decide (id = k)) as [<-|Hne].
      * rewrite lookup_insert_eq in Hk. injection Hk as <-.
        simpl. apply (Hkey id track Hin).
      * rewrite lookup_insert_ne in Hk by exact Hne. apply (Hkey k t Hk).
    + apply lookup_insert_eq.
    + intros other Hne. apply lookup_insert_ne. congruence.
  - intros Hout.
    unfold Storage.toggleTrackLike, Storage.bind, Storage.getTrack,
      Storage.request, Storage.ret.
    rewrite Hget, Hout. reflexivity.
Qed.

Lemma toggleTrackLike_adds_one_like_witness :
  snd (Storage.toggleTrackLike Storage.healthy "a" Examples.storeWithA)
    = Storage.Fulfilled 1
  /\ Storage.toggleTrackLike Storage.healthy "z" Examples.storeWithA
     = (Examples.storeWithA, Storage.Fulfilled 0).
Proof.
  assert (Hkey : Storage.keyedById Examples.storeWithA).
  { split; intros k t Hk; simpl in Hk.
    - apply lookup_singleton_Some in Hk as [<- <-]. reflexivity.
    - rewrite lookup_empty in Hk. discriminate. }
  destruct (toggleTrackLike_adds_one_like Storage.healthy "a"
              Examples.storeWithA Hkey eq_refl (fun _ => eq_refl)) as (H & _).
  destruct (toggleTrackLike_adds_one_like Storage.healthy "z"
              Examples.storeWithA Hkey eq_refl (fun _ => eq_refl)) as (_ & H').
  split.
  - destruct (H Examples.trackA eq_refl) as (-> & _); [reflexivity|].
    reflexivity.
  - apply H'. reflexivity.
Defined.

(** C5, as stated, fails: with a first record that the database rejects, the
    import ends on that record; the second record, which the database would
    accept, is not written. *)
Lemma importData_stops_at_rejected_record :
  let data := Storage.mkSnapshot (Some [Examples.trackA; Examples.trackB])
                (Some []) (Model.IsoString 0) "1.0" in
  let result := Storage.importData Examples.rejectsA data Storage.empty in
  Examples.rejectsA (Storage.PutTrack Examples.trackB) = None
  /\ Storage.tracksStore (fst result) !! "b" = None
  /\ snd result = Storage.Rejected "QuotaExceededError".
Proof. repeat split. Qed.

(** C5, amended.  [importData] writes the records one by one, the tracks
    first and then the playlists, in the order of the document, each in a
    transaction of its own; a member that the document does not have counts
    as empty.  When the database rejects a record, the records written before
    it stay in the store, the rejected record and every record after it are
    not written (after a track: the tracks that follow and the playlists;
    after a playlist: the playlists that follow), and the import is rejected
    with the error of that record.  When the database accepts every record,
    all of them are written. *)
Theorem importData_stops_at_first_rejection (db : Storage.Backend)
  (data : Storage.Snapshot) (s : Storage.State) :
  let tracks := default [] (Storage.tracks data) in
  let playlists := default [] (Storage.playlists data) in
  (forall (written : list Track.t) (bad : Track.t) (rest : list Track.t)
          (reason : string),
     tracks = written ++ bad :: rest ->
     (forall t, In t written -> db (Storage.PutTrack t) = None) ->
     db (Storage.PutTrack bad) = Some reason ->
     Storage.importData db data s
     = (Storage.set_storageError "Erreur lors de la sauvegarde de la piste"
          (Storage.set_tracksStore
             (Storage.withTracks written (Storage.tracksStore s)) s),
        Storage.Rejected reason))
  /\ (forall (written : list Playlist.t) (bad : Playlist.t)
             (rest : list Playlist.t) (reason : string),
        (forall t, In t tracks -> db (Storage.PutTrack t) = None) ->
        playlists = written ++ bad :: rest ->
        (forall p, In p written -> db (Storage.PutPlaylist p) = None) ->
        db (Storage.PutPlaylist bad) = Some reason ->
        Storage.importData db data s
        = (Storage.mkState (Storage.withTracks tracks (Storage.tracksStore s))
             (Storage.withPlaylists written (Storage.playlistsStore s))
             (Some "Erreur lors de la sauvegarde de la playlist"),
           Storage.Rejected reason))
  /\ ((forall t, In t tracks -> db (Storage.PutTrack t) = None) ->
      (forall p, In p playlists -> db (Storage.PutPlaylist p) = None) ->
      Storage.importData db data s
      = (Storage.mkState (Storage.withTracks tracks (Storage.tracksStore s))
           (Storage.withPlaylists playlists (Storage.playlistsStore s))
           (Storage.storageError s),
         Storage.Fulfilled tt)).
Proof.
  intros tracks playlists. rewrite importData_members.
  fold tracks. fold playlists. unfold Storage.bind.
  split; [|split].
  - intros written bad rest reason Hdoc Hok Hbad. rewrite Hdoc.
    rewrite (forEach_saveTrack_rejected db written bad rest reason s Hok Hbad).
    reflexivity.
  - intros written bad rest reason Hokt Hdoc Hok Hbad.
    rewrite (forEach_saveTrack_accepted db tracks s Hokt), Hdoc.
    rewrite (forEach_savePlaylist_rejected db written bad rest reason _ Hok Hbad).
    reflexivity.
  - intros Hokt Hokp.
    rewrite (forEach_saveTrack_accepted db tracks s Hokt).
    rewrite (forEach_savePlaylist_accepted db playlists _ Hokp).
    reflexivity.
Qed.

Lemma importData_stops_at_first_rejection_witness :
  Storage.tracksStore
    (fst (Storage.importData Examples.rejectsA
            (Storage.mkSnapshot (Some [Examples.trackB; Examples.trackA; Examples.trackC])
               None (Model.IsoString 0) "1.0")
            Storage.empty))
    = {[ "b" := Examples.trackB ]}
  /\ snd (Storage.importData Examples.rejectsA
            (Storage.mkSnapshot (Some [Examples.trackB; Examples.trackC])
               None (Model.IsoString 0) "1.0")
            Storage.empty)
     = Storage.Fulfilled tt.
Proof.
  split.
  - destruct (importData_stops_at_first_rejection Examples.rejectsA
                (Storage.mkSnapshot
                   (Some [Examples.trackB; Examples.trackA; Examples.trackC])
                   None (Model.IsoString 0) "1.0")
                Storage.empty) as (H & _).
    rewrite (H [Examples.trackB] Examples.trackA [Examples.trackC]
               "QuotaExceededError" eq_refl).
    + reflexivity.
    + intros t [<-|[]]. reflexivity.
    + reflexivity.
  - destruct (importData_stops_at_first_rejection Examples.rejectsA
                (Storage.mkSnapshot (Some [Examples.trackB; Examples.trackC])
                   None (Model.IsoString 0) "1.0")
                Storage.empty) as (_ & _ & H).
    rewrite H.
    + reflexivity.
    + intros t [<-|[<-|[]]]; reflexivity.
    + intros p [].
Defined.

Lemma withTracks_lookup_other (ts : list Track.t) (m : gmap string Track.t)
  (k : string) :
  (forall t, In t ts -> Track.id t <> k) ->
  Storage.withTracks ts m !! k = m !! k.
Proof.
  revert m. induction ts as [|t rest IH]; intros m Hne; simpl; [reflexivity|].
  unfold Storage.withTracks in *. simpl. rewrite IH.
  - apply lookup_insert_ne. apply Hne. left. reflexivity.
  - intros t' Ht'. apply Hne. right. exact Ht'.
Qed.

Lemma withTracks_lookup_member (ts : list Track.t) (m : gmap string Track.t)
  (t : Track.t) :
  List.NoDup (map Track.id ts) -> In t ts ->
  Storage.withTracks ts m !! Track.id t = Some t.
Proof.
  revert m. induction ts as [|x rest IH]; intros m Hnd Hin; simpl in *; [tauto|].
  inversion Hnd as [|? ? Hfresh Hnd']; subst.
  unfold Storage.withTracks in *. simpl.
  destruct Hin as [->|Hin].
  - fold (Storage.withTracks rest (<[Track.id t:=t]> m)).
    rewrite withTracks_lookup_other; [apply lookup_insert_eq|].
    intros t' Ht' Heq. apply Hfresh. rewrite <- Heq. apply in_map. exact Ht'.
  - apply IH; assumption.
Qed.

Lemma withPlaylists_lookup_other (ps : list Playlist.t)
  (m : gmap string Playlist.t) (k : string) :
  (forall p, In p ps -> Playlist.id p <> k) ->
  Storage.withPlaylists ps m !! k = m !! k.
Proof.
  revert m. induction ps as [|p rest IH]; intros m Hne; simpl; [reflexivity|].
  unfold Storage.withPlaylists in *. simpl. rewrite IH.
  - apply lookup_insert_ne. apply Hne. left. reflexivity.
  - intros p' Hp'. apply Hne. right. exact Hp'.
Qed.

Lemma withPlaylists_lookup_member (ps : list Playlist.t)
  (m : gmap string Playlist.t) (p : Playlist.t) :
  List.NoDup (map Playlist.id ps) -> In p ps ->
  Storage.withPlaylists ps m !! Playlist.id p = Some p.
Proof.
  revert m. induction ps as [|x rest IH]; intros m Hnd Hin; simpl in *; [tauto|].
  inversion Hnd as [|? ? Hfresh Hnd']; subst.
  unfold Storage.withPlaylists in *. simpl.
  destruct Hin as [->|Hin].
  - fold (Storage.withPlaylists rest (<[Playlist.id p:=p]> m)).
    rewrite withPlaylists_lookup_other; [apply lookup_insert_eq|].
    intros p' Hp' Heq. apply Hfresh. rewrite <- Heq. apply in_map. exact Hp'.
  - apply IH; assumption.
Qed.

(** Writing back the records of a store, each passed through a function [f]
    that keeps ids, into an empty store gives the store mapped by [f]. *)
Section Reload.
Context {R : Type} (key : R -> string) (f : R -> R).
Context (put : list R -> gmap string R -> gmap string R).
Hypothesis key_f : forall r, key (f r) = key r.
Hypothesis put_other : forall rs m k,
  (forall r, In r rs -> key r <> k) -> put rs m !! k = m !! k.
Hypothesis put_member : forall rs m r,
  List.NoDup (map key rs) -> In r rs -> put rs m !! key r = Some r.

Lemma reload_store (m : gmap string R) :
  (forall k r, m !! k = Some r -> key r = k) ->
  put (map f (map_to_list m).*2) ∅ = f <$> m.
Proof.
  intros Hkey.
  assert (Hkeys : map key (map f (map_to_list m).*2) = (map_to_list m).*1).
  { assert (Hall : forall p, In p (map_to_list m) -> key (f p.2) = p.1).
    { intros [k r] Hp. simpl. rewrite key_f. apply Hkey.
      apply elem_of_map_to_list, list_elem_of_In. exact Hp. }
    induction (map_to_list m) as [|p l IH]; simpl; [reflexivity|].
    rewrite Hall by (left; reflexivity).
    f_equal. apply IH. intros q Hq. apply Hall. right. exact Hq. }
  apply map_eq. intros k. rewrite lookup_fmap.
  destruct (m !! k) as [r|] eqn:Hk; simpl.
  - rewrite <- (Hkey k r Hk), <- (key_f r). apply put_member.
    + rewrite Hkeys. apply NoDup_ListNoDup, NoDup_fst_map_to_list.
    + apply in_map. apply in_map_iff. exists (k, r). split; [reflexivity|].
      apply list_elem_of_In, elem_of_map_to_list. exact Hk.
  - rewrite put_other; [apply lookup_empty|].
    intros r Hr Heq.
    assert (Hin : In k (map key (map f (map_to_list m).*2))).
    { rewrite <- Heq. apply in_map. exact Hr. }
    rewrite Hkeys in Hin. apply in_map_iff in Hin as ([k' r'] & Hfst & Hin).
    simpl in Hfst. subst k'.
    apply list_elem_of_In, elem_of_map_to_list in Hin. congruence.
Qed.

End Reload.

(** C6, as stated, fails: a track whose [addedDate] is a [Date] object comes
    back from the export and the import with the ISO string of the date, so
    the record of the new store is not the record of the old one. *)
Lemma export_import_changes_date_field :
  let exported := Storage.exportData Storage.healthy 5000 Examples.storeWithA in
  let imported :=
    match snd exported with
    | Storage.Fulfilled data =>
        fst (Storage.importData Storage.healthy data Storage.empty)
    | Storage.Rejected _ => Storage.empty
    end in
  Storage.tracksStore Examples.storeWithA !! "a" = Some Examples.trackA
  /\ Track.addedDate Examples.trackA = Model.DateObject 1000
  /\ (exists t, Storage.tracksStore imported !! "a" = Some t
                /\ Track.addedDate t = Model.IsoString 1000)
  /\ Storage.tracksStore imported <> Storage.tracksStore Examples.storeWithA.
Proof.
  split; [reflexivity|]. split; [reflexivity|]. split.
  - exists (Track.toJSON Examples.trackA). split; reflexivity.
  - intros Heq. apply (f_equal (fun m => m !! "a")) in Heq.
    vm_compute in Heq. discriminate Heq.
Qed.

(** C6, amended.  For every store whose records sit under their ids, and a
    database that serves every request: exporting the store and importing the
    document into an empty store gives a store with the same ids, where every
    track and every playlist has the field values it had, except that the
    date fields ([addedDate], [createdDate]) hold the ISO string of the
    instant they held. *)
Theorem export_then_import_reproduces_store (db : Storage.Backend) (now : Z)
  (s : Storage.State) :
  Storage.keyedById s ->
  (forall r, db r = None) ->
  exists data : Storage.Snapshot,
    Storage.exportData db now s = (s, Storage.Fulfilled data)
    /\ Storage.importData db data Storage.empty
       = (Storage.mkState (Track.toJSON <$> Storage.tracksStore s)
            (Playlist.toJSON <$> Storage.playlistsStore s) None,
          Storage.Fulfilled tt).
Proof.
  intros [Hkt Hkp] Hdb.
  eexists. split.
  - unfold Storage.exportData, Storage.bind, Storage.getAllTracks,
      Storage.getAllPlaylists, Storage.request, Storage.ret.
    rewrite !Hdb. reflexivity.
  - erewrite importData_accepted;
      [|reflexivity|reflexivity|intros; apply Hdb|intros; apply Hdb].
    simpl. f_equal. f_equal.
    + apply (reload_store Track.id Track.toJSON Storage.withTracks).
      * intros r. reflexivity.
      * intros rs m k. apply withTracks_lookup_other.
      * intros rs m r. apply withTracks_lookup_member.
      * exact Hkt.
    + apply (reload_store Playlist.id Playlist.toJSON Storage.withPlaylists).
      * intros r. reflexivity.
      * intros rs m k. apply withPlaylists_lookup_other.
      * intros rs m r. apply withPlaylists_lookup_member.
      * exact Hkp.
Qed.

Lemma storeWithA_keyedById : Storage.keyedById Examples.storeWithA.
Proof.
  split; intros k t Hk; simpl in Hk.
  - apply lookup_singleton_Some in Hk as [<- <-]. reflexivity.
  - rewrite lookup_empty in Hk. discriminate.
Qed.

Lemma export_then_import_reproduces_store_witness :
  exists data : Storage.Snapshot,
    Storage.exportData Storage.healthy 5000 Examples.storeWithA
    = (Examples.storeWithA, Storage.Fulfilled data)
    /\ Storage.importData Storage.healthy data Storage.empty
       = (Storage.mkState
            (Track.toJSON <$> Storage.tracksStore Examples.storeWithA)
            (Playlist.toJSON <$> Storage.playlistsStore Examples.storeWithA)
            None,
          Storage.Fulfilled tt).
Proof.
  apply (export_then_import_reproduces_store Storage.healthy 5000
           Examples.storeWithA).
  - exact storeWithA_keyedById.
  - intros r. reflexivity.
Defined.

(** ** Library index *)

Lemma filter_twice {A : Type} (p : A -> bool) (l : list A) :
  List.filter p (List.filter p l) = List.filter p l.
Proof.
  induction l as [|x rest IH]; simpl; [reflexivity|].
  destruct (p x) eqn:E; simpl; rewrite ?E, IH; reflexivity.
Qed.

Lemma filter_all {A : Type} (p : A -> bool) (l : list A) :
  (forall x, In x l -> p x = true) -> List.filter p l = l.
Proof.
  induction l as [|x rest IH]; intros H; simpl; [reflexivity|].
  rewrite (H x) by (left; reflexivity). f_equal.
  apply IH. intros y Hy. apply H. right. exact Hy.
Qed.

(** C8.  With the database serving the delete request, deleting a track id
    a second time succeeds and returns the state, store and projection
    included, that the first delete left; the sorted and filtered view of the
    library is therefore the same after one delete and after two.  A delete
    of an id that neither the store nor the projection holds succeeds and
    leaves both as they are. *)
Theorem deleteTrack_twice_is_deleteTrack_once (db : Storage.Backend)
  (id : string) (s : Library.State) :
  db (Storage.DeleteTrack id) = None ->
  let once := Library.deleteTrack db id s in
  let twice := Library.deleteTrack db id (fst once) in
  snd once = Storage.Fulfilled tt
  /\ snd twice = Storage.Fulfilled tt
  /\ fst twice = fst once
  /\ (forall sort, Library.tracks sort (fst twice) = Library.tracks sort (fst once))
  /\ (Storage.tracksStore (Library.storageService s) !! id = None ->
      (forall t, In t (Library.tracksSignal s) -> Track.id t <> id) ->
      Library.storageService (fst once) = Library.storageService s
      /\ Library.tracksSignal (fst once) = Library.tracksSignal s).
Proof.
  intros Hdb once twice.
  assert (Honce : once =
    (Library.mkState
       (Storage.set_tracksStore
          (delete id (Storage.tracksStore (Library.storageService s)))
          (Library.storageService s))
       (List.filter (fun t => negb (String.eqb (Track.id t) id))
          (Library.tracksSignal s))
       Library.success (Library.errorMessage s) (Library.currentFilter s)
       (Library.sortBySignal s) (Library.sortOrderSignal s),
     Storage.Fulfilled tt)).
  { subst once. unfold Library.deleteTrack, Storage.deleteTrack, Storage.request.
    simpl. rewrite Hdb. reflexivity. }
  assert (Htwice : twice = once).
  { subst twice. rewrite Honce at 1. simpl.
    unfold Library.deleteTrack, Storage.deleteTrack, Storage.request.
    simpl. rewrite Hdb. simpl. rewrite Honce.
    rewrite delete_delete_eq, filter_twice. reflexivity. }
  rewrite Htwice. rewrite Honce. simpl.
  repeat split.
  - rewrite delete_id by assumption. apply set_tracksStore_same.
  - apply filter_all. intros t Ht. apply negb_true_iff.
    apply String.eqb_neq. auto.
Qed.

Lemma deleteTrack_twice_is_deleteTrack_once_witness :
  fst (Library.deleteTrack Storage.healthy "a"
         (fst (Library.deleteTrack Storage.healthy "a" Examples.libraryWithA)))
  = fst (Library.deleteTrack Storage.healthy "a" Examples.libraryWithA).
Proof.
  destruct (deleteTrack_twice_is_deleteTrack_once Storage.healthy "a"
              Examples.libraryWithA eq_refl) as (_ & _ & H & _).
  exact H.
Defined.

(** The comparator of [tracks] answers 1 or -1 and never 0, also for two
    tracks with the same key, so it is not a consistent comparator. *)
Lemma compareFn_never_zero (sortBy : Model.SortBy) (sortOrder : Model.SortOrder)
  (a b : Track.t) :
  Library.compareFn sortBy sortOrder a b = 1
  \/ Library.compareFn sortBy sortOrder a b = -1.
Proof.
  unfold Library.compareFn. destruct sortOrder.
  - destruct (Library.greater _ _); [left|right]; reflexivity.
  - destruct (Library.less _ _); [left|right]; reflexivity.
Qed.

Lemma greater_irreflexive (v : Library.SortValue) : Library.greater v v = false.
Proof.
  destruct v as [x|q]; simpl.
  - unfold String.ltb. pose proof (String.compare_antisym x x) as Hanti.
    destruct (String.compare x x); simpl in Hanti; congruence.
  - apply Qgtb_false. apply Qle_refl.
Qed.

Lemma compareFn_same_track (sortBy : Model.SortBy) (sortOrder : Model.SortOrder)
  (a : Track.t) :
  Library.compareFn sortBy sortOrder a a = -1.
Proof.
  unfold Library.compareFn, Library.less. destruct sortOrder;
    rewrite greater_irreflexive; reflexivity.
Qed.

(** C4 (the code departs from the claim).  Two tracks with the same title,
    sorted by title in ascending order: the comparator answers -1 for the
    pair in either order, and binary insertion puts the second track before
    the first, so the tie is not broken by input order; sorting the output
    once more swaps the two tracks back. *)
Theorem tracks_reverses_equal_titles :
  let sorted := Library.tracks Engine.binaryInsertionSort Examples.sameTitles in
  Library.tracksSignal Examples.sameTitles = [Examples.trackA; Examples.trackB]
  /\ Library.compareFn Model.TITLE Model.ASC Examples.trackA Examples.trackB = -1
  /\ Library.compareFn Model.TITLE Model.ASC Examples.trackB Examples.trackA = -1
  /\ sorted = [Examples.trackB; Examples.trackA]
  /\ Library.tracks Engine.binaryInsertionSort
       (Library.set_tracks sorted Examples.sameTitles)
     = [Examples.trackA; Examples.trackB].
Proof. repeat split. Qed.

(** * Further properties *)

(** ** Playback engine: what the transport leaves alone *)

Lemma frame_loadTrack (track : option Track.t) (s : Player.State) :
  Player.originalQueueSignal (Player.loadTrack track s)
    = Player.originalQueueSignal s
  /\ Player.isShuffledSignal (Player.loadTrack track s)
     = Player.isShuffledSignal s
  /\ Player.isRepeatingSignal (Player.loadTrack track s)
     = Player.isRepeatingSignal s
  /\ Player.currentTimeSignal (Player.loadTrack track s)
     = Player.currentTimeSignal s.
Proof.
  unfold Player.loadTrack. destruct track as [tr|]; simpl; [|tauto].
  destruct (Js.findIndex _ _ =? -1); simpl; tauto.
Qed.

Lemma frame_play (o : Player.PlayOutcome) (s : Player.State) :
  Player.originalQueueSignal (Player.play o s) = Player.originalQueueSignal s
  /\ Player.isShuffledSignal (Player.play o s) = Player.isShuffledSignal s
  /\ Player.isRepeatingSignal (Player.play o s) = Player.isRepeatingSignal s.
Proof.
  unfold Player.play. destruct (Player.currentTrackSignal s), o; simpl; tauto.
Qed.

Lemma frame_seek (time : Q) (s : Player.State) :
  Player.queueSignal (Player.seek time s) = Player.queueSignal s
  /\ Player.originalQueueSignal (Player.seek time s)
     = Player.originalQueueSignal s
  /\ Player.currentIndexSignal (Player.seek time s)
     = Player.currentIndexSignal s
  /\ Player.currentTrackSignal (Player.seek time s)
     = Player.currentTrackSignal s
  /\ Player.statusSignal (Player.seek time s) = Player.statusSignal s
  /\ Player.isShuffledSignal (Player.seek time s) = Player.isShuffledSignal s
  /\ Player.isRepeatingSignal (Player.seek time s)
     = Player.isRepeatingSignal s.
Proof.
  unfold Player.seek, Player.duration.
  destruct (Audio.hasDuration (Player.audioElement s)); [|tauto].
  destruct (Player.durationCache s); simpl; tauto.
Qed.

(** A track loaded at position [i] of the queue and played: the queues are
    the ones before, and the index is on the current track. *)
Lemma load_and_play_onCurrent (o : Player.PlayOutcome) (tr : Track.t) (i : Z)
  (s : Player.State) :
  Js.at_index (Player.queueSignal s) i = Some tr ->
  let s' := Player.play o
              (Player.set_currentIndex i (Player.loadTrack (Some tr) s)) in
  Player.onCurrent s'
  /\ Player.queueSignal s' = Player.queueSignal s
  /\ Player.originalQueueSignal s' = Player.originalQueueSignal s.
Proof.
  intros Hat s'.
  destruct (load_and_play o tr i s) as (Ht & Hi & _).
  destruct (play_fields o
    (Player.set_currentIndex i (Player.loadTrack (Some tr) s)))
    as (_ & _ & Hq & _).
  destruct (frame_play o
    (Player.set_currentIndex i (Player.loadTrack (Some tr) s)))
    as (Ho & _).
  assert (Hq' : Player.queueSignal s' = Player.queueSignal s).
  { subst s'. rewrite Hq. exact (queue_loadTrack (Some tr) s). }
  assert (Ho' : Player.originalQueueSignal s' = Player.originalQueueSignal s).
  { subst s'. rewrite Ho. exact (proj1 (frame_loadTrack (Some tr) s)). }
  split; [|split; assumption].
  exists tr. subst s'. rewrite Ht. split; [reflexivity|].
  rewrite Hi, Hq'. exact Hat.
Qed.

Lemma onCurrent_inside (s : Player.State) :
  Player.onCurrent s -> Player.indexInQueue s.
Proof.
  intros (t & _ & Hat). unfold Player.indexInQueue.
  exact (at_index_Some _ _ _ Hat).
Qed.

Lemma next_keeps_pointer (o : Player.PlayOutcome) (s : Player.State) :
  Player.onCurrent s ->
  Player.onCurrent (Player.next o s)
  /\ Player.queueSignal (Player.next o s) = Player.queueSignal s
  /\ Player.originalQueueSignal (Player.next o s)
     = Player.originalQueueSignal s.
Proof.
  intros Hon. pose proof (onCurrent_inside s Hon) as Hin.
  unfold Player.indexInQueue in Hin. unfold Player.next.
  destruct (Z.ltb_spec (Player.currentIndexSignal s)
              (Z.of_nat (length (Player.queueSignal s)) - 1)) as [Hlt|Hge].
  - destruct (at_index_inside (Player.queueSignal s)
                (Player.currentIndexSignal s + 1)) as [t' Ht']; [lia|].
    rewrite Ht'. apply load_and_play_onCurrent. exact Ht'.
  - destruct (Player.isRepeatingSignal s); [|tauto].
    destruct (at_index_inside (Player.queueSignal s) 0) as [t0 Ht0]; [lia|].
    rewrite Ht0. apply load_and_play_onCurrent. exact Ht0.
Qed.

Lemma previous_keeps_pointer (o : Player.PlayOutcome) (s : Player.State) :
  Player.onCurrent s ->
  Player.onCurrent (Player.previous o s)
  /\ Player.queueSignal (Player.previous o s) = Player.queueSignal s
  /\ Player.originalQueueSignal (Player.previous o s)
     = Player.originalQueueSignal s.
Proof.
  intros Hon. pose proof (onCurrent_inside s Hon) as Hin.
  unfold Player.indexInQueue in Hin. unfold Player.previous.
  destruct (Js.Qgtb (Player.currentTimeSignal s) 3).
  - destruct (frame_seek 0 s) as (Hq & Ho & Hi & Ht & _).
    split; [|split; assumption].
    destruct Hon as (t & Hcur & Hat). exists t. rewrite Ht, Hi, Hq. tauto.
  - destruct (Z.ltb_spec 0 (Player.currentIndexSignal s)); [|tauto].
    destruct (at_index_inside (Player.queueSignal s)
                (Player.currentIndexSignal s - 1)) as [t' Ht']; [lia|].
    rewrite Ht'. apply load_and_play_onCurrent. exact Ht'.
Qed.

(** X1.  From a state whose index is on the current track, [next()],
    [previous()] and the end of a track leave the index on the current track
    (so inside the queue), and none of them edits the queue or the original
    queue. *)
Theorem transport_keeps_pointer_and_queue (o : Player.PlayOutcome)
  (s : Player.State) :
  Player.onCurrent s ->
  forall s',
    s' = Player.next o s \/ s' = Player.previous o s
    \/ s' = Player.handleTrackEnd o s ->
    Player.onCurrent s'
    /\ Player.indexInQueue s'
    /\ Player.queueSignal s' = Player.queueSignal s
    /\ Player.originalQueueSignal s' = Player.originalQueueSignal s.
Proof.
  intros Hon s' Hs'.
  assert (H : Player.onCurrent s'
              /\ Player.queueSignal s' = Player.queueSignal s
              /\ Player.originalQueueSignal s' = Player.originalQueueSignal s).
  { destruct Hs' as [->|[->| ->]].
    - apply next_keeps_pointer. exact Hon.
    - apply previous_keeps_pointer. exact Hon.
    - unfold Player.handleTrackEnd.
      destruct (Player.isRepeatingSignal s) eqn:Hrep.
      + destruct (frame_seek 0 s) as (Hq & Ho & Hi & Ht & _).
        destruct (play_fields o (Player.seek 0 s)) as (Pi & Pt & Pq & _).
        destruct (frame_play o (Player.seek 0 s)) as (Po & _).
        rewrite Pq, Po, Hq, Ho. split; [|tauto].
        destruct Hon as (t & Hcur & Hat). exists t.
        rewrite Pt, Pi, Pq, Ht, Hi, Hq. tauto.
      + destruct (Player.hasNext s).
        * apply next_keeps_pointer. exact Hon.
        * split; [|tauto]. destruct Hon as (t & Hcur & Hat). exists t.
          unfold Player.stop. simpl. tauto. }
  destruct H as (H1 & H2 & H3).
  split; [exact H1|]. split; [apply onCurrent_inside; exact H1|]. tauto.
Qed.

Lemma transport_keeps_pointer_and_queue_witness :
  Player.onCurrent (Player.next Player.PlayResolved Examples.endOfFirstTrack)
  /\ Player.queueSignal (Player.handleTrackEnd Player.PlayResolved
                           Examples.endOfLastTrack)
     = [Examples.trackA; Examples.trackB].
Proof.
  assert (Hon1 : Player.onCurrent Examples.endOfFirstTrack)
    by (exists Examples.trackA; split; reflexivity).
  assert (Hon2 : Player.onCurrent Examples.endOfLastTrack)
    by (exists Examples.trackB; split; reflexivity).
  split.
  - apply (transport_keeps_pointer_and_queue Player.PlayResolved
             Examples.endOfFirstTrack Hon1). left. reflexivity.
  - apply (transport_keeps_pointer_and_queue Player.PlayResolved
             Examples.endOfLastTrack Hon2
             (Player.handleTrackEnd Player.PlayResolved Examples.endOfLastTrack)).
    right. right. reflexivity.
Defined.

(** X2.  [previous()] undoes [next()]: from a state whose index is on the
    current track, at most 3 seconds into it and with a track after it,
    [next()] followed by [previous()] is back on the same index and the same
    track, with the queue as it was. *)
Theorem previous_after_next_returns (o1 o2 : Player.PlayOutcome)
  (s : Player.State) (current : Track.t) :
  Player.currentTrackSignal s = Some current ->
  Js.at_index (Player.queueSignal s) (Player.currentIndexSignal s)
    = Some current ->
  (Player.currentTimeSignal s <= 3)%Q ->
  Player.currentIndexSignal s + 1 < Z.of_nat (length (Player.queueSignal s)) ->
  let s' := Player.previous o2 (Player.next o1 s) in
  Player.currentIndexSignal s' = Player.currentIndexSignal s
  /\ Player.currentTrackSignal s' = Some current
  /\ Player.queueSignal s' = Player.queueSignal s.
Proof.
  intros Hcur Hat Hearly Hnext s'.
  pose proof (at_index_Some _ _ _ Hat) as Hin.
  destruct (at_index_inside (Player.queueSignal s)
              (Player.currentIndexSignal s + 1)) as [t' Ht']; [lia|].
  assert (Hn : Player.next o1 s
    = Player.play o1 (Player.set_currentIndex (Player.currentIndexSignal s + 1)
                        (Player.loadTrack (Some t') s))).
  { unfold Player.next.
    destruct (Z.ltb_spec (Player.currentIndexSignal s)
                (Z.of_nat (length (Player.queueSignal s)) - 1)); [|lia].
    rewrite Ht'. reflexivity. }
  destruct (load_and_play o1 t' (Player.currentIndexSignal s + 1) s)
    as (_ & Hi1 & _).
  destruct (load_and_play_onCurrent o1 t' (Player.currentIndexSignal s + 1) s Ht')
    as (_ & Hq1 & _).
  destruct (play_fields o1
    (Player.set_currentIndex (Player.currentIndexSignal s + 1)
       (Player.loadTrack (Some t') s))) as (_ & _ & _ & Htime).
  rewrite <- Hn in Hi1, Hq1, Htime.
  assert (Htime1 : Player.currentTimeSignal (Player.next o1 s)
                   = Player.currentTimeSignal s).
  { rewrite Htime. exact (proj2 (proj2 (proj2 (frame_loadTrack (Some t') s)))). }
  assert (Hp : s' = Player.play o2
    (Player.set_currentIndex (Player.currentIndexSignal s)
       (Player.loadTrack (Some current) (Player.next o1 s)))).
  { subst s'. unfold Player.previous. rewrite Htime1.
    rewrite (proj2 (Qgtb_false _ _) Hearly). rewrite Hi1, Hq1.
    destruct (Z.ltb_spec 0 (Player.currentIndexSignal s + 1)); [|lia].
    replace (Player.currentIndexSignal s + 1 - 1)
      with (Player.currentIndexSignal s) by lia.
    rewrite Hat. reflexivity. }
  destruct (load_and_play o2 current (Player.currentIndexSignal s)
              (Player.next o1 s)) as (Ht2 & Hi2 & _).
  destruct (load_and_play_onCurrent o2 current (Player.currentIndexSignal s)
              (Player.next o1 s)) as (_ & Hq2 & _).
  { rewrite Hq1. exact Hat. }
  rewrite Hp. rewrite Ht2, Hi2, Hq2, Hq1. tauto.
Qed.

Lemma previous_after_next_returns_witness :
  Player.currentIndexSignal
    (Player.previous Player.PlayResolved
       (Player.next Player.PlayResolved Examples.threeTracks)) = 1.
Proof.
  apply (previous_after_next_returns Player.PlayResolved Player.PlayResolved
           Examples.threeTracks Examples.trackB).
  - reflexivity.
  - reflexivity.
  - discriminate.
  - simpl. lia.
Defined.

(** ** Playback engine: queue edits in detail *)

Lemma filter_index_ne_delete {A : Type} (index i : Z) (arr : list A) :
  i <= index ->
  Js.filter_index_ne index i arr = delete (Z.to_nat (index - i)) arr.
Proof.
  revert i. induction arr as [|x rest IH]; intros i Hi; simpl; [reflexivity|].
  destruct (Z.eqb_spec i index) as [->|Hne].
  - rewrite filter_index_ne_before by lia.
    replace (Z.to_nat (index - index)) with O by lia. reflexivity.
  - rewrite IH by lia.
    replace (Z.to_nat (index - i)) with (S (Z.to_nat (index - (i + 1)))) by lia.
    reflexivity.
Qed.

Lemma slice_split {A : Type} (arr : list A) (k : Z) :
  let r := Z.to_nat (Js.relative (Z.of_nat (length arr)) k) in
  Js.slice arr 0 k = take r arr /\ Js.slice_from arr k = drop r arr.
Proof.
  intros r. subst r. unfold Js.slice_from, Js.slice.
  set (len := Z.of_nat (length arr)).
  assert (H0 : Js.relative len 0 = 0).
  { unfold Js.relative. simpl. lia. }
  assert (Hlen : Js.relative len len = len).
  { unfold Js.relative. destruct (Z.ltb_spec len 0); lia. }
  assert (Hk : 0 <= Js.relative len k <= len).
  { unfold Js.relative. destruct (Z.ltb_spec k 0); lia. }
  rewrite H0, Hlen. split.
  - rewrite drop_0. f_equal. lia.
  - apply take_ge. rewrite length_drop. lia.
Qed.

Lemma at_index_nat {A : Type} (arr : list A) (n : nat) :
  Js.at_index arr (Z.of_nat n) = arr !! n.
Proof.
  unfold Js.at_index. destruct (Z.ltb_spec (Z.of_nat n) 0); [lia|].
  rewrite Nat2Z.id. reflexivity.
Qed.

Lemma at_index_to_nat {A : Type} (arr : list A) (i : Z) :
  0 <= i -> Js.at_index arr i = arr !! Z.to_nat i.
Proof.
  intros Hi. unfold Js.at_index. destruct (Z.ltb_spec i 0); [lia|reflexivity].
Qed.

(** The state after a removal inside the queue. *)
Lemma removeFromQueue_delete (index : Z) (s : Player.State) :
  0 <= index < Z.of_nat (length (Player.queueSignal s)) ->
  let s' := Player.removeFromQueue index s in
  Player.queueSignal s' = delete (Z.to_nat index) (Player.queueSignal s)
  /\ Player.currentTrackSignal s' = Player.currentTrackSignal s
  /\ Player.originalQueueSignal s' = Player.originalQueueSignal s
  /\ Player.currentIndexSignal s'
     = (if index <=? Player.currentIndexSignal s
        then Z.max 0 (Player.currentIndexSignal s - 1)
        else Player.currentIndexSignal s).
Proof.
  intros Hin s'. subst s'. unfold Player.removeFromQueue.
  destruct (Z.leb_spec 0 index); [|lia].
  destruct (Z.ltb_spec index (Z.of_nat (length (Player.queueSignal s))));
    [|lia].
  assert (E : Js.filter_index_ne index 0 (Player.queueSignal s)
              = delete (Z.to_nat index) (Player.queueSignal s)).
  { rewrite filter_index_ne_delete by lia. do 2 f_equal. lia. }
  simpl. destruct (index <=? Player.currentIndexSignal s); simpl;
    rewrite E; tauto.
Qed.

(** The queue after [addToQueue(track, true)] with a current index that is
    -1 or a position of the queue. *)
Lemma addToQueue_next_queue (track : Track.t) (s : Player.State) :
  -1 <= Player.currentIndexSignal s < Z.of_nat (length (Player.queueSignal s)) ->
  Player.queueSignal (Player.addToQueue track true s)
  = take (Z.to_nat (Player.currentIndexSignal s + 1)) (Player.queueSignal s)
    ++ track :: drop (Z.to_nat (Player.currentIndexSignal s + 1))
                  (Player.queueSignal s).
Proof.
  intros Hi. unfold Player.addToQueue. simpl.
  rewrite slice_prefix, slice_from_suffix by lia. reflexivity.
Qed.

(** X3.  [removeFromQueue(index)] with an index inside the queue takes out
    exactly the entry at [index]: the queue is one shorter, the entries
    before [index] keep their position, the entries after it move one
    position down, and the current track and the original queue are as
    before.  The current index goes down by one (not below 0) when
    [index <= currentIndex] and stays otherwise. *)
Theorem removeFromQueue_inside (index : Z) (s : Player.State) :
  0 <= index < Z.of_nat (length (Player.queueSignal s)) ->
  let s' := Player.removeFromQueue index s in
  S (length (Player.queueSignal s')) = length (Player.queueSignal s)
  /\ (forall j, j < index ->
        Js.at_index (Player.queueSignal s') j
        = Js.at_index (Player.queueSignal s) j)
  /\ (forall j, index <= j ->
        Js.at_index (Player.queueSignal s') j
        = Js.at_index (Player.queueSignal s) (j + 1))
  /\ Player.currentTrackSignal s' = Player.currentTrackSignal s
  /\ Player.originalQueueSignal s' = Player.originalQueueSignal s
  /\ Player.currentIndexSignal s'
     = (if index <=? Player.currentIndexSignal s
        then Z.max 0 (Player.currentIndexSignal s - 1)
        else Player.currentIndexSignal s).
Proof.
  intros Hin s'.
  destruct (removeFromQueue_delete index s Hin) as (Hq & Hrest).
  fold s' in Hq, Hrest.
  rewrite Hq. split; [|split; [|split; [|exact Hrest]]].
  - rewrite length_delete.
    + lia.
    + apply lookup_lt_is_Some_2. lia.
  - intros j Hj. unfold Js.at_index. destruct (Z.ltb_spec j 0); [reflexivity|].
    apply list_lookup_delete_lt. lia.
  - intros j Hj. unfold Js.at_index.
    destruct (Z.ltb_spec j 0); [lia|]. destruct (Z.ltb_spec (j + 1) 0); [lia|].
    rewrite list_lookup_delete_ge by lia. f_equal. lia.
Qed.

Lemma removeFromQueue_inside_witness :
  Js.at_index (Player.queueSignal (Player.removeFromQueue 0 Examples.threeTracks)) 1
  = Some Examples.trackC.
Proof.
  destruct (removeFromQueue_inside 0 Examples.threeTracks)
    as (_ & _ & H & _).
  - simpl. lia.
  - rewrite (H 1) by lia. reflexivity.
Defined.

(** X4.  [addToQueue(track, playNext)]: without [playNext] the track goes
    to the end of the queue; with [playNext] and a current index that is -1
    or a position of the queue, it goes to the position right after the
    current index, the entries up to the current index keep their position
    and the later ones move one position up.  Either way the track is
    appended to the original queue, and the current index and the current
    track stay. *)
Theorem addToQueue_placement (track : Track.t) (s : Player.State) :
  Player.queueSignal (Player.addToQueue track false s)
    = Player.queueSignal s ++ [track]
  /\ (-1 <= Player.currentIndexSignal s
        < Z.of_nat (length (Player.queueSignal s)) ->
      let q' := Player.queueSignal (Player.addToQueue track true s) in
      Js.at_index q' (Player.currentIndexSignal s + 1) = Some track
      /\ (forall j, j <= Player.currentIndexSignal s ->
            Js.at_index q' j = Js.at_index (Player.queueSignal s) j)
      /\ (forall j, Player.currentIndexSignal s < j ->
            Js.at_index q' (j + 1) = Js.at_index (Player.queueSignal s) j))
  /\ (forall playNext,
        Player.originalQueueSignal (Player.addToQueue track playNext s)
          = Player.originalQueueSignal s ++ [track]
        /\ Player.currentIndexSignal (Player.addToQueue track playNext s)
           = Player.currentIndexSignal s
        /\ Player.currentTrackSignal (Player.addToQueue track playNext s)
           = Player.currentTrackSignal s).
Proof.
  split; [reflexivity|]. split; [|intros []; repeat split].
  intros Hi q'.
  set (q := Player.queueSignal s) in *.
  set (k := Z.to_nat (Player.currentIndexSignal s + 1)).
  assert (Hq' : q' = take k q ++ track :: drop k q)
    by (exact (addToQueue_next_queue track s Hi)).
  assert (Hk : (k <= length q)%nat) by lia.
  assert (Hlen : length (take k q) = k) by (rewrite length_take; lia).
  rewrite Hq'. split; [|split].
  - rewrite at_index_to_nat by lia. fold k.
    rewrite lookup_app_r by lia. rewrite Hlen, Nat.sub_diag. reflexivity.
  - intros j Hj. unfold Js.at_index. destruct (Z.ltb_spec j 0); [reflexivity|].
    rewrite lookup_app_l by lia. apply lookup_take_lt. lia.
  - intros j Hj. unfold Js.at_index.
    destruct (Z.ltb_spec j 0); [lia|]. destruct (Z.ltb_spec (j + 1) 0); [lia|].
    rewrite lookup_app_r by lia. rewrite Hlen.
    replace (Z.to_nat (j + 1) - k)%nat with (S (Z.to_nat j - k)) by lia.
    simpl. rewrite lookup_drop. f_equal. lia.
Qed.

Lemma addToQueue_placement_witness :
  Js.at_index
    (Player.queueSignal (Player.addToQueue Examples.trackA true Examples.threeTracks))
    2 = Some Examples.trackA.
Proof.
  destruct (addToQueue_placement Examples.trackA Examples.threeTracks)
    as (_ & H & _).
  destruct H as (H & _).
  - simpl. lia.
  - exact H.
Defined.

Lemma removeFromQueue_outside (index : Z) (s : Player.State) :
  index < 0 \/ Z.of_nat (length (Player.queueSignal s)) <= index ->
  Player.removeFromQueue index s = s.
Proof.
  intros Hout. unfold Player.removeFromQueue.
  destruct (Z.leb_spec 0 index); simpl; [|reflexivity].
  destruct (Z.ltb_spec index (Z.of_nat (length (Player.queueSignal s))));
    [lia|reflexivity].
Qed.

(** X5.  The queue edits that keep the index on the current track:
    [setQueue] with shuffle off and a start index inside the list puts the
    index on the track it loads, with the queue and the original queue both
    equal to the list; [addToQueue] keeps the index on the current track;
    and so does [removeFromQueue] of any entry other than the current one. *)
Theorem queue_edits_keep_pointer (s : Player.State) :
  (forall random tracks startIndex t,
     Player.isShuffledSignal s = false ->
     Js.at_index tracks startIndex = Some t ->
     let s' := Player.setQueue random tracks startIndex s in
     Player.onCurrent s'
     /\ Player.currentTrackSignal s' = Some t
     /\ Player.currentIndexSignal s' = startIndex
     /\ Player.queueSignal s' = tracks
     /\ Player.originalQueueSignal s' = tracks)
  /\ (forall track playNext,
        Player.onCurrent s ->
        Player.onCurrent (Player.addToQueue track playNext s))
  /\ (forall index,
        Player.onCurrent s ->
        index <> Player.currentIndexSignal s ->
        Player.onCurrent (Player.removeFromQueue index s)).
Proof.
  split; [|split].
  - intros random tracks startIndex t Hoff Hat s'.
    pose proof (at_index_Some _ _ _ Hat) as Hin.
    assert (E : s' = Player.set_currentIndex startIndex
                       (Player.loadTrack (Some t)
                          (Player.set_queue tracks
                             (Player.set_originalQueue tracks s)))).
    { subst s'. unfold Player.setQueue. simpl. rewrite Hoff.
      destruct (Z.ltb_spec 0 (Z.of_nat (length tracks))); [|lia].
      destruct (Z.ltb_spec startIndex (Z.of_nat (length tracks))); [|lia].
      simpl. rewrite Hat. reflexivity. }
    assert (Ht : Player.currentTrackSignal s' = Some t)
      by (rewrite E; apply loadTrack_Some_track).
    assert (Hq : Player.queueSignal s' = tracks).
    { rewrite E.
      exact (queue_loadTrack (Some t)
               (Player.set_queue tracks (Player.set_originalQueue tracks s))). }
    assert (Ho : Player.originalQueueSignal s' = tracks).
    { rewrite E.
      exact (proj1 (frame_loadTrack (Some t)
               (Player.set_queue tracks (Player.set_originalQueue tracks s)))). }
    assert (Hi : Player.currentIndexSignal s' = startIndex)
      by (rewrite E; reflexivity).
    repeat split; try assumption.
    exists t. rewrite Hi, Hq. split; assumption.
  - intros track playNext (t & Hcur & Hat).
    pose proof (at_index_Some _ _ _ Hat) as Hin.
    exists t. split; [destruct playNext; exact Hcur|].
    rewrite index_addToQueue. destruct playNext.
    + rewrite addToQueue_next_queue by lia.
      rewrite !at_index_to_nat in * by lia.
      rewrite lookup_app_l by (rewrite length_take; lia).
      rewrite lookup_take_lt by lia. exact Hat.
    + unfold Player.addToQueue. simpl.
      rewrite !at_index_to_nat in * by lia.
      rewrite lookup_app_l by lia. exact Hat.
  - intros index (t & Hcur & Hat) Hne.
    pose proof (at_index_Some _ _ _ Hat) as Hin.
    destruct (Z.lt_ge_cases index 0) as [Hneg|Hpos].
    { rewrite removeFromQueue_outside by (left; lia). exists t. tauto. }
    destruct (Z.lt_ge_cases index (Z.of_nat (length (Player.queueSignal s))))
      as [Hlt|Hge].
    2:{ rewrite removeFromQueue_outside by (right; lia). exists t. tauto. }
    destruct (removeFromQueue_delete index s (conj Hpos Hlt))
      as (Hq & Ht & _ & Hi).
    exists t. rewrite Ht, Hq, Hi. split; [exact Hcur|].
    rewrite at_index_to_nat in Hat by lia.
    destruct (Z.leb_spec index (Player.currentIndexSignal s)).
    + rewrite at_index_to_nat by lia.
      rewrite list_lookup_delete_ge by lia.
      replace (S (Z.to_nat (Z.max 0 (Player.currentIndexSignal s - 1))))
        with (Z.to_nat (Player.currentIndexSignal s)) by lia.
      exact Hat.
    + rewrite at_index_to_nat by lia.
      rewrite list_lookup_delete_lt by lia. exact Hat.
Qed.

Lemma queue_edits_keep_pointer_witness :
  Player.onCurrent (Player.setQueue Examples.zeros
                      [Examples.trackA; Examples.trackB] 1 Player.initial)
  /\ Player.onCurrent (Player.addToQueue Examples.trackA true Examples.threeTracks)
  /\ Player.onCurrent (Player.removeFromQueue 0 Examples.threeTracks).
Proof.
  assert (Hon : Player.onCurrent Examples.threeTracks)
    by (exists Examples.trackB; split; reflexivity).
  split; [|split].
  - destruct (queue_edits_keep_pointer Player.initial) as (H & _).
    apply (H Examples.zeros [Examples.trackA; Examples.trackB] 1 Examples.trackB);
      reflexivity.
  - destruct (queue_edits_keep_pointer Examples.threeTracks) as (_ & H & _).
    apply H. exact Hon.
  - destruct (queue_edits_keep_pointer Examples.threeTracks) as (_ & _ & H).
    apply H; [exact Hon|discriminate].
Defined.

(** The original queue after [setQueue] is the list it was given. *)
Lemma original_setQueue (random : nat -> nat) (tracks : list Track.t)
  (startIndex : Z) (s : Player.State) :
  Player.originalQueueSignal (Player.setQueue random tracks startIndex s)
  = tracks.
Proof.
  unfold Player.setQueue.
  assert (Ho : Player.originalQueueSignal
            (if Player.isShuffledSignal (Player.set_originalQueue tracks s)
             then Player.shuffleQueue random tracks (Player.set_originalQueue tracks s)
             else Player.set_queue tracks (Player.set_originalQueue tracks s))
          = tracks).
  { destruct (Player.isShuffledSignal _); [|reflexivity].
    rewrite (proj1 (shuffleQueue_fields random tracks _)). reflexivity. }
  destruct (_ && _); [|exact Ho].
  simpl. rewrite (proj1 (frame_loadTrack _ _)). exact Ho.
Qed.

Lemma queue_setQueue_Permutation (random : nat -> nat) (tracks : list Track.t)
  (startIndex : Z) (s : Player.State) :
  Permutation (Player.queueSignal (Player.setQueue random tracks startIndex s))
    tracks.
Proof.
  unfold Player.setQueue.
  assert (Hq : Permutation (Player.queueSignal
            (if Player.isShuffledSignal (Player.set_originalQueue tracks s)
             then Player.shuffleQueue random tracks (Player.set_originalQueue tracks s)
             else Player.set_queue tracks (Player.set_originalQueue tracks s)))
          tracks).
  { destruct (Player.isShuffledSignal _); [|reflexivity].
    rewrite queue_shuffleQueue. apply shuffleLoop_Permutation. }
  destruct (_ && _); [|exact Hq].
  simpl. rewrite queue_loadTrack. exact Hq.
Qed.

Lemma queue_addToQueue_Permutation (track : Track.t) (playNext : bool)
  (s : Player.State) :
  Permutation (Player.queueSignal (Player.addToQueue track playNext s))
    (track :: Player.queueSignal s).
Proof.
  unfold Player.addToQueue. destruct playNext; simpl.
  - destruct (slice_split (Player.queueSignal s) (Player.currentIndexSignal s + 1))
      as (-> & ->).
    rewrite <- Permutation_middle. apply perm_skip.
    rewrite take_drop. reflexivity.
  - rewrite Permutation_app_comm. reflexivity.
Qed.

Lemma grow_keeps_Permutation (c : Player.GrowCall) (s : Player.State) :
  Permutation (Player.originalQueueSignal s) (Player.queueSignal s) ->
  Permutation (Player.originalQueueSignal (Player.grow c s))
    (Player.queueSignal (Player.grow c s)).
Proof.
  intros Hp. destruct c as [random tracks startIndex|track playNext|random];
    unfold Player.grow.
  - rewrite original_setQueue. symmetry. apply queue_setQueue_Permutation.
  - etransitivity; [|symmetry; apply queue_addToQueue_Permutation].
    assert (Ho : Player.originalQueueSignal (Player.addToQueue track playNext s)
                 = Player.originalQueueSignal s ++ [track])
      by (destruct playNext; reflexivity).
    rewrite Ho. rewrite Permutation_app_comm. simpl. apply perm_skip. exact Hp.
  - unfold Player.toggleShuffle. destruct (Player.isShuffledSignal s); simpl.
    + destruct (Player.currentTrackSignal s); [|reflexivity].
      destruct (Js.findIndex _ _ =? -1); reflexivity.
    + rewrite (proj1 (shuffleQueue_fields random _ _)), queue_shuffleQueue.
      simpl. etransitivity; [exact Hp|].
      symmetry. apply shuffleLoop_Permutation.
Qed.

(** X6.  Whatever sequence of [setQueue], [addToQueue] and [toggleShuffle]
    calls is made from the initial state, the original queue holds the same
    tracks as the live queue (one is a permutation of the other), and the
    two have the same length. *)
Theorem original_queue_matches_live_queue (calls : list Player.GrowCall) :
  let s := Player.growAll calls Player.initial in
  Permutation (Player.originalQueueSignal s) (Player.queueSignal s)
  /\ length (Player.originalQueueSignal s) = length (Player.queueSignal s).
Proof.
  intros s.
  assert (H : forall s0,
             Permutation (Player.originalQueueSignal s0) (Player.queueSignal s0) ->
             Permutation (Player.originalQueueSignal (Player.growAll calls s0))
               (Player.queueSignal (Player.growAll calls s0))).
  { induction calls as [|c rest IH]; intros s0 Hp; simpl; [exact Hp|].
    apply IH. apply grow_keeps_Permutation. exact Hp. }
  assert (Hp : Permutation (Player.originalQueueSignal s) (Player.queueSignal s))
    by (apply H; reflexivity).
  split; [exact Hp|]. apply Permutation_length. exact Hp.
Qed.

(** ** Playback engine: position and volume *)

Lemma duration_cached (s : Player.State) :
  Player.duration (snd (Player.duration s))
  = (fst (Player.duration s), snd (Player.duration s)).
Proof.
  unfold Player.duration. destruct (Player.durationCache s) eqn:E; simpl.
  - rewrite E. reflexivity.
  - reflexivity.
Qed.

Lemma seek_position (time : Q) (s : Player.State) :
  Audio.hasDuration (Player.audioElement s) = true ->
  Player.currentTimeSignal (Player.seek time s)
    = Qmax 0 (Qmin time (fst (Player.duration s)))
  /\ Audio.currentTime (Player.audioElement (Player.seek time s))
     = Qmax 0 (Qmin time (fst (Player.duration s))).
Proof.
  intros Hd. unfold Player.seek. rewrite Hd.
  destruct (Player.duration s) as [d s1]. split; reflexivity.
Qed.

Lemma clamp_between (lo hi x : Q) :
  (lo <= hi)%Q ->
  (lo <= Qmax lo (Qmin x hi) <= hi)%Q
  /\ ((lo <= x <= hi)%Q -> (Qmax lo (Qmin x hi) == x)%Q).
Proof.
  intros Hle. split; [split|].
  - apply Q.le_max_l.
  - apply Q.max_lub; [exact Hle|apply Q.le_min_r].
  - intros [H1 H2]. rewrite Q.min_l by exact H2. apply Q.max_r. exact H1.
Qed.

(** X7.  [seek(time)] on an audio element that has a duration puts the
    position at [time] clamped to the interval from 0 to the duration that
    the [duration] signal reports: the new position is never negative, never
    beyond that duration, and is [time] itself when [time] is in the
    interval.  The signal and the element hold the same position, and the
    status, the queue and the index are untouched.  Without a duration on
    the element, [seek] changes nothing. *)
Theorem seek_clamps_position (time : Q) (s : Player.State) :
  (Audio.hasDuration (Player.audioElement s) = true ->
   let d := fst (Player.duration s) in
   let s' := Player.seek time s in
   (0 <= Player.currentTimeSignal s')%Q
   /\ ((0 <= d)%Q -> (Player.currentTimeSignal s' <= d)%Q)
   /\ ((0 <= time <= d)%Q -> (Player.currentTimeSignal s' == time)%Q)
   /\ Audio.currentTime (Player.audioElement s') = Player.currentTimeSignal s'
   /\ Player.statusSignal s' = Player.statusSignal s
   /\ Player.queueSignal s' = Player.queueSignal s
   /\ Player.currentIndexSignal s' = Player.currentIndexSignal s)
  /\ (Audio.hasDuration (Player.audioElement s) = false ->
      Player.seek time s = s).
Proof.
  split.
  - intros Hd d s'. destruct (seek_position time s Hd) as (Hs & Ha).
    destruct (frame_seek time s) as (Hq & _ & Hi & _ & Hst & _).
    fold s' in Hs, Ha, Hq, Hi, Hst. fold d in Hs, Ha.
    rewrite Hs, Ha. repeat split; try assumption.
    + apply Q.le_max_l.
    + intros Hpos. apply (clamp_between 0 d time Hpos).
    + intros Hin. apply (clamp_between 0 d time); [|exact Hin].
      destruct Hin as [H1 H2]. eapply Qle_trans; eassumption.
  - intros Hd. unfold Player.seek. rewrite Hd. reflexivity.
Qed.

Lemma seek_clamps_position_witness :
  (Player.currentTimeSignal (Player.seek 500 Examples.secondTrackAtFiveSeconds)
   <= 180)%Q.
Proof.
  destruct (seek_clamps_position 500 Examples.secondTrackAtFiveSeconds)
    as (H & _).
  destruct (H eq_refl) as (_ & Hle & _).
  apply Hle. discriminate.
Defined.

(** X8.  [seekPercentage(p)] on an audio element that has a duration, with
    [d] the duration that the [duration] signal reports, not negative: the
    position set lies between 0 and [d] whatever [p] is; it is 0 for [p] at
    most 0 and [d] for [p] at least 100; and a larger percentage never gives
    an earlier position. *)
Theorem seekPercentage_position (s : Player.State) :
  Audio.hasDuration (Player.audioElement s) = true ->
  (0 <= fst (Player.duration s))%Q ->
  let d := fst (Player.duration s) in
  let position := fun percentage =>
    Player.currentTimeSignal (Player.seekPercentage percentage s) in
  (forall p, (0 <= position p <= d)%Q)
  /\ (forall p, (p <= 0)%Q -> (position p == 0)%Q)
  /\ (forall p, (100 <= p)%Q -> (position p == d)%Q)
  /\ (forall p p', (p <= p')%Q -> (position p <= position p')%Q).
Proof.
  intros Hd Hpos d position.
  assert (E : forall p, position p = Qmax 0 (Qmin (p / 100 * d) d)).
  { intros p. subst position. cbv beta. unfold Player.seekPercentage.
    pose proof (duration_cached s) as Hc. fold d in Hc.
    destruct (Player.duration s) as [d0 s1] eqn:Es. simpl in d, Hc.
    subst d.
    assert (Hd1 : Audio.hasDuration (Player.audioElement s1) = true).
    { unfold Player.duration in Es. destruct (Player.durationCache s).
      - injection Es as _ <-. exact Hd.
      - injection Es as _ <-. exact Hd. }
    rewrite (proj1 (seek_position _ s1 Hd1)), Hc. reflexivity. }
  assert (Hscale : forall p p', (p <= p')%Q -> (p / 100 * d <= p' / 100 * d)%Q).
  { intros p p' Hle. apply Qmult_le_compat_r; [|exact Hpos].
    unfold Qdiv. apply Qmult_le_compat_r; [exact Hle|discriminate]. }
  assert (H0 : (0 / 100 * d == 0)%Q) by (unfold Qdiv; ring).
  assert (H100 : (100 / 100 * d == d)%Q) by (unfold Qdiv; field).
  split; [|split; [|split]].
  - intros p. rewrite E. apply (clamp_between 0 d); exact Hpos.
  - intros p Hp. rewrite E. apply Q.max_l.
    eapply Qle_trans; [apply Q.le_min_l|].
    apply (Qle_trans _ (0 / 100 * d)); [apply Hscale; exact Hp|].
    rewrite H0. apply Qle_refl.
  - intros p Hp. rewrite E. apply Qle_antisym.
    + apply (clamp_between 0 d); exact Hpos.
    + eapply Qle_trans; [|apply Q.le_max_r].
      apply Q.min_glb; [|apply Qle_refl].
      apply (Qle_trans _ (100 / 100 * d)); [|apply Hscale; exact Hp].
      rewrite H100. apply Qle_refl.
  - intros p p' Hle. rewrite !E.
    apply Q.max_le_compat_l. apply Q.min_le_compat_r. apply Hscale. exact Hle.
Qed.

Lemma seekPercentage_position_witness :
  (Player.currentTimeSignal
     (Player.seekPercentage 7 Examples.secondTrackAtFiveSeconds)
   <= Player.currentTimeSignal
        (Player.seekPercentage 50 Examples.secondTrackAtFiveSeconds))%Q
  /\ (Player.currentTimeSignal
        (Player.seekPercentage 250 Examples.secondTrackAtFiveSeconds)
      == 180)%Q.
Proof.
  destruct (seekPercentage_position Examples.secondTrackAtFiveSeconds)
    as (_ & _ & Hfull & Hmono); [reflexivity|discriminate|].
  split; [apply Hmono; discriminate|apply Hfull; discriminate].
Defined.

(** X9.  The volume stays between 0 and 1: [setVolume] clamps any number
    into that interval and stores a number of the interval as it is;
    from a volume in the interval, [increaseVolume] and [decreaseVolume] by
    an amount that is not negative stay in it; [toggleMute] keeps the volume
    and is undone by a second [toggleMute]; and none of the three volume
    methods touches the mute flag. *)
Theorem volume_stays_in_range (v : Player.Volume) :
  (forall volume,
     Player.volumeInRange (Player.setVolume volume v)
     /\ ((0 <= volume <= 1)%Q ->
         (Player.volumeSignal (Player.setVolume volume v) == volume)%Q)
     /\ Player.isMutedSignal (Player.setVolume volume v)
        = Player.isMutedSignal v)
  /\ (forall amount,
        Player.volumeInRange v -> (0 <= amount)%Q ->
        Player.volumeInRange (Player.increaseVolume amount v)
        /\ Player.volumeInRange (Player.decreaseVolume amount v)
        /\ (Player.volumeSignal v <= Player.volumeSignal
                                       (Player.increaseVolume amount v))%Q
        /\ (Player.volumeSignal (Player.decreaseVolume amount v)
            <= Player.volumeSignal v)%Q)
  /\ Player.volumeSignal (Player.toggleMute v) = Player.volumeSignal v
  /\ Player.toggleMute (Player.toggleMute v) = v.
Proof.
  split; [|split; [|split]].
  - intros volume. unfold Player.volumeInRange, Player.setVolume. simpl.
    assert (H01 : (0 <= 1)%Q) by discriminate.
    assert (Hc := clamp_between 0 1 volume H01).
    assert (Hm : (Qmin 1 volume == Qmin volume 1)%Q) by apply Q.min_comm.
    split; [|split; [|reflexivity]].
    + rewrite Hm. apply Hc.
    + intros Hin. rewrite Hm. apply Hc. exact Hin.
  - intros amount [H0 H1] Ha.
    unfold Player.volumeInRange, Player.increaseVolume, Player.decreaseVolume.
    simpl.
    assert (Hup : (Player.volumeSignal v <= Player.volumeSignal v + amount)%Q).
    { rewrite <- (Qplus_0_r (Player.volumeSignal v)) at 1.
      apply Qplus_le_compat; [apply Qle_refl|exact Ha]. }
    assert (Hdown : (Player.volumeSignal v - amount <= Player.volumeSignal v)%Q).
    { rewrite <- (Qplus_0_r (Player.volumeSignal v)) at 2.
      apply Qplus_le_compat; [apply Qle_refl|].
      apply (Qopp_le_compat 0 amount). exact Ha. }
    repeat split.
    + apply Q.min_glb; [discriminate|].
      apply (Qle_trans _ (Player.volumeSignal v)); assumption.
    + apply Q.le_min_l.
    + apply Q.le_max_l.
    + apply Q.max_lub; [discriminate|].
      apply (Qle_trans _ (Player.volumeSignal v)); assumption.
    + apply Q.min_glb; assumption.
    + apply Q.max_lub; assumption.
  - reflexivity.
  - destruct v as [x m]. unfold Player.toggleMute. simpl.
    rewrite negb_involutive. reflexivity.
Qed.

Lemma volume_stays_in_range_witness :
  Player.volumeInRange (Player.increaseVolume (1 # 2) Examples.initialVolume).
Proof.
  destruct (volume_stays_in_range Examples.initialVolume) as (_ & H & _).
  apply (H (1 # 2)).
  - split; discriminate.
  - discriminate.
Defined.

(** X10.  [clearQueue()] brings every state to an empty queue and an empty
    original queue with index -1, no current track, status [stopped] and
    position 0, keeping the shuffle and repeat flags; from there every
    sequence of guarded queue calls keeps the queue invariant, as from the
    initial state. *)
Theorem clearQueue_resets_queue (s : Player.State) :
  let s' := Player.clearQueue s in
  Player.queueSignal s' = []
  /\ Player.originalQueueSignal s' = []
  /\ Player.currentIndexSignal s' = -1
  /\ Player.currentTrackSignal s' = None
  /\ Player.statusSignal s' = Model.stopped
  /\ Player.currentTimeSignal s' = 0%Q
  /\ Player.isShuffledSignal s' = Player.isShuffledSignal s
  /\ Player.isRepeatingSignal s' = Player.isRepeatingSignal s
  /\ Player.queueInvariant s'
  /\ (forall calls, Player.keepIndex calls s' ->
                    Player.queueInvariant (Player.run calls s')).
Proof.
  intros s'.
  assert (Hs : Player.steady s') by (left; split; reflexivity).
  do 8 (split; [reflexivity|]).
  split.
  - apply steady_queueInvariant. exact Hs.
  - intros calls Hk. apply steady_queueInvariant. apply steady_run; assumption.
Qed.

Lemma clearQueue_resets_queue_witness :
  Player.queueInvariant
    (Player.run [Player.SetQueue Examples.zeros [Examples.trackC] 0]
       (Player.clearQueue Examples.threeTracks)).
Proof.
  destruct (clearQueue_resets_queue Examples.threeTracks)
    as (_ & _ & _ & _ & _ & _ & _ & _ & _ & H).
  apply H. simpl. split; [lia|exact I].
Defined.

(** ** Binary insertion sort *)

Section InsertionFacts.
Context {A : Type} (comparefn : A -> A -> Z).

Lemma insertPivot_Permutation (sorted : list A) (pivot : A) :
  Permutation (Engine.insertPivot comparefn sorted pivot) (pivot :: sorted).
Proof.
  unfold Engine.insertPivot.
  rewrite <- Permutation_middle. apply perm_skip.
  rewrite take_drop. reflexivity.
Qed.

Lemma fold_insertPivot_Permutation (arr acc : list A) :
  Permutation (fold_left (Engine.insertPivot comparefn) arr acc) (acc ++ arr).
Proof.
  revert acc. induction arr as [|x rest IH]; intros acc; simpl.
  - rewrite app_nil_r. reflexivity.
  - etransitivity; [apply IH|].
    etransitivity; [apply Permutation_app_tail, insertPivot_Permutation|].
    simpl. apply Permutation_middle.
Qed.

(** The sort returns the elements it was given, whatever the comparator. *)
Lemma binaryInsertionSort_Permutation (arr : list A) :
  Permutation (Engine.binaryInsertionSort comparefn arr) arr.
Proof.
  unfold Engine.binaryInsertionSort.
  exact (fold_insertPivot_Permutation arr []).
Qed.

(** The order [le] that the comparator stands for: a pivot that goes to the
    left of [x] is [le x]; one that does not is not before it; and going to
    the left carries over to everything [x] is [le]. *)
Context (le : A -> A -> Prop).
Hypothesis goes_left : forall p x, comparefn p x < 0 -> le p x.
Hypothesis stays_right : forall p x, ~ comparefn p x < 0 -> le x p.
Hypothesis left_of_later : forall p x y,
  comparefn p x < 0 -> le x y -> comparefn p y < 0.

Lemma insertionPoint_splits (pivot : A) (arr : list A) (fuel left right : nat) :
  Engine.ordered le arr ->
  (left <= right <= length arr)%nat ->
  (right - left <= fuel)%nat ->
  (forall j x, (j < left)%nat -> arr !! j = Some x -> ~ comparefn pivot x < 0) ->
  (forall j x, (right <= j)%nat -> arr !! j = Some x -> comparefn pivot x < 0) ->
  let k := Engine.insertionPoint comparefn pivot arr left right fuel in
  (k <= length arr)%nat
  /\ (forall j x, (j < k)%nat -> arr !! j = Some x -> ~ comparefn pivot x < 0)
  /\ (forall j x, (k <= j)%nat -> arr !! j = Some x -> comparefn pivot x < 0).
Proof.
  intros Hord. revert left right.
  induction fuel as [|fuel IH]; intros left right Hlr Hfuel Hlow Hhigh;
    cbn [Engine.insertionPoint].
  - assert (left = right) by lia. subst right. repeat split; [lia|exact Hlow|exact Hhigh].
  - destruct (Nat.ltb_spec left right) as [Hlt|Hge].
    2:{ assert (left = right) by lia. subst right.
        repeat split; [lia|exact Hlow|exact Hhigh]. }
    set (mid := (left + (right - left) / 2)%nat).
    assert (Hmid : (left <= mid < right)%nat).
    { subst mid. split; [lia|].
      assert ((right - left) / 2 < right - left)%nat
        by (apply Nat.div_lt; lia).
      lia. }
    destruct (lookup_lt_is_Some_2 arr mid) as [m Hm]; [lia|].
    rewrite Hm.
    destruct (Z.ltb_spec (comparefn pivot m) 0) as [Hneg|Hpos].
    + apply IH; [lia|lia|exact Hlow|].
      intros j x Hj Hx.
      destruct (decide (j = mid)) as [->|Hne]; [congruence|].
      apply (left_of_later pivot m x Hneg).
      apply (Hord mid j m x); [lia|exact Hm|exact Hx].
    + apply IH; [lia|lia| |exact Hhigh].
      intros j x Hj Hx Hcontra.
      destruct (decide (j = mid)) as [->|Hne]; [rewrite Hm in Hx; injection Hx as ->; lia|].
      assert (Hle : le x m) by (apply (Hord j mid x m); [lia|exact Hx|exact Hm]).
      pose proof (left_of_later pivot x m Hcontra Hle). lia.
Qed.

Lemma insertPivot_ordered (sorted : list A) (pivot : A) :
  Engine.ordered le sorted ->
  Engine.ordered le (Engine.insertPivot comparefn sorted pivot).
Proof.
  intros Hord. unfold Engine.insertPivot.
  destruct (insertionPoint_splits pivot sorted (S (length sorted)) 0
              (length sorted) Hord) as (Hk & Hlow & Hhigh);
    [lia|lia|intros j x Hj; lia| |].
  { intros j x Hj Hx. apply lookup_lt_Some in Hx. lia. }
  set (k := Engine.insertionPoint comparefn pivot sorted 0 (length sorted)
              (S (length sorted))) in *.
  assert (Hlen : length (take k sorted) = k) by (rewrite length_take; lia).
  assert (Hlook : forall i,
    (take k sorted ++ pivot :: drop k sorted) !! i
    = if decide (i < k)%nat then sorted !! i
      else if decide (i = k) then Some pivot
      else sorted !! (i - 1)%nat).
  { intros i. destruct (decide (i < k)%nat) as [Hik|Hik].
    - rewrite lookup_app_l by lia. apply lookup_take_lt. exact Hik.
    - rewrite lookup_app_r by lia. rewrite Hlen.
      destruct (decide (i = k)) as [->|Hne].
      + rewrite Nat.sub_diag. reflexivity.
      + replace (i - k)%nat with (S (i - k - 1)) by lia. simpl.
        rewrite lookup_drop. f_equal. lia. }
  intros i j x y Hij Hx Hy. rewrite Hlook in Hx, Hy.
  destruct (decide (i < k)%nat) as [Hik|Hik];
    destruct (decide (j < k)%nat) as [Hjk|Hjk]; try lia.
  - apply (Hord i j x y Hij Hx Hy).
  - destruct (decide (j = k)) as [->|Hne].
    + injection Hy as <-. apply stays_right. apply (Hlow i x Hik Hx).
    + apply (Hord i (j - 1)%nat x y); [lia|exact Hx|exact Hy].
  - destruct (decide (i = k)) as [->|Hne];
      destruct (decide (j = k)) as [->|Hne']; try lia.
    + injection Hx as <-. apply goes_left.
      apply (Hhigh (j - 1)%nat y); [lia|exact Hy].
    + apply (Hord (i - 1)%nat (j - 1)%nat x y); [lia|exact Hx|exact Hy].
Qed.

(** For a comparator that stands for an order, the sort returns its input
    ordered. *)
Lemma binaryInsertionSort_ordered (arr : list A) :
  Engine.ordered le (Engine.binaryInsertionSort comparefn arr).
Proof.
  unfold Engine.binaryInsertionSort.
  assert (H : forall acc, Engine.ordered le acc ->
                Engine.ordered le (fold_left (Engine.insertPivot comparefn) arr acc)).
  { induction arr as [|x rest IH]; intros acc Hacc; simpl; [exact Hacc|].
    apply IH. apply insertPivot_ordered. exact Hacc. }
  apply H. intros i j x y _ Hx. rewrite lookup_nil in Hx. discriminate.
Qed.

End InsertionFacts.

(** ** Orders behind the comparators *)

Lemma or_zero_id (x : Z) : Js.or_zero x = x.
Proof. unfold Js.or_zero. destruct (Z.eqb_spec x 0); congruence. Qed.

Lemma ltb_lt (a b : string) :
  String.ltb a b = true <-> OrderedTypeEx.String_as_OT.lt a b.
Proof.
  unfold String.ltb. rewrite <- OrderedTypeEx.String_as_OT.cmp_lt.
  unfold OrderedTypeEx.String_as_OT.cmp.
  destruct (String.compare a b); split; congruence.
Qed.

Lemma ltb_asym (a b : string) :
  String.ltb a b = true -> String.ltb b a = false.
Proof.
  unfold String.ltb. rewrite (String.compare_antisym b a).
  destruct (String.compare a b); simpl; congruence.
Qed.

(** [a <= b] and [b <= c] give [a <= c], with [x <= y] read as "not [y < x]". *)
Lemma not_ltb_trans (a b c : string) :
  String.ltb b a = false -> String.ltb c b = false -> String.ltb c a = false.
Proof.
  intros Hba Hcb. destruct (String.ltb c a) eqn:Hca; [|reflexivity].
  exfalso. apply ltb_lt in Hca.
  destruct (String.compare b a) eqn:Hcmp.
  - apply OrderedTypeEx.String_as_OT.cmp_eq in Hcmp. subst b.
    apply ltb_lt in Hca. congruence.
  - unfold String.ltb in Hba. rewrite Hcmp in Hba. discriminate.
  - assert (Hab : String.compare a b = Lt).
    { rewrite String.compare_antisym, Hcmp. reflexivity. }
    apply OrderedTypeEx.String_as_OT.cmp_lt in Hab.
    pose proof (OrderedTypeEx.String_as_OT.lt_trans _ _ _ Hca Hab) as Hlt.
    apply ltb_lt in Hlt. congruence.
Qed.

(** For one sort key, "not greater" is a total order on the tracks. *)
Lemma greater_asym (sortBy : Model.SortBy) (a b : Track.t) :
  Library.greater (Library.sortValue sortBy a) (Library.sortValue sortBy b) = true ->
  Library.greater (Library.sortValue sortBy b) (Library.sortValue sortBy a) = false.
Proof.
  destruct sortBy; cbn [Library.greater Library.sortValue];
    first [ apply ltb_asym
          | intros H; apply (proj1 (Qgtb_true _ _)) in H;
            apply (proj2 (Qgtb_false _ _)); apply Qlt_le_weak; exact H ].
Qed.

Lemma not_greater_trans (sortBy : Model.SortBy) (a b c : Track.t) :
  Library.greater (Library.sortValue sortBy a) (Library.sortValue sortBy b) = false ->
  Library.greater (Library.sortValue sortBy b) (Library.sortValue sortBy c) = false ->
  Library.greater (Library.sortValue sortBy a) (Library.sortValue sortBy c) = false.
Proof.
  destruct sortBy; cbn [Library.greater Library.sortValue]; intros H1 H2;
    first [ exact (not_ltb_trans _ _ _ H1 H2)
          | apply (proj1 (Qgtb_false _ _)) in H1;
            apply (proj1 (Qgtb_false _ _)) in H2;
            apply (proj2 (Qgtb_false _ _)); exact (Qle_trans _ _ _ H1 H2) ].
Qed.

(** The order in which the view lists the tracks: no track has a greater
    key than a later one when ascending, nor a smaller one when descending. *)
Lemma compareFn_order (sortBy : Model.SortBy) (sortOrder : Model.SortOrder) :
  let le := fun a b : Track.t =>
    match sortOrder with
    | Model.ASC =>
        Library.greater (Library.sortValue sortBy a) (Library.sortValue sortBy b)
        = false
    | Model.DESC =>
        Library.greater (Library.sortValue sortBy b) (Library.sortValue sortBy a)
        = false
    end in
  (forall p x, Library.compareFn sortBy sortOrder p x < 0 -> le p x)
  /\ (forall p x, ~ Library.compareFn sortBy sortOrder p x < 0 -> le x p)
  /\ (forall p x y, Library.compareFn sortBy sortOrder p x < 0 -> le x y ->
                    Library.compareFn sortBy sortOrder p y < 0).
Proof.
  intros le. subst le. unfold Library.compareFn, Library.less.
  destruct sortOrder; (split; [|split]).
  - intros p x. destruct (Library.greater _ _) eqn:E; [lia|reflexivity].
  - intros p x. destruct (Library.greater _ _) eqn:E; [|lia].
    intros _. apply greater_asym. exact E.
  - intros p x y.
    destruct (Library.greater (Library.sortValue sortBy p)
                (Library.sortValue sortBy x)) eqn:E; [lia|].
    intros _ Hxy. rewrite (not_greater_trans sortBy p x y E Hxy). lia.
  - intros p x. destruct (Library.greater _ _) eqn:E; [lia|reflexivity].
  - intros p x. destruct (Library.greater _ _) eqn:E; [|lia].
    intros _. apply greater_asym. exact E.
  - intros p x y.
    destruct (Library.greater (Library.sortValue sortBy x)
                (Library.sortValue sortBy p)) eqn:E; [lia|].
    intros _ Hxy. rewrite (not_greater_trans sortBy y x p Hxy E). lia.
Qed.

(** X11.  The library view under binary insertion sort, for tracks whose
    titles and artists are ASCII text: it lists exactly
    the tracks of the projection that pass the category filter (all of them
    for the filter "all"), each as often as the projection holds it, and it
    lists them in the order of the sort key: ascending, no track has a
    greater key than a later one; descending, none has a smaller key than a
    later one.  Only the order among equal keys is left open. *)
Theorem tracks_view_is_sorted_selection (s : Library.State) :
  (forall t, In t (Library.tracksSignal s) ->
             Text.isAscii (Track.title t) = true
             /\ Text.isAscii (Track.artist t) = true) ->
  let view := Library.tracks Engine.binaryInsertionSort s in
  let selected :=
    if String.eqb (Library.currentFilter s) "all" then Library.tracksSignal s
    else List.filter
           (fun t => String.eqb (Track.category t) (Library.currentFilter s))
           (Library.tracksSignal s) in
  Permutation view selected
  /\ (forall t, In t view ->
        In t (Library.tracksSignal s)
        /\ (Library.currentFilter s <> "all" ->
            Track.category t = Library.currentFilter s))
  /\ forall (i j : nat) (x y : Track.t),
       (i < j)%nat -> view !! i = Some x -> view !! j = Some y ->
       match Library.sortOrderSignal s with
       | Model.ASC =>
           Library.greater (Library.sortValue (Library.sortBySignal s) x)
             (Library.sortValue (Library.sortBySignal s) y) = false
       | Model.DESC =>
           Library.greater (Library.sortValue (Library.sortBySignal s) y)
             (Library.sortValue (Library.sortBySignal s) x) = false
       end.
Proof.
  intros _ view selected.
  assert (Hview : view = Engine.binaryInsertionSort
                           (Library.compareFn (Library.sortBySignal s)
                              (Library.sortOrderSignal s)) selected)
    by reflexivity.
  assert (Hperm : Permutation view selected)
    by (rewrite Hview; apply binaryInsertionSort_Permutation).
  split; [exact Hperm|]. split.
  - intros t Ht. apply (Permutation_in _ Hperm) in Ht. subst selected.
    destruct (String.eqb_spec (Library.currentFilter s) "all") as [Hall|Hcat].
    + split; [exact Ht|congruence].
    + apply filter_In in Ht as [Hin Hc]. split; [exact Hin|].
      intros _. apply String.eqb_eq. exact Hc.
  - destruct (compareFn_order (Library.sortBySignal s) (Library.sortOrderSignal s))
      as (H1 & H2 & H3).
    intros i j x y Hij Hx Hy. rewrite Hview in Hx, Hy.
    exact (binaryInsertionSort_ordered _ _ H1 H2 H3 selected i j x y Hij Hx Hy).
Qed.

Lemma tracks_view_is_sorted_selection_witness :
  Permutation (Library.tracks Engine.binaryInsertionSort Examples.twoTitles)
    [Examples.trackC; Examples.trackA]
  /\ forall (i j : nat) (x y : Track.t),
       (i < j)%nat ->
       Library.tracks Engine.binaryInsertionSort Examples.twoTitles !! i
         = Some x ->
       Library.tracks Engine.binaryInsertionSort Examples.twoTitles !! j
         = Some y ->
       Library.greater (Library.sortValue Model.TITLE x)
         (Library.sortValue Model.TITLE y) = false.
Proof.
  destruct (tracks_view_is_sorted_selection Examples.twoTitles)
    as (Hperm & _ & Hord).
  - intros t [<-|[<-|[]]]; split; reflexivity.
  - split; [exact Hperm|exact Hord].
Defined.

(** ** Rankings of the store *)

Section Ranking.
Context (key : Track.t -> Z) (comparefn : Track.t -> Track.t -> Z).
Hypothesis by_key : forall a b, comparefn a b = key b - key a.

Lemma ranking_top (limit : Z) (all : list Track.t) :
  0 <= limit ->
  let ranked := Js.slice (Engine.binaryInsertionSort comparefn all) 0 limit in
  length ranked = Nat.min (Z.to_nat limit) (length all)
  /\ Engine.ordered (fun x y => key y <= key x) ranked
  /\ exists rest,
       Permutation (ranked ++ rest) all
       /\ forall x y, In x ranked -> In y rest -> key y <= key x.
Proof.
  intros Hlimit ranked.
  set (sorted := Engine.binaryInsertionSort comparefn all) in *.
  assert (Hperm : Permutation sorted all)
    by apply binaryInsertionSort_Permutation.
  assert (Hord : Engine.ordered (fun x y => key y <= key x) sorted).
  { apply binaryInsertionSort_ordered; intros *; rewrite !by_key; lia. }
  set (r := Z.to_nat (Js.relative (Z.of_nat (length sorted)) limit)).
  assert (Hr : r = Nat.min (Z.to_nat limit) (length sorted)).
  { subst r. unfold Js.relative. destruct (Z.ltb_spec limit 0); lia. }
  assert (Hranked : ranked = take r sorted)
    by (exact (proj1 (slice_split sorted limit))).
  rewrite Hranked. split; [|split].
  - rewrite length_take, Hr, (Permutation_length Hperm). lia.
  - intros i j x y Hij Hx Hy.
    apply lookup_take_Some in Hx as [Hx _]. apply lookup_take_Some in Hy as [Hy _].
    exact (Hord i j x y Hij Hx Hy).
  - exists (drop r sorted). split; [rewrite take_drop; exact Hperm|].
    intros x y Hx Hy.
    apply list_elem_of_In, list_elem_of_lookup in Hx as [i Hi].
    apply list_elem_of_In, list_elem_of_lookup in Hy as [j Hj].
    apply lookup_take_Some in Hi as [Hi Hlt]. rewrite lookup_drop in Hj.
    apply (Hord i (r + j)%nat x y); [lia|exact Hi|exact Hj].
Qed.

End Ranking.

(** X12.  The three rankings of the store, with binary insertion sort, a
    database that serves the read and a limit that is not negative: the
    answer has [limit] tracks, or all of them when the store holds fewer; it
    runs from the highest count (the latest date) to the lowest; its tracks
    together with the tracks left out are the tracks of the store; and no
    track left out has a higher count (a later date) than a track of the
    answer.  The store is not modified. *)
Theorem rankings_return_the_top (db : Storage.Backend) (limit : Z)
  (s : Storage.State) :
  db Storage.GetAllTracks = None ->
  0 <= limit ->
  let all := (map_to_list (Storage.tracksStore s)).*2 in
  let top := fun (key : Track.t -> Z) (ranked : list Track.t) =>
    length ranked = Nat.min (Z.to_nat limit) (length all)
    /\ Engine.ordered (fun x y => key y <= key x) ranked
    /\ exists rest,
         Permutation (ranked ++ rest) all
         /\ forall x y, In x ranked -> In y rest -> key y <= key x in
  (exists ranked,
     StorageQueries.getMostPlayedTracks Engine.binaryInsertionSort db limit s
     = (s, Storage.Fulfilled ranked) /\ top Track.plays ranked)
  /\ (exists ranked,
        StorageQueries.getMostLikedTracks Engine.binaryInsertionSort db limit s
        = (s, Storage.Fulfilled ranked) /\ top Track.likes ranked)
  /\ (exists ranked,
        StorageQueries.getRecentTracks Engine.binaryInsertionSort db limit s
        = (s, Storage.Fulfilled ranked)
        /\ top (fun t => Model.getTime (Track.addedDate t)) ranked).
Proof.
  intros Hdb Hlimit all top.
  split; [|split]; eexists; (split; [
    unfold StorageQueries.getMostPlayedTracks, StorageQueries.getMostLikedTracks,
      StorageQueries.getRecentTracks, Storage.bind, Storage.getAllTracks,
      Storage.request, Storage.ret; rewrite Hdb; reflexivity |]).
  - apply (ranking_top Track.plays StorageQueries.byPlays); [|exact Hlimit].
    intros a b. unfold StorageQueries.byPlays. rewrite !or_zero_id. reflexivity.
  - apply (ranking_top Track.likes StorageQueries.byLikes); [|exact Hlimit].
    intros a b. unfold StorageQueries.byLikes. rewrite !or_zero_id. reflexivity.
  - apply (ranking_top (fun t => Model.getTime (Track.addedDate t))
             StorageQueries.byDate); [|exact Hlimit].
    intros a b. reflexivity.
Qed.

Lemma rankings_return_the_top_witness :
  exists ranked,
    StorageQueries.getMostPlayedTracks Engine.binaryInsertionSort
      Storage.healthy 1 Examples.storeWithA
    = (Examples.storeWithA, Storage.Fulfilled ranked)
    /\ length ranked = 1%nat.
Proof.
  destruct (rankings_return_the_top Storage.healthy 1 Examples.storeWithA)
    as ((ranked & Hcall & Hlen & _) & _).
  - reflexivity.
  - lia.
  - exists ranked. split; [exact Hcall|]. rewrite Hlen. reflexivity.
Defined.

(** ** Library: the projection mirrors the store *)

Lemma mirror_empty : LibraryCrud.mirror ∅ [].
Proof.
  split; [constructor|]. intros k t. rewrite lookup_empty. simpl.
  split; [discriminate|tauto].
Qed.

Lemma mirror_keyed (m : gmap string Track.t) (l : list Track.t) (k : string)
  (t : Track.t) :
  LibraryCrud.mirror m l -> m !! k = Some t -> Track.id t = k.
Proof. intros [_ H] Hk. apply H in Hk. tauto. Qed.

Lemma mirror_member (m : gmap string Track.t) (l : list Track.t) (t : Track.t) :
  LibraryCrud.mirror m l -> In t l -> m !! Track.id t = Some t.
Proof. intros [_ H] Hin. apply H. tauto. Qed.

(** The records of a store keyed by id, listed, mirror the store. *)
Lemma mirror_values (m : gmap string Track.t) :
  (forall k t, m !! k = Some t -> Track.id t = k) ->
  LibraryCrud.mirror m (map_to_list m).*2.
Proof.
  intros Hkey.
  assert (Hids : map Track.id (map_to_list m).*2 = (map_to_list m).*1).
  { assert (Hall : forall p, In p (map_to_list m) -> Track.id p.2 = p.1).
    { intros [k t] Hp. apply Hkey.
      apply elem_of_map_to_list, list_elem_of_In. exact Hp. }
    induction (map_to_list m) as [|p l IH]; simpl; [reflexivity|].
    rewrite Hall by (left; reflexivity).
    f_equal. apply IH. intros q Hq. apply Hall. right. exact Hq. }
  split.
  - rewrite Hids. apply NoDup_ListNoDup, NoDup_fst_map_to_list.
  - intros k t. split.
    + intros Hk. split; [|exact (Hkey k t Hk)].
      apply in_map_iff. exists (k, t). split; [reflexivity|].
      apply list_elem_of_In, elem_of_map_to_list. exact Hk.
    + intros [Hin Hid]. apply in_map_iff in Hin as ([k' t'] & Ht & Hin).
      simpl in Ht. subst t'.
      apply list_elem_of_In, elem_of_map_to_list in Hin.
      rewrite (Hkey k' t Hin) in Hid. subst k'. exact Hin.
Qed.

Lemma mirror_insert_fresh (m : gmap string Track.t) (l : list Track.t)
  (t : Track.t) :
  LibraryCrud.mirror m l -> m !! Track.id t = None ->
  LibraryCrud.mirror (<[Track.id t := t]> m) (l ++ [t]).
Proof.
  intros [Hnd Hm] Hfresh. split.
  - rewrite map_app. simpl. apply NoDup_ListNoDup, NoDup_app.
    split; [apply NoDup_ListNoDup; exact Hnd|]. split.
    + intros k Hk Hk'. apply list_elem_of_In in Hk.
      apply list_elem_of_singleton in Hk'. subst k.
      apply in_map_iff in Hk as (x & Hid & Hx).
      pose proof (proj2 (Hm (Track.id x) x) (conj Hx eq_refl)) as Hlook.
      rewrite Hid in Hlook. congruence.
    + apply NoDup_singleton.
  - intros k x. rewrite in_app_iff. simpl.
    destruct (decide (Track.id t = k)) as [<-|Hne].
    + rewrite lookup_insert_eq. split.
      * intros H. injection H as <-. tauto.
      * intros [[Hin|[<-|[]]] Hid]; [|reflexivity].
        pose proof (proj2 (Hm (Track.id x) x) (conj Hin eq_refl)) as Hlook.
        rewrite Hid in Hlook. congruence.
    + rewrite lookup_insert_ne by exact Hne. rewrite Hm. split.
      * tauto.
      * intros [[Hin|[<-|[]]] Hid]; [tauto|congruence].
Qed.

Lemma mirror_delete (m : gmap string Track.t) (l : list Track.t) (id : string) :
  LibraryCrud.mirror m l ->
  LibraryCrud.mirror (delete id m)
    (List.filter (fun t => negb (String.eqb (Track.id t) id)) l).
Proof.
  intros [Hnd Hm]. split.
  - clear Hm. induction l as [|x l IH]; simpl; [constructor|].
    inversion Hnd as [|? ? Hx Hl]; subst.
    destruct (negb (String.eqb (Track.id x) id)); simpl; [|apply IH; exact Hl].
    constructor; [|apply IH; exact Hl].
    intros Hin. apply Hx. apply in_map_iff in Hin as (y & Hy & Hin).
    apply filter_In in Hin as [Hin _]. apply in_map_iff. exists y. tauto.
  - intros k t. rewrite filter_In, negb_true_iff, String.eqb_neq.
    destruct (decide (id = k)) as [<-|Hne].
    + rewrite lookup_delete_eq. split; [discriminate|].
      intros [[_ Hne] Hid]. congruence.
    + rewrite lookup_delete_ne by exact Hne. rewrite Hm.
      split; [intros [Hin Hid]; repeat split; congruence|tauto].
Qed.

(** A record of the store replaced by one with the same id, and the tracks
    of the projection with that id replaced through [f], which sends the
    stored record to the new one. *)
Lemma mirror_replace (m : gmap string Track.t) (l : list Track.t) (id : string)
  (stored updated : Track.t) (f : Track.t -> Track.t) :
  LibraryCrud.mirror m l ->
  m !! id = Some stored ->
  Track.id updated = id ->
  f stored = updated ->
  LibraryCrud.mirror (<[id := updated]> m)
    (map (fun t => if String.eqb (Track.id t) id then f t else t) l).
Proof.
  intros [Hnd Hm] Hstored Hid Hf.
  assert (Hsame : forall t, In t l -> Track.id t = id -> t = stored).
  { intros t Hin Heq.
    pose proof (proj2 (Hm id t) (conj Hin Heq)). congruence. }
  assert (Hids : map Track.id
                   (map (fun t => if String.eqb (Track.id t) id then f t else t) l)
                 = map Track.id l).
  { rewrite map_map. apply map_ext_in. intros t Hin.
    destruct (String.eqb_spec (Track.id t) id) as [Heq|Hne]; [|reflexivity].
    rewrite (Hsame t Hin Heq), Hf, Hid. symmetry.
    rewrite <- (Hsame t Hin Heq). exact Heq. }
  split; [rewrite Hids; exact Hnd|].
  intros k x. rewrite in_map_iff.
  destruct (decide (id = k)) as [<-|Hne].
  - rewrite lookup_insert_eq. split.
    + intros H. injection H as <-. split; [|exact Hid].
      exists stored. rewrite (proj2 (String.eqb_eq _ _)).
      * split; [exact Hf|]. exact (proj1 (proj1 (Hm id stored) Hstored)).
      * exact (mirror_keyed m l id stored (conj Hnd Hm) Hstored).
    + intros [(t & Ht & Hin) Hxid].
      destruct (String.eqb_spec (Track.id t) id) as [Heq|Hneq].
      * rewrite (Hsame t Hin Heq), Hf in Ht. congruence.
      * subst x. contradiction.
  - rewrite lookup_insert_ne by exact Hne. rewrite Hm. split.
    + intros [Hin Hxid]. split; [|exact Hxid]. exists x.
      destruct (String.eqb_spec (Track.id x) id); [congruence|tauto].
    + intros [(t & Ht & Hin) Hxid].
      destruct (String.eqb_spec (Track.id t) id) as [Heq|Hneq].
      * rewrite (Hsame t Hin Heq), Hf in Ht. subst x. congruence.
      * subst x. tauto.
Qed.

(** A projection mapped over an id that the store does not hold is the
    projection itself. *)
Lemma map_absent_id (m : gmap string Track.t) (l : list Track.t) (id : string)
  (f : Track.t -> Track.t) :
  LibraryCrud.mirror m l -> m !! id = None ->
  map (fun t => if String.eqb (Track.id t) id then f t else t) l = l.
Proof.
  intros Hmir Hnone. rewrite <- (map_id l) at 2. apply map_ext_in.
  intros t Hin. destruct (String.eqb_spec (Track.id t) id) as [Heq|]; [|reflexivity].
  pose proof (mirror_member m l t Hmir Hin). congruence.
Qed.

(** The records that a store lists are the records it holds; filed under
    their ids, no record is listed twice. *)
Lemma stored_records (m : gmap string Track.t) (t : Track.t) :
  In t (map_to_list m).*2 <-> exists k, m !! k = Some t.
Proof.
  rewrite <- list_elem_of_In, list_elem_of_fmap. split.
  - intros ([k t'] & -> & Hin). exists k. apply elem_of_map_to_list. exact Hin.
  - intros (k & Hk). exists (k, t). split; [reflexivity|].
    apply elem_of_map_to_list. exact Hk.
Qed.

Lemma stored_records_NoDup (m : gmap string Track.t) :
  (forall k t, m !! k = Some t -> Track.id t = k) ->
  List.NoDup (map_to_list m).*2.
Proof.
  intros Hkey. apply (NoDup_map_inv Track.id).
  exact (proj1 (mirror_values m Hkey)).
Qed.

(** ** Search *)

Lemma append_String (c : ascii) (a b : string) :
  (String c a ++ b)%string = String c (a ++ b)%string.
Proof. reflexivity. Qed.

Lemma append_empty (b : string) : (EmptyString ++ b)%string = b.
Proof. reflexivity. Qed.

Lemma prefix_append (sub s : string) :
  String.prefix sub s = true <-> exists rest, s = (sub ++ rest)%string.
Proof.
  revert s. induction sub as [|c sub IH]; intros s.
  - split; [intros _; exists s; reflexivity|intros _; destruct s; reflexivity].
  - destruct s as [|d s]; simpl.
    + split; [discriminate|].
      intros [rest H]. rewrite append_String in H. discriminate.
    + destruct (Ascii.ascii_dec c d) as [->|Hne].
      * rewrite IH. split; intros [rest H]; exists rest;
          rewrite append_String in *; congruence.
      * split; [discriminate|].
        intros [rest H]. rewrite append_String in H. congruence.
Qed.

(** [includes] finds exactly the occurrences. *)
Lemma includes_occurs (s sub : string) :
  Text.includes s sub = true <-> Text.occurs sub s.
Proof.
  assert (Hnil : Text.includes "" sub = String.prefix sub "")
    by (destruct sub; reflexivity).
  assert (Hcons : forall c s, Text.includes (String c s) sub
            = if String.prefix sub (String c s) then true
              else Text.includes s sub) by reflexivity.
  unfold Text.occurs. induction s as [|c s IH]; [rewrite Hnil|rewrite Hcons].
  - destruct (String.prefix sub "") eqn:E.
    + apply prefix_append in E as [rest E].
      split; [intros _; exists ""%string, rest; exact E|reflexivity].
    + split; [discriminate|]. intros (before & after & H).
      destruct before; [|rewrite append_String in H; discriminate].
      rewrite append_empty in H.
      assert (String.prefix sub "" = true)
        by (apply prefix_append; exists after; exact H).
      congruence.
  - destruct (String.prefix sub (String c s)) eqn:E.
    + apply prefix_append in E as [rest E].
      split; [intros _; exists ""%string, rest; exact E|reflexivity].
    + rewrite IH. split.
      * intros (before & after & H). exists (String c before), after.
        rewrite append_String. congruence.
      * intros (before & after & H). destruct before as [|d before].
        -- rewrite append_empty in H.
           assert (String.prefix sub (String c s) = true)
             by (apply prefix_append; exists after; exact H).
           congruence.
        -- rewrite append_String in H. injection H as _ H.
           exists before, after. exact H.
Qed.

Lemma lowerAscii_twice (c : ascii) :
  Library.lowerAscii (Library.lowerAscii c) = Library.lowerAscii c.
Proof.
  destruct c as [[] [] [] [] [] [] [] []]; reflexivity.
Qed.

Lemma toLowerCase_twice (s : string) :
  Library.toLowerCase (Library.toLowerCase s) = Library.toLowerCase s.
Proof.
  induction s as [|c s IH]; simpl; [reflexivity|].
  rewrite lowerAscii_twice, IH. reflexivity.
Qed.

(** X13.  [searchTracks(query)], the database serving the read, over a
    store that files its records under their ids, for a query and tracks of
    ASCII text.  The search term is the query in lower case without the
    white space around it.  The answer holds, each once, exactly the tracks
    of the store in which the term occurs in the lower-case title, artist,
    description (when there is one) or category; with an empty term these are
    all the tracks of the store.  The case of the query does not matter, and
    the store is not modified. *)
Theorem searchTracks_finds_occurrences (db : Storage.Backend) (query : string)
  (s : Storage.State) :
  db Storage.GetAllTracks = None ->
  Storage.keyedById s ->
  Text.isAscii query = true ->
  (forall k t, Storage.tracksStore s !! k = Some t ->
               StorageQueries.isAscii t = true) ->
  let term := Text.trim (Library.toLowerCase query) in
  (exists found,
     StorageQueries.searchTracks db query s = (s, Storage.Fulfilled found)
     /\ List.NoDup found
     /\ (forall t, In t found <->
           (exists k, Storage.tracksStore s !! k = Some t)
           /\ (Text.occurs term (Library.toLowerCase (Track.title t))
               \/ Text.occurs term (Library.toLowerCase (Track.artist t))
               \/ (exists d, Track.description t = Some d
                             /\ Text.occurs term (Library.toLowerCase d))
               \/ Text.occurs term (Library.toLowerCase (Track.category t))))
     /\ (term = ""%string ->
         forall k t, Storage.tracksStore s !! k = Some t -> In t found))
  /\ StorageQueries.searchTracks db (Library.toLowerCase query) s
     = StorageQueries.searchTracks db query s.
Proof.
  intros Hdb [Hkey _] _ _ term.
  set (all := (map_to_list (Storage.tracksStore s)).*2).
  assert (Hcall : forall q,
    StorageQueries.searchTracks db q s
    = let searchTerm := Text.trim (Library.toLowerCase q) in
      (s, Storage.Fulfilled
            (if negb (Text.nonEmpty searchTerm) then all
             else List.filter
               (fun track =>
                  Text.includes (Library.toLowerCase (Track.title track)) searchTerm
                  || Text.includes (Library.toLowerCase (Track.artist track)) searchTerm
                  || match Track.description track with
                     | Some d => Text.includes (Library.toLowerCase d) searchTerm
                     | None => false
                     end
                  || Text.includes (Library.toLowerCase (Track.category track))
                       searchTerm)
               all))).
  { intros q. unfold StorageQueries.searchTracks, Storage.bind,
      Storage.getAllTracks, Storage.request, Storage.ret.
    rewrite Hdb. simpl.
    destruct (negb (Text.nonEmpty (Text.trim (Library.toLowerCase q))));
      reflexivity. }
  assert (Hnd : List.NoDup all) by (apply stored_records_NoDup; exact Hkey).
  assert (Hall : forall t, In t all
                           <-> exists k, Storage.tracksStore s !! k = Some t)
    by (intros t; apply stored_records).
  assert (Hempty : forall x, Text.occurs "" x).
  { intros x. exists ""%string, x. reflexivity. }
  split; [|rewrite !Hcall; simpl; rewrite toLowerCase_twice; reflexivity].
  rewrite Hcall. simpl. fold term.
  destruct term as [|c term'] eqn:Eterm.
  - simpl negb. cbv iota. exists all. split; [reflexivity|].
    split; [exact Hnd|]. split.
    + intros t. rewrite Hall. split; [|tauto].
      intros Hin. split; [exact Hin|]. left. apply Hempty.
    + intros _ k t Hk. apply Hall. exists k. exact Hk.
  - simpl negb. cbv iota. rewrite <- Eterm.
    eexists. split; [reflexivity|]. split; [apply List.NoDup_filter; exact Hnd|].
    split; [|rewrite Eterm; discriminate].
    intros t. rewrite filter_In, !orb_true_iff, !includes_occurs, Hall.
    split; intros [Hin Hmatch]; (split; [exact Hin|]).
    + destruct Hmatch as [[[H|H]|H]|H]; [tauto|tauto| |tauto].
      destruct (Track.description t) as [d|]; [|discriminate].
      apply includes_occurs in H. right. right. left. exists d. tauto.
    + destruct Hmatch as [H|[H|[(d & Hd & H)|H]]]; [tauto|tauto| |tauto].
      left. right. rewrite Hd. apply includes_occurs. exact H.
Qed.

Lemma searchTracks_finds_occurrences_witness :
  exists found,
    StorageQueries.searchTracks Storage.healthy " SON " Examples.storeWithA
      = (Examples.storeWithA, Storage.Fulfilled found)
    /\ In Examples.trackA found.
Proof.
  destruct (searchTracks_finds_occurrences Storage.healthy " SON "
              Examples.storeWithA eq_refl storeWithA_keyedById eq_refl)
    as ((found & Hcall & _ & Hin & _) & _).
  - intros k t Hk. simpl in Hk.
    apply lookup_singleton_Some in Hk as [_ <-]. reflexivity.
  - exists found. split; [exact Hcall|]. apply Hin. split.
    + exists "a"%string. reflexivity.
    + left. exists ""%string, "g"%string. reflexivity.
Defined.

Ltac storage_step :=
  unfold Storage.toggleTrackLike, Storage.incrementTrackPlays,
    Storage.getAllTracks, Storage.getTrack, Storage.saveTrack,
    Storage.deleteTrack, Storage.bind, Storage.request, Storage.ret.

Lemma loadTracks_keeps_mirror (db : Storage.Backend) (s : Library.State) :
  LibraryCrud.mirrors s -> LibraryCrud.mirrors (LibraryCrud.loadTracks db s).
Proof.
  intros Hm. unfold LibraryCrud.mirrors, LibraryCrud.loadTracks. storage_step.
  simpl. destruct (db Storage.GetAllTracks); simpl; [exact Hm|].
  apply mirror_values. intros k t Hk. exact (mirror_keyed _ _ k t Hm Hk).
Qed.

Lemma deleteTrack_keeps_mirror (db : Storage.Backend) (id : string)
  (s : Library.State) :
  LibraryCrud.mirrors s ->
  LibraryCrud.mirrors (fst (Library.deleteTrack db id s)).
Proof.
  intros Hm. unfold LibraryCrud.mirrors, Library.deleteTrack. storage_step.
  simpl. destruct (db (Storage.DeleteTrack id)); simpl; [exact Hm|].
  apply mirror_delete. exact Hm.
Qed.

Lemma playTrack_keeps_mirror (db : Storage.Backend) (id : string)
  (s : Library.State) :
  LibraryCrud.mirrors s -> LibraryCrud.mirrors (LibraryCrud.playTrack db id s).
Proof.
  intros Hm. unfold LibraryCrud.mirrors, LibraryCrud.playTrack. storage_step.
  destruct (db (Storage.GetTrack id)); simpl; [exact Hm|].
  destruct (Storage.tracksStore (Library.storageService s) !! id)
    as [stored|] eqn:Hstored; simpl.
  - destruct (db (Storage.PutTrack _)); simpl; [exact Hm|].
    rewrite (mirror_keyed _ _ id stored Hm Hstored).
    apply (mirror_replace _ _ id stored); [exact Hm|exact Hstored| |reflexivity].
    exact (mirror_keyed _ _ id stored Hm Hstored).
  - unfold LibraryCrud.mirrors in Hm.
    rewrite (map_absent_id _ _ id _ Hm Hstored). exact Hm.
Qed.

Lemma likeTrack_keeps_mirror (db : Storage.Backend) (id : string)
  (s : Library.State) :
  LibraryCrud.mirrors s ->
  LibraryCrud.mirrors (fst (LibraryCrud.likeTrack db id s)).
Proof.
  intros Hm. unfold LibraryCrud.mirrors, LibraryCrud.likeTrack. storage_step.
  destruct (db (Storage.GetTrack id)); simpl; [exact Hm|].
  destruct (Storage.tracksStore (Library.storageService s) !! id)
    as [stored|] eqn:Hstored; simpl.
  - destruct (db (Storage.PutTrack _)); simpl; [exact Hm|].
    rewrite (mirror_keyed _ _ id stored Hm Hstored).
    apply (mirror_replace _ _ id stored); [exact Hm|exact Hstored| |reflexivity].
    exact (mirror_keyed _ _ id stored Hm Hstored).
  - unfold LibraryCrud.mirrors in Hm.
    rewrite (map_absent_id _ _ id _ Hm Hstored). exact Hm.
Qed.

Lemma fail_fields {A : Type} (message : string) (s : Library.State) :
  Library.storageService (fst (@LibraryCrud.fail A message s))
    = Library.storageService s
  /\ Library.tracksSignal (fst (@LibraryCrud.fail A message s))
     = Library.tracksSignal s
  /\ Library.loadingState (fst (@LibraryCrud.fail A message s)) = Library.error
  /\ Library.errorMessage (fst (@LibraryCrud.fail A message s)) = message
  /\ snd (@LibraryCrud.fail A message s) = Storage.Rejected message.
Proof. repeat split. Qed.

Lemma spread_id (track : Track.t) (updates : Partial.t) :
  Partial.id updates = None ->
  Track.id (Partial.spread track updates) = Track.id track.
Proof. intros H. unfold Partial.spread. simpl. rewrite H. reflexivity. Qed.

Lemma updateTrack_keeps_mirror (db : Storage.Backend) (id : string)
  (updates : Partial.t) (s : Library.State) :
  LibraryCrud.mirrors s -> Partial.id updates = None ->
  LibraryCrud.mirrors (fst (LibraryCrud.updateTrack db id updates s)).
Proof.
  intros Hm Hid. unfold LibraryCrud.mirrors, LibraryCrud.updateTrack.
  destruct (match Partial.title updates with Some _ => _ | None => _ end);
    [exact Hm|].
  destruct (match Partial.description updates with Some (Some _) => _ | _ => _ end);
    [exact Hm|].
  storage_step. simpl.
  destruct (db (Storage.GetTrack id)); simpl; [exact Hm|].
  destruct (Storage.tracksStore (Library.storageService s) !! id)
    as [stored|] eqn:Hstored; simpl; [|exact Hm].
  destruct (db (Storage.PutTrack _)); simpl; [exact Hm|].
  pose proof (mirror_keyed _ _ id stored Hm Hstored) as Hkey.
  rewrite Hid. simpl. rewrite Hkey.
  match goal with
  | |- LibraryCrud.mirror (<[_ := ?u]> _) _ =>
      apply (mirror_replace _ _ id stored u (fun _ => u));
        [exact Hm|exact Hstored|simpl; rewrite Hid; exact Hkey|reflexivity]
  end.
Qed.

Lemma createTrack_keeps_mirror (db : Storage.Backend) (fresh : LibraryCrud.Fresh)
  (trackData : Partial.t) (audioFile : StorageQueries.File)
  (imageFile : option StorageQueries.File) (s : Library.State) :
  LibraryCrud.mirrors s ->
  Storage.tracksStore (Library.storageService s) !! LibraryCrud.uuid fresh = None ->
  LibraryCrud.mirrors
    (fst (LibraryCrud.createTrack db fresh trackData audioFile imageFile s)).
Proof.
  intros Hm Hfresh. unfold LibraryCrud.mirrors, LibraryCrud.createTrack.
  destruct (LibraryCrud.validateTrackData trackData); [exact Hm|].
  destruct (StorageQueries.saveAudioFile audioFile) as [fileUrl|]; [|exact Hm].
  destruct (match imageFile with Some _ => _ | None => _ end) as [cover|];
    [|exact Hm].
  destruct (LibraryCrud.getAudioDuration fresh) as [d|]; [|exact Hm].
  storage_step. simpl.
  destruct (db (Storage.PutTrack _)); simpl; [exact Hm|].
  match goal with
  | |- LibraryCrud.mirror (<[_ := ?t]> _) _ =>
      apply (mirror_insert_fresh _ _ t Hm Hfresh)
  end.
Qed.

Lemma clearAllData_keeps_mirror (outcome : option string) (s : Library.State) :
  LibraryCrud.mirrors s ->
  LibraryCrud.mirrors (fst (LibraryCrud.clearAllData outcome s)).
Proof.
  intros Hm. unfold LibraryCrud.mirrors, LibraryCrud.clearAllData,
    StorageQueries.clearAllData.
  destruct outcome; simpl; [exact Hm|apply mirror_empty].
Qed.

Lemma call_keeps_mirror (c : LibraryCrud.Call) (s : Library.State) :
  LibraryCrud.mirrors s -> LibraryCrud.wellFormed c s ->
  LibraryCrud.mirrors (LibraryCrud.call c s).
Proof.
  intros Hm Hwf. destruct c; unfold LibraryCrud.call.
  - apply createTrack_keeps_mirror; assumption.
  - apply updateTrack_keeps_mirror; assumption.
  - apply deleteTrack_keeps_mirror; assumption.
  - apply playTrack_keeps_mirror; assumption.
  - apply likeTrack_keeps_mirror; assumption.
  - apply loadTracks_keeps_mirror; assumption.
  - apply clearAllData_keeps_mirror; assumption.
Qed.

(** X14.  The projection of the library mirrors the store through every
    sequence of [createTrack], [updateTrack], [deleteTrack], [playTrack],
    [likeTrack], [loadTracks] and [clearAllData] calls, whether the database
    serves or rejects each of their requests: as long as [uuidv4()] returns
    identifiers the store does not hold and no update carries an [id], the
    tracks of the projection keep distinct ids and are exactly the records of
    the store. *)
Theorem library_mirrors_store (calls : list LibraryCrud.Call)
  (s : Library.State) :
  LibraryCrud.mirrors s ->
  LibraryCrud.allWellFormed calls s ->
  LibraryCrud.mirrors (LibraryCrud.run calls s).
Proof.
  revert s. induction calls as [|c rest IH]; intros s Hm Hwf; simpl in *.
  - exact Hm.
  - destruct Hwf as [Hc Hrest]. apply IH; [|exact Hrest].
    apply call_keeps_mirror; assumption.
Qed.

Lemma library_mirrors_store_witness :
  LibraryCrud.mirrors
    (LibraryCrud.run
       [LibraryCrud.CreateTrack Storage.healthy Examples.freshOne
          Examples.formOne Examples.audioOne None;
        LibraryCrud.PlayTrack Storage.healthy "id-1";
        LibraryCrud.UpdateTrack Examples.rejectsA "id-1" Examples.retitle;
        LibraryCrud.DeleteTrack Storage.healthy "zz"]
       Examples.emptyLibrary).
Proof.
  apply (library_mirrors_store _ Examples.emptyLibrary).
  - exact mirror_empty.
  - simpl. split; [reflexivity|]. split; [exact I|]. split; [reflexivity|].
    split; exact I.
Defined.

(** ** Library: creating and updating *)

Lemma length_trimStart (s : string) :
  (String.length (Text.trimStart s) <= String.length s)%nat.
Proof.
  induction s as [|c s IH]; simpl; [lia|].
  destruct (Text.isSpace c); simpl; lia.
Qed.

Lemma length_trimEnd (s : string) :
  (String.length (Text.trimEnd s) <= String.length s)%nat.
Proof.
  induction s as [|c s IH]; simpl; [lia|].
  destruct (Text.trimEnd s); simpl in *; [destruct (Text.isSpace c); simpl; lia|lia].
Qed.

Lemma len_trim (s : string) : LibraryCrud.len (Text.trim s) <= LibraryCrud.len s.
Proof.
  unfold LibraryCrud.len, Text.trim.
  pose proof (length_trimEnd (Text.trimStart s)).
  pose proof (length_trimStart s). lia.
Qed.

(** What a form that passes [validateTrackData] holds. *)
Lemma validateTrackData_passes (trackData : Partial.t) :
  LibraryCrud.validateTrackData trackData = None ->
  exists title artist category,
    Partial.title trackData = Some title
    /\ Partial.artist trackData = Some artist
    /\ Partial.category trackData = Some category
    /\ 0 < LibraryCrud.len (Text.trim title)
    /\ LibraryCrud.len title <= 50
    /\ 0 < LibraryCrud.len (Text.trim artist)
    /\ In category LibraryCrud.musicCategories
    /\ (forall d, Partial.description trackData = Some (Some d) ->
                  LibraryCrud.len d <= 200).
Proof.
  unfold LibraryCrud.validateTrackData.
  destruct (Partial.title trackData) as [title|]; [|discriminate].
  destruct (negb (Text.nonEmpty title)
            || (LibraryCrud.len (Text.trim title) =? 0)) eqn:Ht; [discriminate|].
  destruct (Z.ltb_spec 50 (LibraryCrud.len title)) as [Hlong|Hshort];
    [discriminate|].
  destruct (Partial.artist trackData) as [artist|]; [|discriminate].
  destruct (negb (Text.nonEmpty artist)
            || (LibraryCrud.len (Text.trim artist) =? 0)) eqn:Ha; [discriminate|].
  destruct (match Partial.description trackData with
            | Some (Some d) => _ | _ => false end) eqn:Hd; [discriminate|].
  destruct (Partial.category trackData) as [category|]; [|discriminate].
  destruct (negb (Text.nonEmpty category)); [discriminate|].
  destruct (existsb (String.eqb category) LibraryCrud.musicCategories) eqn:Hc;
    [|discriminate].
  intros _. exists title, artist, category.
  apply orb_false_iff in Ht as [_ Ht]. apply orb_false_iff in Ha as [_ Ha].
  apply Z.eqb_neq in Ht. apply Z.eqb_neq in Ha.
  assert (Hnn : forall s, 0 <= LibraryCrud.len s)
    by (intros s; unfold LibraryCrud.len; lia).
  pose proof (Hnn (Text.trim title)). pose proof (Hnn (Text.trim artist)).
  repeat split; try lia.
  - apply existsb_exists in Hc as (x & Hx & Heq).
    apply String.eqb_eq in Heq. subst x. exact Hx.
  - intros d Hdesc. rewrite Hdesc in Hd.
    destruct (Z.ltb_spec 200 (LibraryCrud.len d)); [|lia].
    rewrite andb_true_r in Hd. destruct d; [unfold LibraryCrud.len; simpl; lia|].
    discriminate.
Qed.

(** What a file that [saveAudioFile] or [saveImageFile] accepts is. *)
Lemma saveAudioFile_accepts (file : StorageQueries.File) (url : string) :
  StorageQueries.saveAudioFile file = Storage.Fulfilled url ->
  StorageQueries.size file <= 10 * 1024 * 1024
  /\ In (StorageQueries.type file) StorageQueries.audioTypes
  /\ StorageQueries.dataURL file = Some url.
Proof.
  unfold StorageQueries.saveAudioFile, StorageQueries.fileToDataURL,
    StorageQueries.allowed.
  destruct (Z.ltb_spec (10 * 1024 * 1024) (StorageQueries.size file))
    as [Hbig|Hsmall]; [discriminate|].
  destruct (existsb _ _) eqn:Ht; simpl; [|discriminate].
  destruct (StorageQueries.dataURL file); [|discriminate].
  intros H. injection H as <-. repeat split; [lia|].
  apply existsb_exists in Ht as (x & Hx & Heq).
  apply String.eqb_eq in Heq. subst x. exact Hx.
Qed.

Lemma saveImageFile_accepts (file : StorageQueries.File) (url : string) :
  StorageQueries.saveImageFile file = Storage.Fulfilled url ->
  StorageQueries.size file <= 2 * 1024 * 1024
  /\ In (StorageQueries.type file) StorageQueries.imageTypes
  /\ StorageQueries.dataURL file = Some url.
Proof.
  unfold StorageQueries.saveImageFile, StorageQueries.fileToDataURL,
    StorageQueries.allowed.
  destruct (Z.ltb_spec (2 * 1024 * 1024) (StorageQueries.size file))
    as [Hbig|Hsmall]; [discriminate|].
  destruct (existsb _ _) eqn:Ht; simpl; [|discriminate].
  destruct (StorageQueries.dataURL file); [|discriminate].
  intros H. injection H as <-. repeat split; [lia|].
  apply existsb_exists in Ht as (x & Hx & Heq).
  apply String.eqb_eq in Heq. subst x. exact Hx.
Qed.

(** X15.  [createTrack], for a form whose title, artist and description are
    ASCII text, either stores a checked track or changes no record.
    When it resolves, the track it returns carries the fresh identifier, no
    plays and no likes, the trimmed title (not blank, at most 50 characters),
    a trimmed artist that is not blank, a description of at most 200
    characters, a category of the enum and an audio file of at most 10 MB
    with one of the four audio types (and, with a cover, an image of at most
    2 MB of one of the three image types); it is filed in the store under
    its identifier and appended to the projection.  When it rejects, the
    records of the store and the projection are as they were, the state is
    [error] and the message is the one thrown. *)
Theorem createTrack_stores_checked_track (db : Storage.Backend)
  (fresh : LibraryCrud.Fresh) (trackData : Partial.t)
  (audioFile : StorageQueries.File) (imageFile : option StorageQueries.File)
  (s : Library.State) :
  Partial.isAscii trackData = true ->
  let result := LibraryCrud.createTrack db fresh trackData audioFile imageFile s in
  (forall track, snd result = Storage.Fulfilled track ->
     Track.id track = LibraryCrud.uuid fresh
     /\ Track.plays track = 0 /\ Track.likes track = 0
     /\ (exists title, Partial.title trackData = Some title
                       /\ Track.title track = Text.trim title)
     /\ 0 < LibraryCrud.len (Track.title track) <= 50
     /\ 0 < LibraryCrud.len (Track.artist track)
     /\ (forall d, Track.description track = Some d -> LibraryCrud.len d <= 200)
     /\ In (Track.category track) LibraryCrud.musicCategories
     /\ Track.fileSize track <= 10 * 1024 * 1024
     /\ In (Track.fileType track) StorageQueries.audioTypes
     /\ (forall cover, Track.coverImage track = Some cover ->
           exists image, imageFile = Some image
                         /\ StorageQueries.size image <= 2 * 1024 * 1024
                         /\ In (StorageQueries.type image) StorageQueries.imageTypes)
     /\ Storage.tracksStore (Library.storageService (fst result))
        = <[LibraryCrud.uuid fresh := track]>
            (Storage.tracksStore (Library.storageService s))
     /\ Library.tracksSignal (fst result) = Library.tracksSignal s ++ [track]
     /\ Library.loadingState (fst result) = Library.success)
  /\ (forall message, snd result = Storage.Rejected message ->
        Storage.tracksStore (Library.storageService (fst result))
          = Storage.tracksStore (Library.storageService s)
        /\ Storage.playlistsStore (Library.storageService (fst result))
           = Storage.playlistsStore (Library.storageService s)
        /\ Library.tracksSignal (fst result) = Library.tracksSignal s
        /\ Library.loadingState (fst result) = Library.error
        /\ Library.errorMessage (fst result) = message).
Proof.
  intros _ result. subst result. unfold LibraryCrud.createTrack.
  destruct (LibraryCrud.validateTrackData trackData) as [m|] eqn:Hv.
  { split; [discriminate|]. intros message H. injection H as <-. repeat split. }
  destruct (validateTrackData_passes trackData Hv)
    as (title & artist & category & Ht & Ha & Hc & Ht0 & Ht50 & Ha0 & Hcat & Hdesc).
  destruct (StorageQueries.saveAudioFile audioFile) as [fileUrl|m] eqn:Haudio.
  2:{ split; [discriminate|]. intros message H. injection H as <-. repeat split. }
  destruct (saveAudioFile_accepts audioFile fileUrl Haudio) as (Hsize & Htype & _).
  destruct (match imageFile with Some _ => _ | None => _ end)
    as [coverImage|m] eqn:Himage.
  2:{ split; [discriminate|]. intros message H. injection H as <-. repeat split. }
  destruct (LibraryCrud.getAudioDuration fresh) as [d|m].
  2:{ split; [discriminate|]. intros message H. injection H as <-. repeat split. }
  storage_step. simpl. destruct (db (Storage.PutTrack _)) as [e|]; simpl.
  { split; [discriminate|]. intros message H. injection H as <-. repeat split. }
  split; [|discriminate].
  intros track H. injection H as <-. simpl. rewrite Ht, Ha, Hc. simpl.
  pose proof (len_trim title).
  repeat split; try assumption; try lia.
  - exists title. split; reflexivity.
  - intros d0 Hd0. destruct (Partial.description trackData) as [[d1|]|] eqn:Hd1;
      try discriminate.
    injection Hd0 as <-. pose proof (Hdesc d1 eq_refl). pose proof (len_trim d1). lia.
  - intros cover ->. destruct imageFile as [image|]; [|discriminate].
    destruct (StorageQueries.saveImageFile image) as [url|] eqn:Hi; [|discriminate].
    destruct (saveImageFile_accepts image url Hi) as (H1 & H2 & _).
    exists image. tauto.
Qed.

Lemma createTrack_stores_checked_track_witness :
  (exists track,
     snd (LibraryCrud.createTrack Storage.healthy Examples.freshOne
            Examples.formOne Examples.audioOne None Examples.emptyLibrary)
       = Storage.Fulfilled track
     /\ Track.title track = "First song"%string
     /\ Library.tracksSignal
          (fst (LibraryCrud.createTrack Storage.healthy Examples.freshOne
                  Examples.formOne Examples.audioOne None Examples.emptyLibrary))
        = [track])
  /\ Library.tracksSignal
       (fst (LibraryCrud.createTrack Storage.healthy Examples.freshOne
               Examples.formOne Examples.audioTooLarge None
               Examples.emptyLibrary))
     = [].
Proof.
  split.
  - destruct (createTrack_stores_checked_track Storage.healthy Examples.freshOne
                Examples.formOne Examples.audioOne None Examples.emptyLibrary
                eq_refl) as (H & _).
    eexists. split; [reflexivity|].
    destruct (H _ eq_refl)
      as (_ & _ & _ & (title & Hform & Ht) & _ & _ & _ & _ & _ & _ & _ & _ & Hl & _).
    split; [|exact Hl].
    rewrite Ht. injection Hform as <-. reflexivity.
  - destruct (createTrack_stores_checked_track Storage.healthy Examples.freshOne
                Examples.formOne Examples.audioTooLarge None
                Examples.emptyLibrary eq_refl) as (_ & H).
    destruct (H "Le fichier audio ne doit pas dépasser 10MB" eq_refl)
      as (_ & _ & Ht & _).
    exact Ht.
Defined.

(** X16.  [updateTrack(id, updates)], for updates whose text is ASCII.
    Whenever it rejects, the records of
    the store and the projection are as they were, the state is [error] and
    the message is the one thrown.  For an id that the store does not hold
    (the read being served) it always rejects, with "Piste non trouvée" when
    the updates pass the two length checks.  When it resolves, the store held
    a track under [id], the updates have a title of at most 50 and a
    description of at most 200 characters, the track with the updates laid
    over it is filed under its id, and the tracks of the projection with id
    [id] are replaced by it. *)
Theorem updateTrack_outcomes (db : Storage.Backend) (id : string)
  (updates : Partial.t) (s : Library.State) :
  Partial.isAscii updates = true ->
  let result := LibraryCrud.updateTrack db id updates s in
  let store := Storage.tracksStore (Library.storageService s) in
  (forall message, snd result = Storage.Rejected message ->
     Storage.tracksStore (Library.storageService (fst result)) = store
     /\ Library.tracksSignal (fst result) = Library.tracksSignal s
     /\ Library.loadingState (fst result) = Library.error
     /\ Library.errorMessage (fst result) = message)
  /\ (db (Storage.GetTrack id) = None -> store !! id = None ->
      (exists message, snd result = Storage.Rejected message)
      /\ ((forall title, Partial.title updates = Some title ->
             LibraryCrud.len title <= 50) ->
          (forall d, Partial.description updates = Some (Some d) ->
             LibraryCrud.len d <= 200) ->
          snd result = Storage.Rejected "Piste non trouvée"))
  /\ (snd result = Storage.Fulfilled tt ->
      exists existing,
        store !! id = Some existing
        /\ (forall title, Partial.title updates = Some title ->
              LibraryCrud.len title <= 50)
        /\ (forall d, Partial.description updates = Some (Some d) ->
              LibraryCrud.len d <= 200)
        /\ Storage.tracksStore (Library.storageService (fst result))
           = <[Track.id (Partial.spread existing updates)
               := Partial.spread existing updates]> store
        /\ Library.tracksSignal (fst result)
           = map (fun t => if String.eqb (Track.id t) id
                           then Partial.spread existing updates else t)
               (Library.tracksSignal s)
        /\ Library.loadingState (fst result) = Library.success).
Proof.
  intros _ result store. subst result store. unfold LibraryCrud.updateTrack.
  set (longTitle := match Partial.title updates with
                    | Some title => _ | None => false end).
  set (longDescription := match Partial.description updates with
                          | Some (Some d) => _ | _ => false end).
  assert (Htitle : longTitle = false ->
            forall title, Partial.title updates = Some title ->
                          LibraryCrud.len title <= 50).
  { subst longTitle. intros H title Ht. rewrite Ht in H.
    destruct (Z.ltb_spec 50 (LibraryCrud.len title)) as [Hlong|]; [|lia].
    rewrite andb_true_r in H.
    destruct title; [unfold LibraryCrud.len; simpl; lia|discriminate]. }
  assert (Hdescr : longDescription = false ->
            forall d, Partial.description updates = Some (Some d) ->
                      LibraryCrud.len d <= 200).
  { subst longDescription. intros H d Hd. rewrite Hd in H.
    destruct (Z.ltb_spec 200 (LibraryCrud.len d)) as [Hlong|]; [|lia].
    rewrite andb_true_r in H.
    destruct d; [unfold LibraryCrud.len; simpl; lia|discriminate]. }
  assert (Htitle' : (forall title, Partial.title updates = Some title ->
                                   LibraryCrud.len title <= 50) ->
                    longTitle = false).
  { subst longTitle. intros H. destruct (Partial.title updates) as [t|];
      [|reflexivity].
    specialize (H t eq_refl).
    destruct (Z.ltb_spec 50 (LibraryCrud.len t)); [lia|apply andb_false_r]. }
  assert (Hdescr' : (forall d, Partial.description updates = Some (Some d) ->
                               LibraryCrud.len d <= 200) ->
                    longDescription = false).
  { subst longDescription. intros H.
    destruct (Partial.description updates) as [[d|]|]; try reflexivity.
    specialize (H d eq_refl).
    destruct (Z.ltb_spec 200 (LibraryCrud.len d)); [lia|apply andb_false_r]. }
  destruct longTitle.
  { split; [intros m H; injection H as <-; repeat split|].
    split; [|discriminate]. intros _ _. split; [eexists; reflexivity|].
    intros H. specialize (Htitle' H). discriminate. }
  destruct longDescription.
  { split; [intros m H; injection H as <-; repeat split|].
    split; [|discriminate]. intros _ _. split; [eexists; reflexivity|].
    intros _ H. specialize (Hdescr' H). discriminate. }
  storage_step. simpl.
  destruct (db (Storage.GetTrack id)) as [e|] eqn:Hget; simpl.
  { split; [intros m H; injection H as <-; repeat split|].
    split; [discriminate|discriminate]. }
  destruct (Storage.tracksStore (Library.storageService s) !! id)
    as [existing|] eqn:Hex; simpl.
  2:{ split; [intros m H; injection H as <-; repeat split|].
      split; [|discriminate]. intros _ _. split; [eexists; reflexivity|].
      reflexivity. }
  destruct (db (Storage.PutTrack _)) as [e|]; simpl.
  { split; [intros m H; injection H as <-; repeat split|].
    split; [discriminate|discriminate]. }
  split; [discriminate|]. split; [discriminate|].
  intros _. exists existing. repeat split; auto.
Qed.

Lemma updateTrack_outcomes_witness :
  snd (LibraryCrud.updateTrack Storage.healthy "zz" Examples.retitle
         Examples.libraryWithA)
    = Storage.Rejected "Piste non trouvée"
  /\ Library.tracksSignal
       (fst (LibraryCrud.updateTrack Storage.healthy "a" Examples.retitle
               Examples.libraryWithA))
     = [Partial.spread Examples.trackA Examples.retitle].
Proof.
  split.
  - destruct (updateTrack_outcomes Storage.healthy "zz" Examples.retitle
                Examples.libraryWithA eq_refl) as (_ & H & _).
    destruct (H eq_refl eq_refl) as (_ & Hmsg).
    apply Hmsg.
    + intros title Ht. injection Ht as <-. vm_compute. discriminate.
    + intros d Hd. discriminate Hd.
  - destruct (updateTrack_outcomes Storage.healthy "a" Examples.retitle
                Examples.libraryWithA eq_refl) as (_ & _ & H).
    destruct (H eq_refl) as (existing & Hex & _ & _ & _ & Ht & _).
    rewrite Ht. injection Hex as <-. reflexivity.
Defined.

(** X17.  [loadTracks()] never modifies the records of the store and never
    throws.  With the read served, the projection holds exactly the records
    of the store, each once, and the state is [success] with an empty
    message; for a store that files its records under their ids, the
    projection then mirrors the store.  With the read rejected, the
    projection stays as it was and the state is [error]. *)
Theorem loadTracks_loads_the_store (db : Storage.Backend) (s : Library.State) :
  let s' := LibraryCrud.loadTracks db s in
  let store := Storage.tracksStore (Library.storageService s) in
  Storage.tracksStore (Library.storageService s') = store
  /\ Storage.playlistsStore (Library.storageService s')
     = Storage.playlistsStore (Library.storageService s)
  /\ (db Storage.GetAllTracks = None ->
      Permutation (Library.tracksSignal s') (map_to_list store).*2
      /\ (forall t, In t (Library.tracksSignal s')
                    <-> exists k, store !! k = Some t)
      /\ length (Library.tracksSignal s') = size store
      /\ Library.loadingState s' = Library.success
      /\ Library.errorMessage s' = ""%string
      /\ (Storage.keyedById (Library.storageService s) ->
          LibraryCrud.mirrors s'))
  /\ (db Storage.GetAllTracks <> None ->
      Library.tracksSignal s' = Library.tracksSignal s
      /\ Library.loadingState s' = Library.error
      /\ Library.errorMessage s'
         = "Erreur lors du chargement des pistes"%string).
Proof.
  intros s' store. subst s' store. unfold LibraryCrud.loadTracks.
  storage_step. simpl.
  destruct (db Storage.GetAllTracks) as [e|]; simpl.
  - split; [reflexivity|]. split; [reflexivity|].
    split; [discriminate|]. intros _. repeat split.
  - split; [reflexivity|]. split; [reflexivity|].
    split; [|intros H; congruence]. intros _.
    split; [reflexivity|]. split; [apply stored_records|].
    split; [rewrite length_fmap; apply length_map_to_list|].
    split; [reflexivity|]. split; [reflexivity|].
    intros [Hkey _]. unfold LibraryCrud.mirrors. simpl.
    apply mirror_values. exact Hkey.
Qed.

Lemma loadTracks_loads_the_store_witness :
  In Examples.trackA
    (Library.tracksSignal
       (LibraryCrud.loadTracks Storage.healthy
          (Library.set_tracks [] Examples.libraryWithA)))
  /\ length (Library.tracksSignal
               (LibraryCrud.loadTracks Storage.healthy
                  (Library.set_tracks [] Examples.libraryWithA)))
     = 1%nat.
Proof.
  destruct (loadTracks_loads_the_store Storage.healthy
              (Library.set_tracks [] Examples.libraryWithA))
    as (_ & _ & H & _).
  destruct (H eq_refl) as (_ & Hin & Hlen & _). split.
  - apply Hin. exists "a"%string. reflexivity.
  - rewrite Hlen. reflexivity.
Defined.

Lemma withTracks_keyed (ts : list Track.t) (m : gmap string Track.t) :
  (forall k t, m !! k = Some t -> Track.id t = k) ->
  forall k t, Storage.withTracks ts m !! k = Some t -> Track.id t = k.
Proof.
  revert m. induction ts as [|x rest IH]; intros m Hkey; [exact Hkey|].
  apply (IH (<[Track.id x := x]> m)).
  intros k t Hk. destruct (decide (Track.id x = k)) as [<-|Hne].
  - rewrite lookup_insert_eq in Hk. congruence.
  - rewrite lookup_insert_ne in Hk by exact Hne. apply Hkey. exact Hk.
Qed.

(** X18.  [importData] of the library.  When the database serves every
    request, the tracks and playlists of the document (a missing member
    counting as empty) are written to the store, the projection is reloaded
    and holds exactly the records of the store, each once, and the state is
    [success]; for a store that files its records under their ids, the
    projection then mirrors the store.  When the import is rejected, the
    projection is left as it was, whatever was written before the failure,
    and the state is [error] with the message thrown. *)
Theorem library_importData_reloads (db : Storage.Backend)
  (data : Storage.Snapshot) (s : Library.State) :
  let result := LibraryCrud.importData db data s in
  let store' := Storage.tracksStore (Library.storageService (fst result)) in
  ((forall r, db r = None) ->
   snd result = Storage.Fulfilled tt
   /\ store'
      = Storage.withTracks (default [] (Storage.tracks data))
          (Storage.tracksStore (Library.storageService s))
   /\ Storage.playlistsStore (Library.storageService (fst result))
      = Storage.withPlaylists (default [] (Storage.playlists data))
          (Storage.playlistsStore (Library.storageService s))
   /\ Permutation (Library.tracksSignal (fst result)) (map_to_list store').*2
   /\ (forall t, In t (Library.tracksSignal (fst result))
                 <-> exists k, store' !! k = Some t)
   /\ Library.loadingState (fst result) = Library.success
   /\ (Storage.keyedById (Library.storageService s) ->
       LibraryCrud.mirrors (fst result)))
  /\ (forall message, snd result = Storage.Rejected message ->
        Library.tracksSignal (fst result) = Library.tracksSignal s
        /\ Library.loadingState (fst result) = Library.error
        /\ Library.errorMessage (fst result) = message).
Proof.
  intros result store'. subst store' result. unfold LibraryCrud.importData.
  split.
  - intros Hdb. simpl. rewrite importData_members. unfold Storage.bind.
    rewrite (forEach_saveTrack_accepted db _ _ (fun t _ => Hdb _)).
    rewrite (forEach_savePlaylist_accepted db _ _ (fun p _ => Hdb _)).
    unfold LibraryCrud.loadTracks. storage_step. simpl. rewrite Hdb. simpl.
    do 3 (split; [reflexivity|]). split; [reflexivity|].
    split; [apply stored_records|]. split; [reflexivity|].
    intros [Hkey _]. unfold LibraryCrud.mirrors. simpl.
    apply mirror_values. apply withTracks_keyed. exact Hkey.
  - intros message. simpl.
    destruct (Storage.importData db data (Library.storageService s))
      as [st [v|e]]; simpl; [discriminate|].
    intros H. injection H as <-. repeat split.
Qed.

Lemma library_importData_reloads_witness :
  In Examples.trackB
    (Library.tracksSignal
       (fst (LibraryCrud.importData Storage.healthy
               (Storage.mkSnapshot (Some [Examples.trackB]) None
                  (Model.IsoString 0) "1.0")
               Examples.libraryWithA))).
Proof.
  destruct (library_importData_reloads Storage.healthy
              (Storage.mkSnapshot (Some [Examples.trackB]) None
                 (Model.IsoString 0) "1.0")
              Examples.libraryWithA) as (H & _).
  destruct (H (fun _ => eq_refl)) as (_ & Hs & _ & _ & Hin & _).
  apply Hin. exists "b"%string. rewrite Hs. reflexivity.
Defined.

(** X19.  The engagement counters.  From a library whose projection mirrors
    the store, with the database serving the read and the write and a track
    [t] stored under [id] whose counts are below 2^53 in magnitude:
    [playTrack(id)] files [t] with one more play and replaces it by that
    record in the projection; [likeTrack(id)] does the same with one more
    like and returns the new count.  When the database rejects the read,
    neither changes a record or the projection, and [likeTrack] answers 0. *)
Theorem counters_advance_together (db : Storage.Backend) (id : string)
  (s : Library.State) (t : Track.t) :
  LibraryCrud.mirrors s ->
  Storage.tracksStore (Library.storageService s) !! id = Some t ->
  Z.abs (Track.plays t) < 2 ^ 53 ->
  Z.abs (Track.likes t) < 2 ^ 53 ->
  let store := Storage.tracksStore (Library.storageService s) in
  let swap := fun (t' : Track.t) =>
    map (fun x => if String.eqb (Track.id x) id then t' else x)
      (Library.tracksSignal s) in
  (db (Storage.GetTrack id) = None ->
   (forall r, db (Storage.PutTrack r) = None) ->
   (let played := Track.set_plays (Track.plays t + 1) t in
    Storage.tracksStore (Library.storageService (LibraryCrud.playTrack db id s))
      = <[id := played]> store
    /\ Library.tracksSignal (LibraryCrud.playTrack db id s) = swap played
    /\ In played (Library.tracksSignal (LibraryCrud.playTrack db id s)))
   /\ (let liked := Track.set_likes (Track.likes t + 1) t in
       Storage.tracksStore
         (Library.storageService (fst (LibraryCrud.likeTrack db id s)))
         = <[id := liked]> store
       /\ Library.tracksSignal (fst (LibraryCrud.likeTrack db id s)) = swap liked
       /\ In liked (Library.tracksSignal (fst (LibraryCrud.likeTrack db id s)))
       /\ snd (LibraryCrud.likeTrack db id s) = Track.likes t + 1))
  /\ (db (Storage.GetTrack id) <> None ->
      Storage.tracksStore (Library.storageService (LibraryCrud.playTrack db id s))
        = store
      /\ Library.tracksSignal (LibraryCrud.playTrack db id s)
         = Library.tracksSignal s
      /\ Storage.tracksStore
           (Library.storageService (fst (LibraryCrud.likeTrack db id s)))
         = store
      /\ Library.tracksSignal (fst (LibraryCrud.likeTrack db id s))
         = Library.tracksSignal s
      /\ snd (LibraryCrud.likeTrack db id s) = 0).
Proof.
  intros Hm Ht Hplays Hlikes store swap.
  pose proof (mirror_keyed _ _ id t Hm Ht) as Hkey.
  assert (Hin : In t (Library.tracksSignal s))
    by (exact (proj1 (proj1 (proj2 Hm id t) Ht))).
  assert (Hsame : forall x, In x (Library.tracksSignal s) ->
                            Track.id x = id -> x = t).
  { intros x Hx Hid. pose proof (mirror_member _ _ x Hm Hx) as Hl.
    rewrite Hid in Hl. unfold store in *. congruence. }
  assert (Hswap : forall (f : Track.t -> Track.t),
    map (fun x => if String.eqb (Track.id x) id then f x else x)
      (Library.tracksSignal s) = swap (f t)).
  { intros f. subst swap. apply map_ext_in. intros x Hx.
    destruct (String.eqb_spec (Track.id x) id) as [Hid|]; [|reflexivity].
    rewrite (Hsame x Hx Hid). reflexivity. }
  assert (Hmem : forall t', In t' (swap t')).
  { intros t'. subst swap. apply in_map_iff. exists t.
    rewrite (proj2 (String.eqb_eq _ _) Hkey). tauto. }
  assert (Eplays : Js.plus (Js.or_zero (Track.plays t)) 1 = Track.plays t + 1)
    by (rewrite or_zero_id; apply plus_one_exact; exact Hplays).
  assert (Elikes : Js.plus (Js.or_zero (Track.likes t)) 1 = Track.likes t + 1)
    by (rewrite or_zero_id; apply plus_one_exact; exact Hlikes).
  split.
  - intros Hget Hput. split.
    + intros played.
      assert (E : LibraryCrud.playTrack db id s
        = Library.set_tracks (swap played)
            (Library.set_storageService
               (Storage.set_tracksStore (<[id := played]> store)
                  (Library.storageService s)) s)).
      { unfold LibraryCrud.playTrack. storage_step. rewrite Hget. simpl.
        unfold store. rewrite Ht. simpl. rewrite Hput. simpl.
        rewrite Eplays, Hkey.
        rewrite (Hswap (fun x => Track.set_plays
                                   (Js.plus (Js.or_zero (Track.plays x)) 1) x)).
        rewrite Eplays. reflexivity. }
      rewrite E. simpl. repeat split. apply Hmem.
    + intros liked.
      assert (E : LibraryCrud.likeTrack db id s
        = (Library.set_tracks (swap liked)
             (Library.set_storageService
                (Storage.set_tracksStore (<[id := liked]> store)
                   (Library.storageService s)) s),
           Track.likes t + 1)).
      { unfold LibraryCrud.likeTrack. storage_step. rewrite Hget. simpl.
        unfold store. rewrite Ht. simpl. rewrite Hput. simpl.
        rewrite Elikes, Hkey.
        rewrite (Hswap (fun x => Track.set_likes (Track.likes t + 1) x)).
        reflexivity. }
      rewrite E. simpl. repeat split. apply Hmem.
  - intros Hget. unfold LibraryCrud.playTrack, LibraryCrud.likeTrack.
    storage_step. destruct (db (Storage.GetTrack id)); [|congruence].
    simpl. repeat split.
Qed.

Lemma counters_advance_together_witness :
  snd (LibraryCrud.likeTrack Storage.healthy "a" Examples.libraryWithA) = 1
  /\ Library.tracksSignal
       (LibraryCrud.playTrack Storage.healthy "a" Examples.libraryWithA)
     = [Track.set_plays 1 Examples.trackA].
Proof.
  assert (Hm : LibraryCrud.mirrors Examples.libraryWithA).
  { unfold LibraryCrud.mirrors. simpl.
    change [Examples.trackA]
      with (map_to_list ({[ "a" := Examples.trackA ]} : gmap string Track.t)).*2.
    apply mirror_values. exact (proj1 storeWithA_keyedById). }
  destruct (counters_advance_together Storage.healthy "a" Examples.libraryWithA
              Examples.trackA Hm eq_refl eq_refl eq_refl) as (H & _).
  destruct (H eq_refl (fun _ => eq_refl)) as ((_ & Hp & _) & _ & _ & _ & Hl).
  split; [exact Hl|]. rewrite Hp. reflexivity.
Defined.

(** ** Object store: writes read back *)

(** X20.  Writes to the track store are read back.  With the database
    serving, a track that has been saved is what [getTrack] returns for its
    id, the answer for every other id is what it was, and [getAllTracks]
    lists the saved track next to the former records when its id was not in
    the store; after [deleteTrack] of that id, [getTrack] returns [null]
    again.  When the database rejects the write, the method rejects with that
    error, the records are left as they were and the error signal is set. *)
Theorem saved_track_is_read_back (track : Track.t) (s : Storage.State) :
  let saved := fst (Storage.saveTrack Storage.healthy track s) in
  snd (Storage.getTrack Storage.healthy (Track.id track) saved)
    = Storage.Fulfilled (Some track)
  /\ (forall id, id <> Track.id track ->
        snd (Storage.getTrack Storage.healthy id saved)
        = Storage.Fulfilled (Storage.tracksStore s !! id))
  /\ (Storage.tracksStore s !! Track.id track = None ->
      exists all,
        snd (Storage.getAllTracks Storage.healthy saved) = Storage.Fulfilled all
        /\ Permutation all (track :: (map_to_list (Storage.tracksStore s)).*2))
  /\ snd (Storage.getTrack Storage.healthy (Track.id track)
            (fst (Storage.deleteTrack Storage.healthy (Track.id track) saved)))
     = Storage.Fulfilled None
  /\ (forall (db : Storage.Backend) (e : string),
        db (Storage.PutTrack track) = Some e ->
        snd (Storage.saveTrack db track s) = Storage.Rejected e
        /\ Storage.tracksStore (fst (Storage.saveTrack db track s))
           = Storage.tracksStore s
        /\ Storage.storageError (fst (Storage.saveTrack db track s))
           = Some "Erreur lors de la sauvegarde de la piste"%string).
Proof.
  intros saved. subst saved. storage_step. unfold Storage.healthy. simpl.
  split; [rewrite lookup_insert_eq; reflexivity|].
  split.
  { intros id Hne. rewrite lookup_insert_ne by congruence. reflexivity. }
  split.
  { intros Hfresh. eexists. split; [reflexivity|].
    rewrite (map_to_list_insert _ _ _ Hfresh). reflexivity. }
  split; [rewrite lookup_delete_eq; reflexivity|].
  intros db e He. rewrite He. simpl. repeat split.
Qed.

Lemma saved_track_is_read_back_witness :
  snd (Storage.saveTrack Examples.rejectsA Examples.trackA Storage.empty)
    = Storage.Rejected "QuotaExceededError"
  /\ Storage.tracksStore
       (fst (Storage.saveTrack Examples.rejectsA Examples.trackA Storage.empty))
     = Storage.tracksStore Storage.empty.
Proof.
  destruct (saved_track_is_read_back Examples.trackA Storage.empty)
    as (_ & _ & _ & _ & H).
  destruct (H Examples.rejectsA "QuotaExceededError"%string eq_refl)
    as (H1 & H2 & _).
  split; [exact H1|exact H2].
Defined.

(** ** Statistics of the library *)

Lemma existsb_eqb_In (x : string) (l : list string) :
  existsb (String.eqb x) l = true <-> In x l.
Proof.
  rewrite existsb_exists. split.
  - intros (y & Hy & He). apply String.eqb_eq in He. subst y. exact Hy.
  - intros Hx. exists x. split; [exact Hx|apply String.eqb_refl].
Qed.

Lemma existsb_eqb_not_In (x : string) (l : list string) :
  existsb (String.eqb x) l = false <-> ~ In x l.
Proof.
  rewrite <- existsb_eqb_In. destruct (existsb _ l); split; congruence.
Qed.

Lemma getCategoryStats_snoc (tracks : list Track.t) (t : Track.t) :
  LibraryStats.getCategoryStats (tracks ++ [t])
  = LibraryStats.record (LibraryStats.getCategoryStats tracks) (Track.category t).
Proof. unfold LibraryStats.getCategoryStats. rewrite fold_left_app. reflexivity. Qed.

Lemma tracksOf_snoc (c : string) (tracks : list Track.t) (t : Track.t) :
  LibraryStats.tracksOf c (tracks ++ [t])
  = LibraryStats.tracksOf c tracks
    + (if String.eqb (Track.category t) c then 1 else 0).
Proof.
  unfold LibraryStats.tracksOf. rewrite List.filter_app, length_app. simpl.
  destruct (String.eqb (Track.category t) c); simpl; lia.
Qed.

Lemma tracksOf_nonneg (c : string) (tracks : list Track.t) :
  0 <= LibraryStats.tracksOf c tracks.
Proof. unfold LibraryStats.tracksOf. lia. Qed.

(** A step of the loop leaves the other keys alone. *)
Lemma record_other (stats : gmap string LibraryStats.Entry) (k c : string) :
  k <> c -> LibraryStats.record stats k !! c = stats !! c.
Proof.
  intros Hne. unfold LibraryStats.record.
  destruct (stats !! k) as [[n|]|]; [|reflexivity|].
  - apply lookup_insert_ne. exact Hne.
  - destruct (String.eqb k "__proto__"); [reflexivity|].
    destruct (existsb _ _); apply lookup_insert_ne; exact Hne.
Qed.

(** The entry of a category that [Object.prototype] does not name. *)
Lemma getCategoryStats_lookup (tracks : list Track.t) (c : string) :
  ~ In c LibraryStats.inherited ->
  LibraryStats.getCategoryStats tracks !! c
  = if LibraryStats.tracksOf c tracks =? 0 then None
    else Some (LibraryStats.Count (LibraryStats.tracksOf c tracks)).
Proof.
  intros Hc. induction tracks as [|t tracks IH] using rev_ind.
  - reflexivity.
  - rewrite getCategoryStats_snoc, tracksOf_snoc.
    pose proof (tracksOf_nonneg c tracks) as Hnn.
    destruct (String.eqb_spec (Track.category t) c) as [Heq|Hne].
    + rewrite Heq. unfold LibraryStats.record. rewrite IH.
      destruct (Z.eqb_spec (LibraryStats.tracksOf c tracks) 0) as [Hz|Hnz].
      * assert (Hp : String.eqb c "__proto__" = false).
        { apply String.eqb_neq. intros ->. apply Hc. simpl. tauto. }
        rewrite Hp, (proj2 (existsb_eqb_not_In _ _) Hc).
        rewrite lookup_insert_eq, Hz. reflexivity.
      * rewrite lookup_insert_eq, or_zero_id.
        destruct (Z.eqb_spec (LibraryStats.tracksOf c tracks + 1) 0); [lia|].
        reflexivity.
    + rewrite record_other by exact Hne. rewrite IH, Z.add_0_r. reflexivity.
Qed.

Lemma counted_insert_fresh (stats : gmap string LibraryStats.Entry)
  (k : string) (n : Z) :
  stats !! k = None ->
  LibraryStats.counted (<[k := LibraryStats.Count n]> stats)
  = LibraryStats.counted stats + n.
Proof.
  intros Hk. unfold LibraryStats.counted.
  rewrite map_fold_insert_L; [reflexivity| |exact Hk].
  intros j1 j2 [z1|] [z2|] y _ _ _; lia.
Qed.

Lemma counted_insert_count (stats : gmap string LibraryStats.Entry)
  (k : string) (n m : Z) :
  stats !! k = Some (LibraryStats.Count n) ->
  LibraryStats.counted (<[k := LibraryStats.Count m]> stats)
  = LibraryStats.counted stats - n + m.
Proof.
  intros Hk.
  rewrite <- (insert_delete_id stats k _ Hk) at 2.
  rewrite <- (insert_delete_eq stats k (LibraryStats.Count m)).
  rewrite !counted_insert_fresh by apply lookup_delete_eq. lia.
Qed.

Lemma counted_record (stats : gmap string LibraryStats.Entry) (k : string) :
  ~ In k LibraryStats.inherited ->
  stats !! k <> Some LibraryStats.Concatenated ->
  LibraryStats.counted (LibraryStats.record stats k)
  = LibraryStats.counted stats + 1.
Proof.
  intros Hk Hc. unfold LibraryStats.record.
  destruct (stats !! k) as [[n|]|] eqn:E; [|congruence|].
  - rewrite (counted_insert_count _ _ n _ E), or_zero_id. lia.
  - assert (Hp : String.eqb k "__proto__" = false).
    { apply String.eqb_neq. intros ->. apply Hk. simpl. tauto. }
    rewrite Hp, (proj2 (existsb_eqb_not_In _ _) Hk).
    rewrite counted_insert_fresh by exact E. lia.
Qed.

(** X21.  The statistics by category.  For a category that is not the name
    of a member of [Object.prototype], [stats().byCategory] holds the number
    of tracks of that category, and no entry when there is none.  When no
    track has such a name for category, the numbers of [byCategory] add up
    to [totalTracks]. *)
Theorem byCategory_counts_tracks (s : Library.State) (c : string) :
  ~ In c LibraryStats.inherited ->
  LibraryStats.byCategory (LibraryStats.stats s) !! c
  = (if LibraryStats.tracksOf c (Library.tracksSignal s) =? 0 then None
     else Some (LibraryStats.Count
                  (LibraryStats.tracksOf c (Library.tracksSignal s))))
  /\ ((forall t, In t (Library.tracksSignal s) ->
                 ~ In (Track.category t) LibraryStats.inherited) ->
      LibraryStats.counted (LibraryStats.byCategory (LibraryStats.stats s))
      = LibraryStats.totalTracks (LibraryStats.stats s)).
Proof.
  intros Hc. simpl. split; [apply getCategoryStats_lookup; exact Hc|].
  generalize (Library.tracksSignal s) as tracks. clear s.
  intros tracks. induction tracks as [|t tracks IH] using rev_ind; intros Hall.
  - reflexivity.
  - rewrite getCategoryStats_snoc, length_app. simpl.
    assert (Ht : ~ In (Track.category t) LibraryStats.inherited).
    { apply Hall. apply in_or_app. right. left. reflexivity. }
    rewrite counted_record.
    + rewrite IH; [lia|]. intros x Hx. apply Hall. apply in_or_app. tauto.
    + exact Ht.
    + rewrite (getCategoryStats_lookup _ _ Ht). destruct (_ =? 0); discriminate.
Qed.

Lemma byCategory_counts_tracks_witness :
  LibraryStats.byCategory (LibraryStats.stats Examples.sameTitles) !! "pop"
  = Some (LibraryStats.Count 2)
  /\ LibraryStats.counted
       (LibraryStats.byCategory (LibraryStats.stats Examples.sameTitles)) = 2.
Proof.
  assert (Hpop : ~ In "pop"%string LibraryStats.inherited).
  { simpl. intros H. repeat (destruct H as [H|H]; [discriminate H|]). exact H. }
  destruct (byCategory_counts_tracks Examples.sameTitles "pop" Hpop) as [H1 H2].
  split; [exact H1|]. apply H2. intros t [<-|[<-|[]]]; exact Hpop.
Defined.

Lemma unique_spec (values seen : list string) :
  List.NoDup (LibraryStats.unique seen values)
  /\ (forall c, In c (LibraryStats.unique seen values)
                <-> In c values /\ ~ In c seen)
  /\ sublist (LibraryStats.unique seen values) values.
Proof.
  revert seen. induction values as [|x rest IH]; intros seen; simpl.
  - split; [constructor|]. split; [tauto|constructor].
  - destruct (existsb (String.eqb x) seen) eqn:E.
    + apply existsb_eqb_In in E.
      destruct (IH seen) as (Hnd & Hin & Hsub).
      split; [exact Hnd|]. split; [|apply sublist_cons; exact Hsub].
      intros c. rewrite Hin. split; [tauto|].
      intros [[->|Hc] Hs]; [contradiction|tauto].
    + apply existsb_eqb_not_In in E.
      destruct (IH (x :: seen)) as (Hnd & Hin & Hsub).
      split; [|split; [|apply sublist_skip; exact Hsub]].
      * constructor; [|exact Hnd]. rewrite Hin. simpl. tauto.
      * intros c. simpl. rewrite Hin. simpl.
        destruct (string_dec x c) as [->|Hne]; tauto.
Qed.

(** The first position of a value that is not the head of the array. *)
Lemma findIndex_later (c x : string) (rest : list string) :
  c <> x -> In c rest ->
  Js.findIndex (String.eqb c) (x :: rest)
  = Js.findIndex (String.eqb c) rest + 1
  /\ 0 <= Js.findIndex (String.eqb c) rest.
Proof.
  intros Hne Hin. simpl.
  rewrite (proj2 (String.eqb_neq c x) Hne).
  assert (Hfound : Js.findIndex (String.eqb c) rest <> -1)
    by (apply (findIndex_exists _ _ c Hin); apply String.eqb_refl).
  pose proof (findIndex_range (String.eqb c) rest) as Hr.
  destruct (Z.eqb_spec (Js.findIndex (String.eqb c) rest) (-1)); [contradiction|].
  split; [reflexivity|lia].
Qed.

(** [unique] lists the values in the order of their first positions. *)
Lemma unique_first_positions (values seen : list string) (i j : nat)
  (c d : string) :
  (i < j)%nat ->
  LibraryStats.unique seen values !! i = Some c ->
  LibraryStats.unique seen values !! j = Some d ->
  Js.findIndex (String.eqb c) values < Js.findIndex (String.eqb d) values.
Proof.
  revert seen i j. induction values as [|x rest IH]; intros seen i j Hij Hc Hd.
  - simpl in Hc. rewrite lookup_nil in Hc. discriminate.
  - simpl in Hc, Hd. destruct (existsb (String.eqb x) seen) eqn:E.
    + apply existsb_eqb_In in E.
      destruct (unique_spec rest seen) as (_ & Hmem & _).
      assert (Hc' : In c rest /\ ~ In c seen)
        by (apply Hmem, list_elem_of_In; eapply list_elem_of_lookup_2; exact Hc).
      assert (Hd' : In d rest /\ ~ In d seen)
        by (apply Hmem, list_elem_of_In; eapply list_elem_of_lookup_2; exact Hd).
      destruct (findIndex_later c x rest) as (-> & _);
        [intros ->; tauto|tauto|].
      destruct (findIndex_later d x rest) as (-> & _);
        [intros ->; tauto|tauto|].
      pose proof (IH seen i j Hij Hc Hd). lia.
    + destruct (unique_spec rest (x :: seen)) as (_ & Hmem & _).
      destruct j as [|j']; [lia|]. simpl in Hd.
      assert (Hd' : In d rest /\ ~ In d (x :: seen))
        by (apply Hmem, list_elem_of_In; eapply list_elem_of_lookup_2; exact Hd).
      destruct (findIndex_later d x rest) as (Ed & Hd0);
        [intros ->; apply (proj2 Hd'); left; reflexivity|tauto|].
      destruct i as [|i'].
      * simpl in Hc. injection Hc as <-. rewrite Ed. simpl.
        rewrite String.eqb_refl. lia.
      * simpl in Hc.
        assert (Hc' : In c rest /\ ~ In c (x :: seen))
          by (apply Hmem, list_elem_of_In; eapply list_elem_of_lookup_2;
              exact Hc).
        destruct (findIndex_later c x rest) as (Ec & _);
          [intros ->; apply (proj2 Hc'); left; reflexivity|tauto|].
        rewrite Ec, Ed.
        pose proof (IH (x :: seen) i' j' ltac:(lia) Hc Hd). lia.
Qed.

(** X22.  The list of categories starts with 'all'; what follows holds each
    category that some track has, once, in the order in which the categories
    first appear among the tracks: of two categories listed, the one listed
    first has its first track before the first track of the other.  'all' is
    listed twice exactly when a track has the category 'all'. *)
Theorem categories_lists_each_category_once (s : Library.State) :
  let listed := tail (LibraryStats.categories s) in
  let present := map Track.category (Library.tracksSignal s) in
  head (LibraryStats.categories s) = Some "all"%string
  /\ List.NoDup listed
  /\ (forall c, In c listed <-> In c present)
  /\ sublist listed present
  /\ (forall (i j : nat) (c d : string),
        (i < j)%nat -> listed !! i = Some c -> listed !! j = Some d ->
        Js.findIndex (String.eqb c) present
        < Js.findIndex (String.eqb d) present)
  /\ (List.NoDup (LibraryStats.categories s) <-> ~ In "all"%string present).
Proof.
  intros listed present. subst listed present. simpl.
  destruct (unique_spec (map Track.category (Library.tracksSignal s)) [])
    as (Hnd & Hin & Hsub).
  split; [reflexivity|]. split; [exact Hnd|].
  assert (Hmem : forall c,
    In c (LibraryStats.unique [] (map Track.category (Library.tracksSignal s)))
    <-> In c (map Track.category (Library.tracksSignal s))).
  { intros c. rewrite Hin. simpl. tauto. }
  split; [exact Hmem|]. split; [exact Hsub|].
  split; [intros i j c d; apply unique_first_positions|].
  rewrite <- Hmem. split.
  - intros H. inversion H. assumption.
  - intros H. constructor; assumption.
Qed.

Lemma categories_lists_each_category_once_witness :
  List.NoDup (LibraryStats.categories Examples.sameTitles).
Proof.
  destruct (categories_lists_each_category_once Examples.sameTitles)
    as (_ & _ & _ & _ & _ & H).
  apply H. simpl. intros [E|[E|[]]]; discriminate E.
Defined.

(** ** The library page: pagination *)

Section PageFacts.
Context {A : Type}.
Implicit Types (l : list A).

(** A page from the first on holds the next [itemsPerPage] tracks. *)
Lemma paginatedTracks_take_drop l (p n : Z) :
  1 <= p -> 0 < n ->
  LibraryComponent.paginatedTracks l p n
  = take (Z.to_nat n) (drop (Z.to_nat ((p - 1) * n)) l).
Proof.
  intros Hp Hn. unfold LibraryComponent.paginatedTracks, Js.slice, Js.relative.
  set (len := Z.of_nat (length l)).
  assert (Hs : 0 <= (p - 1) * n) by nia.
  destruct (Z.ltb_spec ((p - 1) * n) 0); [lia|].
  destruct (Z.ltb_spec ((p - 1) * n + n) 0); [lia|].
  destruct (Z_lt_le_dec ((p - 1) * n) len) as [Hin|Hout].
  - rewrite (Z.min_l ((p - 1) * n) len) by lia.
    destruct (Z_le_gt_dec ((p - 1) * n + n) len) as [Hfull|Hpart].
    + rewrite Z.min_l by lia. f_equal. lia.
    + rewrite Z.min_r by lia.
      rewrite !take_ge; [reflexivity| |]; rewrite length_drop; lia.
  - rewrite !Z.min_r by lia. rewrite Z.sub_diag. simpl.
    rewrite (drop_ge l (Z.to_nat ((p - 1) * n))) by lia.
    rewrite take_nil. reflexivity.
Qed.

Lemma chunks_concat (n k : nat) l :
  (length l <= k * n)%nat ->
  concat (map (fun i => take n (drop (i * n) l)) (seq 0 k)) = l.
Proof.
  revert l. induction k as [|k IH]; intros l Hl.
  - destruct l; [reflexivity|simpl in Hl; lia].
  - change (seq 0 (S k)) with (0%nat :: seq 1 k).
    rewrite <- seq_shift, map_cons, concat_cons, List.map_map.
    rewrite (map_ext _ (fun i => take n (drop (i * n) (drop n l)))).
    + rewrite IH; [apply take_drop|]. rewrite length_drop. lia.
    + intros i. rewrite drop_drop. reflexivity.
Qed.

(** The quotient rounded up. *)
Lemma ceiling_bounds (len n : Z) :
  0 < n -> 0 <= len ->
  let k := - ((- len) / n) in
  0 <= k /\ len <= k * n /\ (k - 1) * n < len.
Proof.
  intros Hn Hlen k. subst k.
  pose proof (Z.div_mod (- len) n ltac:(lia)) as Hdm.
  pose proof (Z.mod_pos_bound (- len) n Hn) as Hr.
  split; [|split]; nia.
Qed.

End PageFacts.

(** X23.  The pages split the list.  With a positive page size, the number
    of pages is finite, [getPagesArray] lists the pages from 1 to that
    number, the pages in that order put end to end give back the filtered
    list, every page listed holds at least one track and at most
    [itemsPerPage], and a page after the last is empty. *)
Theorem pages_split_the_list {A : Type} (filteredTracks : list A)
  (itemsPerPage : Z) :
  0 < itemsPerPage ->
  exists (last : Z) (pages : list Z),
    LibraryComponent.totalPages filteredTracks itemsPerPage
      = LibraryComponent.Finite last
    /\ LibraryComponent.getPagesArray filteredTracks itemsPerPage = Some pages
    /\ (forall page, In page pages <-> 1 <= page <= last)
    /\ concat (map (fun page =>
                      LibraryComponent.paginatedTracks filteredTracks page
                        itemsPerPage) pages)
       = filteredTracks
    /\ (forall page, In page pages ->
          0 < Z.of_nat (length (LibraryComponent.paginatedTracks
                                  filteredTracks page itemsPerPage))
            <= itemsPerPage)
    /\ (forall page, last < page ->
          LibraryComponent.paginatedTracks filteredTracks page itemsPerPage
          = []).
Proof.
  intros Hn. set (len := Z.of_nat (length filteredTracks)).
  set (k := - ((- len) / itemsPerPage)).
  destruct (ceiling_bounds len itemsPerPage Hn ltac:(lia)) as (Hk0 & Hup & Hlow).
  fold k in Hk0, Hup, Hlow.
  assert (Htotal : LibraryComponent.totalPages filteredTracks itemsPerPage
                   = LibraryComponent.Finite k).
  { unfold LibraryComponent.totalPages.
    destruct (Z.eqb_spec itemsPerPage 0); [lia|reflexivity]. }
  exists k, (map Z.of_nat (seq 1 (Z.to_nat k))).
  split; [exact Htotal|].
  split; [unfold LibraryComponent.getPagesArray; rewrite Htotal; reflexivity|].
  assert (Hpages : forall page,
            In page (map Z.of_nat (seq 1 (Z.to_nat k))) <-> 1 <= page <= k).
  { intros page. rewrite in_map_iff. split.
    - intros (i & <- & Hi). apply in_seq in Hi. lia.
    - intros Hp. exists (Z.to_nat page). split; [lia|]. apply in_seq. lia. }
  split; [exact Hpages|].
  split; [|split].
  - rewrite <- seq_shift, !List.map_map.
    rewrite (map_ext _ (fun i => take (Z.to_nat itemsPerPage)
                                   (drop (i * Z.to_nat itemsPerPage)
                                      filteredTracks))).
    + apply chunks_concat. rewrite <- Z2Nat.inj_mul by lia.
      unfold len in *. lia.
    + intros i. rewrite paginatedTracks_take_drop by lia.
      f_equal. f_equal. nia.
  - intros page Hp. apply Hpages in Hp.
    rewrite paginatedTracks_take_drop by lia.
    rewrite length_take, length_drop.
    assert ((page - 1) * itemsPerPage < len) by nia.
    assert (0 <= (page - 1) * itemsPerPage) by nia.
    unfold len in *. lia.
  - intros page Hp. rewrite paginatedTracks_take_drop by lia.
    rewrite drop_ge; [apply take_nil|].
    assert (len <= (page - 1) * itemsPerPage) by nia.
    assert (0 <= (page - 1) * itemsPerPage) by nia.
    unfold len in *. lia.
Qed.

Lemma pages_split_the_list_witness :
  exists (last : Z) (pages : list Z),
    LibraryComponent.totalPages [1; 2; 3; 4; 5] 2
      = LibraryComponent.Finite last
    /\ LibraryComponent.getPagesArray [1; 2; 3; 4; 5] 2 = Some pages
    /\ (forall page, In page pages <-> 1 <= page <= last)
    /\ concat (map (fun page =>
                      LibraryComponent.paginatedTracks [1; 2; 3; 4; 5] page 2)
                 pages)
       = [1; 2; 3; 4; 5]
    /\ (forall page, In page pages ->
          0 < Z.of_nat (length (LibraryComponent.paginatedTracks
                                  [1; 2; 3; 4; 5] page 2)) <= 2)
    /\ (forall page, last < page ->
          LibraryComponent.paginatedTracks [1; 2; 3; 4; 5] page 2 = []).
Proof. apply (pages_split_the_list [1; 2; 3; 4; 5] 2). lia. Defined.

(** X24.  Moving between pages.  With a positive page size, from a page
    that is the first one or a page of the list, any sequence of
    [goToPage], [nextPage] and [prevPage] ends on the first page or on a
    page of the list, and when the list has a track, the page shown has
    one. *)
Theorem moves_stay_on_a_page {A : Type} (filteredTracks : list A)
  (itemsPerPage : Z) (ms : list LibraryComponent.Move) (currentPage : Z) :
  0 < itemsPerPage ->
  1 <= currentPage ->
  currentPage = 1
  \/ LibraryComponent.leb currentPage
       (LibraryComponent.totalPages filteredTracks itemsPerPage) = true ->
  let page := LibraryComponent.moves filteredTracks itemsPerPage ms currentPage in
  1 <= page
  /\ (page = 1
      \/ LibraryComponent.leb page
           (LibraryComponent.totalPages filteredTracks itemsPerPage) = true)
  /\ (filteredTracks <> [] ->
      LibraryComponent.paginatedTracks filteredTracks page itemsPerPage <> []).
Proof.
  intros Hn H1 Hin page. subst page.
  set (len := Z.of_nat (length filteredTracks)).
  set (k := - ((- len) / itemsPerPage)).
  destruct (ceiling_bounds len itemsPerPage Hn ltac:(lia)) as (Hk0 & Hup & Hlow).
  fold k in Hk0, Hup, Hlow.
  assert (Htotal : LibraryComponent.totalPages filteredTracks itemsPerPage
                   = LibraryComponent.Finite k).
  { unfold LibraryComponent.totalPages.
    destruct (Z.eqb_spec itemsPerPage 0); [lia|reflexivity]. }
  rewrite Htotal in *. simpl in Hin.
  assert (Hinv : forall c, 1 <= c -> c = 1 \/ (c <=? k) = true ->
            let c' := LibraryComponent.moves filteredTracks itemsPerPage ms c in
            1 <= c' /\ (c' = 1 \/ (c' <=? k) = true)).
  { unfold LibraryComponent.moves. clear H1 Hin.
    induction ms as [|m rest IH]; intros c H1 Hin; simpl; [tauto|].
    apply IH.
    - destruct m as [p| |]; simpl.
      + unfold LibraryComponent.goToPage.
        destruct (Z.leb_spec 1 p); simpl; [|exact H1].
        destruct (LibraryComponent.leb p _); lia.
      + unfold LibraryComponent.nextPage.
        destruct (LibraryComponent.ltb c _); lia.
      + unfold LibraryComponent.prevPage. destruct (Z.ltb_spec 1 c); lia.
    - destruct m as [p| |]; simpl.
      + unfold LibraryComponent.goToPage. rewrite Htotal. simpl.
        destruct (Z.leb_spec 1 p); simpl; [|exact Hin].
        destruct (Z.leb_spec p k); [right; lia|exact Hin].
      + unfold LibraryComponent.nextPage. rewrite Htotal. simpl.
        destruct (Z.ltb_spec c k); [right; lia|exact Hin].
      + unfold LibraryComponent.prevPage.
        destruct (Z.ltb_spec 1 c); [|exact Hin].
        destruct Hin as [->|Hle]; [lia|]. right. lia. }
  destruct (Hinv currentPage H1 Hin) as (Hp1 & Hpk).
  split; [exact Hp1|]. split; [simpl; exact Hpk|].
  intros Hne.
  set (page := LibraryComponent.moves filteredTracks itemsPerPage ms currentPage)
    in *.
  assert (Hlen : 0 < len).
  { subst len. destruct filteredTracks; [congruence|simpl; lia]. }
  assert (Hk : page <= k) by (destruct Hpk as [->|Hle]; [nia|lia]).
  rewrite paginatedTracks_take_drop by lia.
  intros Hnil. apply (f_equal (@length A)) in Hnil.
  rewrite length_take, length_drop in Hnil. simpl in Hnil.
  assert ((page - 1) * itemsPerPage < len) by nia.
  assert (0 <= (page - 1) * itemsPerPage) by nia.
  unfold len in *. lia.
Qed.

Lemma moves_stay_on_a_page_witness :
  LibraryComponent.paginatedTracks [1; 2; 3; 4; 5]
    (LibraryComponent.moves [1; 2; 3; 4; 5] 2
       [LibraryComponent.NextPage; LibraryComponent.NextPage;
        LibraryComponent.NextPage; LibraryComponent.GoToPage 7] 1) 2
  <> [].
Proof.
  destruct (moves_stay_on_a_page [1; 2; 3; 4; 5] 2
              [LibraryComponent.NextPage; LibraryComponent.NextPage;
               LibraryComponent.NextPage; LibraryComponent.GoToPage 7] 1)
    as (_ & _ & H); [lia|lia|left; reflexivity|].
  apply H. discriminate.
Defined.

(** ** The player bar and the library page *)

Lemma loadTrack_Some_fields (tr : Track.t) (s : Player.State) :
  let s' := Player.loadTrack (Some tr) s in
  Player.currentTrackSignal s' = Some tr
  /\ Player.queueSignal s' = Player.queueSignal s
  /\ Player.originalQueueSignal s' = Player.originalQueueSignal s
  /\ Player.currentIndexSignal s'
     = (if Js.findIndex (Player.sameId tr) (Player.queueSignal s) =? -1
        then Player.currentIndexSignal s
        else Js.findIndex (Player.sameId tr) (Player.queueSignal s))
  /\ Player.audioElement s' = Audio.load (Track.fileUrl tr) (Player.audioElement s)
  /\ Player.statusSignal s' = Model.loading.
Proof.
  unfold Player.loadTrack. simpl.
  destruct (Js.findIndex _ _ =? -1); simpl; tauto.
Qed.

Lemma play_track_Some_fields (l : Player.LoadOutcome) (o : Player.PlayOutcome)
  (tr : Track.t) (s : Player.State) :
  let s' := Player.play_track l o (Some tr) s in
  Player.currentTrackSignal s' = Some tr
  /\ Player.queueSignal s' = Player.queueSignal s
  /\ Player.originalQueueSignal s' = Player.originalQueueSignal s
  /\ Player.currentIndexSignal s'
     = Player.currentIndexSignal (Player.loadTrack (Some tr) s)
  /\ Player.isLoadingSignal s' = false
  /\ (l = Player.LoadResolved -> o = Player.PlayResolved ->
      Player.statusSignal s' = Model.playing)
  /\ (l = Player.LoadRejected \/ o = Player.PlayRejected ->
      Player.statusSignal s' = Model.stopped
      /\ Player.errorSignal s' = "Impossible de lire la piste"%string).
Proof.
  unfold Player.play_track, Player.play, Player.loadTrack. simpl.
  destruct (Js.findIndex _ _ =? -1), l, o; simpl;
    do 5 (split; [reflexivity|]);
    (split;
     [intros Hl Ho; first [reflexivity|discriminate]
     |intros [Hl|Ho]; first [discriminate|split; reflexivity]]).
Qed.

(** X25.  [playFromQueue(index)] for a position of the queue.  The track at
    that position becomes the current track.  The queue holds the same
    tracks as before, in the same order when shuffle is off, and the former
    queue becomes the original queue.  The index is the first position of
    the new queue that holds a track with the id of the chosen one.  The
    status is [playing] when the device loads and plays the track, and
    [stopped] with the message of [play] when it fails to. *)
Theorem playFromQueue_plays_the_chosen_track (random : nat -> nat)
  (l : Player.LoadOutcome) (o : Player.PlayOutcome) (index : Z)
  (s : Player.State) (track : Track.t) :
  Js.at_index (Player.queueSignal s) index = Some track ->
  let s' := AudioPlayerComponent.playFromQueue random l o index s in
  Player.currentTrackSignal s' = Some track
  /\ Player.originalQueueSignal s' = Player.queueSignal s
  /\ Permutation (Player.queueSignal s') (Player.queueSignal s)
  /\ (Player.isShuffledSignal s = false ->
      Player.queueSignal s' = Player.queueSignal s)
  /\ Player.currentIndexSignal s'
     = Js.findIndex (Player.sameId track) (Player.queueSignal s')
  /\ (exists t,
        Js.at_index (Player.queueSignal s') (Player.currentIndexSignal s')
          = Some t
        /\ Track.id t = Track.id track)
  /\ Player.isLoadingSignal s' = false
  /\ (l = Player.LoadResolved -> o = Player.PlayResolved ->
      Player.statusSignal s' = Model.playing)
  /\ (l = Player.LoadRejected \/ o = Player.PlayRejected ->
      Player.statusSignal s' = Model.stopped
      /\ Player.errorSignal s' = "Impossible de lire la piste"%string).
Proof.
  intros Hat s'. subst s'. unfold AudioPlayerComponent.playFromQueue.
  pose proof (at_index_Some _ _ _ Hat) as Hin. cbv zeta.
  destruct (Z.leb_spec 0 index); [|lia].
  destruct (Z.ltb_spec index (Z.of_nat (length (Player.queueSignal s))));
    [|lia].
  cbn [andb]. rewrite Hat.
  set (s1 := Player.setQueue random (Player.queueSignal s) index s).
  destruct (play_track_Some_fields l o track s1)
    as (Ht & Hq & Ho & Hi & Hl & Hplaying & Hstopped).
  destruct (loadTrack_Some_fields track s1) as (_ & _ & _ & Hidx & _).
  pose proof (queue_setQueue_Permutation random (Player.queueSignal s) index s)
    as Hperm. fold s1 in Hperm.
  assert (Hmem : In (Track.id track) (map Track.id (Player.queueSignal s1))).
  { apply in_map. eapply Permutation_in; [symmetry; exact Hperm|].
    unfold Js.at_index in Hat. destruct (index <? 0); [discriminate|].
    apply list_elem_of_In. eapply list_elem_of_lookup_2. exact Hat. }
  destruct (findIndex_sameId track (Player.queueSignal s1) Hmem)
    as (Hne & t & Hfound & Hid).
  destruct (Z.eqb_spec (Js.findIndex (Player.sameId track)
                          (Player.queueSignal s1)) (-1)); [contradiction|].
  split; [exact Ht|].
  split; [rewrite Ho; apply original_setQueue|].
  split; [rewrite Hq; exact Hperm|].
  split.
  { intros Hoff. rewrite Hq. subst s1. unfold Player.setQueue. simpl.
    rewrite Hoff.
    destruct (_ && _); [|reflexivity]. simpl. rewrite queue_loadTrack.
    reflexivity. }
  split; [rewrite Hi, Hidx, Hq; reflexivity|].
  split; [exists t; rewrite Hi, Hidx, Hq; split; assumption|].
  split; [exact Hl|]. split; assumption.
Qed.

Lemma playFromQueue_plays_the_chosen_track_witness :
  Player.currentTrackSignal
    (AudioPlayerComponent.playFromQueue Examples.zeros Player.LoadResolved
       Player.PlayResolved 2 Examples.threeTracks)
  = Some Examples.trackC.
Proof.
  apply (playFromQueue_plays_the_chosen_track Examples.zeros
           Player.LoadResolved Player.PlayResolved 2 Examples.threeTracks
           Examples.trackC).
  reflexivity.
Defined.

(** X26.  Closing and reopening the player.  [restoreState] applied to what
    [saveState] wrote brings back the volume, the mute, shuffle and repeat
    flags, the queue (its dates as ISO strings) and the current track, with
    the index on a track of that id when the queue holds one, and asks the
    device to play when the status saved was [playing].  It does not bring
    back the original queue, nor the position in the track: [seek] runs
    while the device has no duration yet. *)
Theorem restoreState_after_saveState (o : Player.PlayOutcome)
  (v v0 : Player.Volume) (s s0 : Player.State) :
  let restored := Player.restoreState o (Player.saveState v s) (v0, s0) in
  let s' := snd restored in
  fst restored = v
  /\ Player.isShuffledSignal s' = Player.isShuffledSignal s
  /\ Player.isRepeatingSignal s' = Player.isRepeatingSignal s
  /\ Player.queueSignal s' = map Track.toJSON (Player.queueSignal s)
  /\ Player.originalQueueSignal s' = Player.originalQueueSignal s0
  /\ Player.currentTimeSignal s' = Player.currentTimeSignal s0
  /\ (forall current, Player.currentTrackSignal s = Some current ->
        Player.currentTrackSignal s' = Some (Track.toJSON current)
        /\ (In (Track.id current) (map Track.id (Player.queueSignal s)) ->
            exists t,
              Js.at_index (Player.queueSignal s') (Player.currentIndexSignal s')
                = Some t
              /\ Track.id t = Track.id current)
        /\ (~ In (Track.id current) (map Track.id (Player.queueSignal s)) ->
            Player.currentIndexSignal s' = Player.currentIndexSignal s)
        /\ (Player.statusSignal s = Model.playing ->
            o = Player.PlayResolved ->
            Player.statusSignal s' = Model.playing))
  /\ (Player.currentTrackSignal s = None ->
      Player.currentTrackSignal s' = Player.currentTrackSignal s0
      /\ Player.currentIndexSignal s' = Player.currentIndexSignal s
      /\ Player.statusSignal s' = Player.statusSignal s0).
Proof.
  intros restored s'. subst s' restored.
  unfold Player.saveState, Player.restoreState. cbn [Player.Saved.volume
    Player.Saved.isMuted Player.Saved.isShuffled Player.Saved.isRepeating
    Player.Saved.queue Player.Saved.currentIndex Player.Saved.currentTrack
    Player.Saved.status Player.Saved.currentTime].
  destruct (Player.currentTrackSignal s) as [current|] eqn:Hcur; simpl option_map;
    cbv iota.
  2:{ simpl. destruct v. do 6 (split; [reflexivity|]).
      split; [discriminate|]. intros _. repeat split. }
  set (s1 := Player.set_currentIndex (Player.currentIndexSignal s)
               (Player.set_queue (map Track.toJSON (Player.queueSignal s))
                  (Player.set_isRepeating (Player.isRepeatingSignal s)
                     (Player.set_isShuffled (Player.isShuffledSignal s) s0)))).
  set (s2 := Player.loadTrack (Some (Track.toJSON current)) s1).
  set (s3 := match Player.statusSignal s with
             | Model.playing => Player.play o s2
             | _ => s2
             end).
  destruct (loadTrack_Some_fields (Track.toJSON current) s1)
    as (Ht2 & Hq2 & Ho2 & Hi2 & Ha2 & _). fold s2 in Ht2, Hq2, Ho2, Hi2, Ha2.
  destruct (frame_loadTrack (Some (Track.toJSON current)) s1)
    as (_ & Hsh2 & Hrp2 & Htime2). fold s2 in Hsh2, Hrp2, Htime2.
  assert (H3 : Player.currentTrackSignal s3 = Some (Track.toJSON current)
               /\ Player.queueSignal s3 = Player.queueSignal s2
               /\ Player.originalQueueSignal s3 = Player.originalQueueSignal s2
               /\ Player.currentIndexSignal s3 = Player.currentIndexSignal s2
               /\ Player.isShuffledSignal s3 = Player.isShuffledSignal s2
               /\ Player.isRepeatingSignal s3 = Player.isRepeatingSignal s2
               /\ Player.currentTimeSignal s3 = Player.currentTimeSignal s2
               /\ Player.audioElement s3 = Player.audioElement s2
               /\ (Player.statusSignal s = Model.playing ->
                   o = Player.PlayResolved ->
                   Player.statusSignal s3 = Model.playing)).
  { subst s3. destruct (Player.statusSignal s);
      try (repeat split; try assumption; try reflexivity; discriminate).
    unfold Player.play. rewrite Ht2. destruct o; simpl;
      (repeat split; try assumption; try reflexivity; try discriminate). }
  destruct H3 as (Ht3 & Hq3 & Ho3 & Hi3 & Hsh3 & Hrp3 & Htime3 & Ha3 & Hst3).
  assert (Hseek : forall time, Player.seek time s3 = s3).
  { intros time. unfold Player.seek. rewrite Ha3, Ha2. reflexivity. }
  assert (E : (if Qeq_bool (Player.currentTimeSignal s) 0 then s3
               else Player.seek (Player.currentTimeSignal s) s3) = s3).
  { destruct (Qeq_bool _ _); [reflexivity|apply Hseek]. }
  simpl. fold s1. fold s2. fold s3. rewrite E.
  assert (Hids : map Track.id (map Track.toJSON (Player.queueSignal s))
                 = map Track.id (Player.queueSignal s)).
  { rewrite List.map_map. reflexivity. }
  split; [destruct v; reflexivity|].
  split; [rewrite Hsh3, Hsh2; reflexivity|].
  split; [rewrite Hrp3, Hrp2; reflexivity|].
  split; [rewrite Hq3, Hq2; reflexivity|].
  split; [rewrite Ho3, Ho2; reflexivity|].
  split; [rewrite Htime3, Htime2; reflexivity|].
  split; [|discriminate].
  intros c Hc. injection Hc as <-.
  split; [exact Ht3|].
  split; [|split; [|exact Hst3]].
  - intros Hin.
    assert (Hin1 : In (Track.id (Track.toJSON current))
                     (map Track.id (Player.queueSignal s1))).
    { subst s1. simpl. rewrite Hids. exact Hin. }
    destruct (findIndex_sameId _ _ Hin1) as (Hne & t & Hfound & Hid).
    destruct (Z.eqb_spec (Js.findIndex (Player.sameId (Track.toJSON current))
                            (Player.queueSignal s1)) (-1)); [contradiction|].
    exists t. rewrite Hq3, Hq2, Hi3, Hi2. split; [exact Hfound|exact Hid].
  - intros Hout. rewrite Hi3, Hi2.
    destruct (Z.eqb_spec (Js.findIndex (Player.sameId (Track.toJSON current))
                            (Player.queueSignal s1)) (-1)) as [|Hne];
      [reflexivity|].
    destruct (findIndex_found _ _ Hne) as (t & Hfound & Hsame).
    exfalso. apply Hout. rewrite <- Hids.
    apply String.eqb_eq in Hsame.
    change (Track.id (Track.toJSON current)) with (Track.id current) in Hsame.
    rewrite <- Hsame. apply in_map.
    unfold Js.at_index in Hfound. destruct (_ <? 0); [discriminate|].
    apply list_elem_of_In. eapply list_elem_of_lookup_2. exact Hfound.
Qed.

Lemma restoreState_after_saveState_witness :
  Player.currentTrackSignal
    (snd (Player.restoreState Player.PlayResolved
            (Player.saveState Examples.initialVolume Examples.threeTracks)
            (Examples.initialVolume, Player.initial)))
  = Some (Track.toJSON Examples.trackB).
Proof.
  destruct (restoreState_after_saveState Player.PlayResolved
              Examples.initialVolume Examples.initialVolume
              Examples.threeTracks Player.initial)
    as (_ & _ & _ & _ & _ & _ & H & _).
  destruct (H Examples.trackB eq_refl) as (Ht & _). exact Ht.
Defined.

(** X27.  [onPlayTrack(track)] on the library page.  For the track that is
    current (by id) it pauses when playing and plays otherwise, and leaves
    the queue, the original queue, the index and the current track alone.
    For any other track the queue and the original queue become that single
    track, whether shuffle is on or off, with the index 0 on it as current
    track, and the status is [playing] when the device plays. *)
Theorem onPlayTrack_replaces_the_queue (random : nat -> nat)
  (o : Player.PlayOutcome) (track : Track.t) (s : Player.State) :
  let s' := LibraryComponent.onPlayTrack random o track s in
  (forall current,
     Player.currentTrackSignal s = Some current ->
     Track.id current = Track.id track ->
     Player.queueSignal s' = Player.queueSignal s
     /\ Player.originalQueueSignal s' = Player.originalQueueSignal s
     /\ Player.currentIndexSignal s' = Player.currentIndexSignal s
     /\ Player.currentTrackSignal s' = Some current
     /\ (Player.statusSignal s = Model.playing ->
         Player.statusSignal s' = Model.paused)
     /\ (Player.statusSignal s <> Model.playing -> o = Player.PlayResolved ->
         Player.statusSignal s' = Model.playing))
  /\ ((forall current, Player.currentTrackSignal s = Some current ->
                       Track.id current <> Track.id track) ->
      Player.queueSignal s' = [track]
      /\ Player.originalQueueSignal s' = [track]
      /\ Player.currentIndexSignal s' = 0
      /\ Player.currentTrackSignal s' = Some track
      /\ (o = Player.PlayResolved -> Player.statusSignal s' = Model.playing)).
Proof.
  intros s'. subst s'. unfold LibraryComponent.onPlayTrack. split.
  - intros current Hcur Hid. rewrite Hcur.
    rewrite (proj2 (String.eqb_eq _ _) Hid). simpl.
    destruct (Player.statusSignal s) eqn:Hst; simpl;
      try (unfold Player.play; rewrite Hcur; destruct o; simpl;
           repeat split; try reflexivity; try congruence; try discriminate).
  - intros Hother.
    assert (Hsame : match Player.currentTrackSignal s with
                    | Some currentTrack =>
                        String.eqb (Track.id currentTrack) (Track.id track)
                    | None => false
                    end = false).
    { destruct (Player.currentTrackSignal s) as [c|] eqn:Hcur; [|reflexivity].
      apply String.eqb_neq. apply Hother. reflexivity. }
    rewrite Hsame. simpl.
    set (s1 := Player.setQueue random [track] 0 s).
    assert (Hself : Player.sameId track track = true).
    { unfold Player.sameId. apply String.eqb_refl. }
    assert (H1 : Player.queueSignal s1 = [track]
                 /\ Player.originalQueueSignal s1 = [track]
                 /\ Player.currentIndexSignal s1 = 0
                 /\ Player.currentTrackSignal s1 = Some track).
    { subst s1. unfold Player.setQueue. simpl.
      destruct (Player.isShuffledSignal s).
      - unfold Player.shuffleQueue. simpl.
        destruct (Player.currentTrackSignal s) as [c|] eqn:Hcur; simpl.
        + assert (Hc : Player.sameId c track = false).
          { unfold Player.sameId. apply String.eqb_neq. intros E.
            apply (Hother c eq_refl). symmetry. exact E. }
          rewrite !Hc. simpl. unfold Player.loadTrack. simpl.
          rewrite !Hself. simpl. tauto.
        + unfold Player.loadTrack. simpl. rewrite !Hself. simpl. tauto.
      - unfold Player.loadTrack. simpl. rewrite !Hself. simpl. tauto. }
    destruct H1 as (Hq & Ho & Hi & Ht).
    destruct (play_fields o s1) as (Hi' & Ht' & Hq' & _).
    destruct (frame_play o s1) as (Ho' & _).
    rewrite Hq', Ho', Hi', Ht', Hq, Ho, Hi, Ht.
    repeat split. intros ->. apply play_resolved_status. left. congruence.
Qed.

Lemma onPlayTrack_replaces_the_queue_witness :
  Player.queueSignal
    (LibraryComponent.onPlayTrack Examples.zeros Player.PlayResolved
       Examples.trackC Examples.threeTracks)
  = [Examples.trackC].
Proof.
  destruct (onPlayTrack_replaces_the_queue Examples.zeros Player.PlayResolved
              Examples.trackC Examples.threeTracks) as (_ & H).
  destruct H as (Hq & _); [|exact Hq].
  intros current Hcur. injection Hcur as <-. discriminate.
Defined.

Lemma deleteTrack_state (db : Storage.Backend) (id : string) (s : Library.State) :
  let s' := fst (Library.deleteTrack db id s) in
  (db (Storage.DeleteTrack id) = None
   /\ Storage.tracksStore (Library.storageService s')
      = delete id (Storage.tracksStore (Library.storageService s))
   /\ Library.tracksSignal s'
      = List.filter (fun t => negb (String.eqb (Track.id t) id))
          (Library.tracksSignal s))
  \/ (db (Storage.DeleteTrack id) <> None
      /\ Storage.tracksStore (Library.storageService s')
         = Storage.tracksStore (Library.storageService s)
      /\ Library.tracksSignal s' = Library.tracksSignal s).
Proof.
  unfold Library.deleteTrack. storage_step. simpl.
  destruct (db (Storage.DeleteTrack id)); simpl; [right|left]; repeat split.
  discriminate.
Qed.

(** X28.  [deleteSelectedTracks()], once confirmed, empties the selection.
    Whatever requests the database rejects, no track comes into the
    projection, and a track or a record whose id is not selected stays.
    When the database serves the deletions, the projection loses exactly
    the tracks with a selected id and the store holds no record under a
    selected id.  When the dialog is declined nothing changes. *)
Theorem deleteSelectedTracks_removes_the_selection (db : Storage.Backend)
  (selectedTracks : list string) (s : Library.State) :
  let after := LibraryComponent.deleteSelectedTracks db true selectedTracks s in
  let store := fun x => Storage.tracksStore (Library.storageService x) in
  fst after = []
  /\ (forall t, In t (Library.tracksSignal (snd after)) ->
                In t (Library.tracksSignal s))
  /\ (forall t, In t (Library.tracksSignal s) ->
                ~ In (Track.id t) selectedTracks ->
                In t (Library.tracksSignal (snd after)))
  /\ (forall id, ~ In id selectedTracks ->
                 store (snd after) !! id = store s !! id)
  /\ ((forall id, In id selectedTracks -> db (Storage.DeleteTrack id) = None) ->
      Library.tracksSignal (snd after)
        = List.filter
            (fun t => negb (existsb (String.eqb (Track.id t)) selectedTracks))
            (Library.tracksSignal s)
      /\ forall id, In id selectedTracks -> store (snd after) !! id = None)
  /\ LibraryComponent.deleteSelectedTracks db false selectedTracks s
     = (selectedTracks, s).
Proof.
  intros after store. subst after.
  unfold LibraryComponent.deleteSelectedTracks.
  destruct selectedTracks as [|first others].
  { simpl. repeat split; try tauto. symmetry. apply filter_all.
    intros t _. reflexivity. }
  destruct (Z.eqb_spec (Z.of_nat (length (first :: others))) 0) as [E|_];
    [simpl in E; lia|].
  cbn [fst snd]. split; [reflexivity|].
  generalize (first :: others) as selected. clear first others.
  intros selected. revert s.
  induction selected as [|id rest IH]; intros s.
  { simpl. repeat split; try tauto. symmetry. apply filter_all.
    intros t _. reflexivity. }
  cbn [fold_left].
  set (s1 := fst (Library.deleteTrack db id s)).
  destruct (IH s1) as (Hsub & Hkeep & Hstore & Hserved & _).
  assert (Hsub1 : forall t, In t (Library.tracksSignal s1) ->
                            In t (Library.tracksSignal s)).
  { intros t. destruct (deleteTrack_state db id s) as [(_ & _ & Ht)|(_ & _ & Ht)];
      fold s1 in Ht; rewrite Ht; [|tauto].
    rewrite filter_In. tauto. }
  assert (Hkeep1 : forall t, In t (Library.tracksSignal s) -> Track.id t <> id ->
                             In t (Library.tracksSignal s1)).
  { intros t Hin Hne.
    destruct (deleteTrack_state db id s) as [(_ & _ & Ht)|(_ & _ & Ht)];
      fold s1 in Ht; rewrite Ht; [|exact Hin].
    apply filter_In. split; [exact Hin|].
    apply negb_true_iff, String.eqb_neq. exact Hne. }
  assert (Hstore1 : forall k, k <> id -> store s1 !! k = store s !! k).
  { intros k Hne. unfold store.
    destruct (deleteTrack_state db id s) as [(_ & Hs & _)|(_ & Hs & _)];
      fold s1 in Hs; rewrite Hs; [|reflexivity].
    apply lookup_delete_ne. congruence. }
  split; [intros t Ht; apply Hsub1, Hsub, Ht|].
  split.
  { intros t Hin Hout. apply Hkeep.
    - apply Hkeep1; [exact Hin|]. intros E. apply Hout. left. congruence.
    - intros Hr. apply Hout. right. exact Hr. }
  split.
  { intros k Hout. rewrite Hstore.
    - apply Hstore1. intros E. apply Hout. left. congruence.
    - intros Hr. apply Hout. right. exact Hr. }
  split; [|destruct (Z.of_nat (length (id :: rest)) =? 0); reflexivity].
  intros Hdb.
  destruct (Hserved (fun k Hk => Hdb k (or_intror Hk))) as (Ht & Hgone).
  destruct (deleteTrack_state db id s) as [(_ & Hs1 & Ht1)|(Hrej & _)];
    [|exfalso; apply Hrej, Hdb; left; reflexivity].
  fold s1 in Hs1, Ht1. split.
  - rewrite Ht, Ht1. clear. induction (Library.tracksSignal s) as [|t l IHl];
      [reflexivity|].
    simpl. rewrite (String.eqb_sym (Track.id t) id).
    destruct (String.eqb id (Track.id t)); simpl; rewrite IHl; reflexivity.
  - intros k [<-|Hk]; [|apply Hgone; exact Hk].
    destruct (in_dec string_dec id rest) as [Hin|Hout]; [apply Hgone, Hin|].
    rewrite (Hstore id Hout). unfold store. rewrite Hs1. apply lookup_delete_eq.
Qed.

Lemma deleteSelectedTracks_removes_the_selection_witness :
  Storage.tracksStore
    (Library.storageService
       (snd (LibraryComponent.deleteSelectedTracks Storage.healthy true ["a"]
               Examples.libraryWithA))) !! "a"
  = None.
Proof.
  destruct (deleteSelectedTracks_removes_the_selection Storage.healthy ["a"]
              Examples.libraryWithA) as (_ & _ & _ & _ & H & _).
  destruct (H (fun _ _ => eq_refl)) as (_ & Hgone).
  apply Hgone. left. reflexivity.
Defined.

(** X29.  Reading the projection agrees with reading the store.  While the
    projection mirrors the store, [getTrackById(id)] of the library returns
    the record that the store holds under [id], which is what [getTrack(id)]
    resolves to when the database serves, and [undefined] when the store
    holds none. *)
Theorem getTrackById_agrees_with_store (s : Library.State) (id : string) :
  LibraryCrud.mirrors s ->
  LibraryCrud.getTrackById id s
    = Storage.tracksStore (Library.storageService s) !! id
  /\ snd (Storage.getTrack Storage.healthy id (Library.storageService s))
     = Storage.Fulfilled (LibraryCrud.getTrackById id s).
Proof.
  intros Hm.
  assert (E : LibraryCrud.getTrackById id s
              = Storage.tracksStore (Library.storageService s) !! id).
  { unfold LibraryCrud.getTrackById.
    destruct (List.find _ _) as [t|] eqn:Hfind.
    - apply find_some in Hfind as [Hin Hid]. apply String.eqb_eq in Hid.
      symmetry. apply (proj2 Hm). split; assumption.
    - destruct (Storage.tracksStore (Library.storageService s) !! id)
        as [t|] eqn:Hl; [|reflexivity].
      apply (proj2 Hm) in Hl as [Hin Hid].
      pose proof (find_none _ _ Hfind t Hin) as Hno. simpl in Hno.
      rewrite Hid, String.eqb_refl in Hno. discriminate. }
  split; [exact E|]. rewrite E. reflexivity.
Qed.

Lemma getTrackById_agrees_with_store_witness :
  LibraryCrud.getTrackById "a" Examples.libraryWithA = Some Examples.trackA.
Proof.
  assert (Hm : LibraryCrud.mirrors Examples.libraryWithA).
  { unfold LibraryCrud.mirrors. simpl.
    change [Examples.trackA]
      with (map_to_list ({[ "a" := Examples.trackA ]} : gmap string Track.t)).*2.
    apply mirror_values. exact (proj1 storeWithA_keyedById). }
  destruct (getTrackById_agrees_with_store Examples.libraryWithA "a" Hm)
    as [H _].
  rewrite H. reflexivity.
Defined.

Lemma addToQueue_end_fields (track : Track.t) (s : Player.State) :
  let s' := Player.addToQueue track false s in
  Player.queueSignal s' = Player.queueSignal s ++ [track]
  /\ Player.originalQueueSignal s' = Player.originalQueueSignal s ++ [track]
  /\ Player.currentIndexSignal s' = Player.currentIndexSignal s
  /\ Player.currentTrackSignal s' = Player.currentTrackSignal s
  /\ Player.statusSignal s' = Player.statusSignal s.
Proof. unfold Player.addToQueue. simpl. tauto. Qed.

Lemma sublist_List_filter {A : Type} (p : A -> bool) (l : list A) :
  sublist (List.filter p l) l.
Proof.
  induction l as [|x l IH]; simpl; [constructor|].
  destruct (p x); [apply sublist_skip|apply sublist_cons]; exact IH.
Qed.

(** X30.  [addSelectedToQueue()] appends the selected tracks to the end of
    the queue and of the original queue, in the order in which the library
    lists them, not in the order of selection, and leaves the index, the
    current track and the status alone: what is playing keeps playing. *)
Theorem addSelectedToQueue_appends_in_library_order (tracks : list Track.t)
  (selectedTracks : list string) (s : Player.State) :
  let added :=
    List.filter (fun track =>
                   existsb (fun selected => String.eqb selected (Track.id track))
                     selectedTracks) tracks in
  let s' := LibraryComponent.addSelectedToQueue tracks selectedTracks s in
  Player.queueSignal s' = Player.queueSignal s ++ added
  /\ Player.originalQueueSignal s' = Player.originalQueueSignal s ++ added
  /\ Player.currentIndexSignal s' = Player.currentIndexSignal s
  /\ Player.currentTrackSignal s' = Player.currentTrackSignal s
  /\ Player.statusSignal s' = Player.statusSignal s
  /\ sublist added tracks
  /\ (forall t, In t added <-> In t tracks /\ In (Track.id t) selectedTracks)
  /\ (Player.onCurrent s -> Player.onCurrent s').
Proof.
  intros added s'. subst s'. unfold LibraryComponent.addSelectedToQueue.
  cbv zeta. fold added.
  assert (Hfold : forall l s0,
    let s1 := fold_left (fun s track => Player.addToQueue track false s) l s0 in
    Player.queueSignal s1 = Player.queueSignal s0 ++ l
    /\ Player.originalQueueSignal s1 = Player.originalQueueSignal s0 ++ l
    /\ Player.currentIndexSignal s1 = Player.currentIndexSignal s0
    /\ Player.currentTrackSignal s1 = Player.currentTrackSignal s0
    /\ Player.statusSignal s1 = Player.statusSignal s0).
  { induction l as [|x l IH]; intros s0; simpl.
    - rewrite !app_nil_r. tauto.
    - destruct (IH (Player.addToQueue x false s0)) as (Hq & Ho & Hi & Ht & Hs).
      destruct (addToQueue_end_fields x s0) as (Hq0 & Ho0 & Hi0 & Ht0 & Hs0).
      rewrite Hq, Ho, Hi, Ht, Hs, Hq0, Ho0, Hi0, Ht0, Hs0.
      rewrite <- !app_assoc. simpl. tauto. }
  destruct (Hfold added s) as (Hq & Ho & Hi & Ht & Hs).
  split; [exact Hq|]. split; [exact Ho|]. split; [exact Hi|].
  split; [exact Ht|]. split; [exact Hs|].
  split; [apply sublist_List_filter|].
  split.
  - intros t. subst added. rewrite filter_In, existsb_exists. split.
    + intros (Hin & x & Hx & He). apply String.eqb_eq in He. subst x. tauto.
    + intros (Hin & Hsel). split; [exact Hin|].
      exists (Track.id t). split; [exact Hsel|apply String.eqb_refl].
  - intros (t & Hcur & Hat). exists t. rewrite Ht, Hi, Hq.
    split; [exact Hcur|].
    unfold Js.at_index in *. destruct (_ <? 0); [discriminate|].
    apply lookup_app_l_Some. exact Hat.
Qed.

Lemma addSelectedToQueue_appends_in_library_order_witness :
  Player.onCurrent
    (LibraryComponent.addSelectedToQueue [Examples.trackA; Examples.trackC]
       ["c"] Examples.threeTracks).
Proof.
  destruct (addSelectedToQueue_appends_in_library_order
              [Examples.trackA; Examples.trackC] ["c"] Examples.threeTracks)
    as (_ & _ & _ & _ & _ & _ & _ & H).
  apply H. exists Examples.trackB. split; reflexivity.
Defined.
